(** * MCPCalculator: the input validator, the BC process wrapper and the
      process pool, embedded from the TypeScript sources.

    - [src/ts/input-validator.ts]  ->  [Module Regex], [Module InputValidator]
    - [src/bc-process.ts]          ->  [Module BCProcess]
    - [bc-process-pool.ts]         ->  [Module BCProcessPool]

    JavaScript strings are sequences of UTF-16 code units; they are modelled
    as lists of numbers, so [length] is the JavaScript [.length]. *)

From Stdlib Require Import ZArith NArith Bool List Lia String Ascii.
From Stdlib Require Import Numbers.DecimalString.
From stdpp Require Import base list.
Import ListNotations.

Open Scope Z_scope.

(** ** JavaScript strings *)

Definition jschar := N.
Definition jsstring := list jschar.

(** A string literal of the source (all literals of the sources are ASCII). *)
Definition lit (s : string) : jsstring :=
  map N_of_ascii (list_ascii_of_string s).

(** [`${n}`] for an integer [n] (in decimal digits, as JavaScript prints
    integers of magnitude below 10^21). *)
Definition num_to_string (z : Z) : jsstring :=
  lit (NilZero.string_of_int (Z.to_int z)).

Arguments lit : simpl never.
Arguments num_to_string : simpl never.

(** The code units removed by [String.prototype.trim] and matched by the
    regular-expression class [\s]: WhiteSpace and LineTerminator. *)
Definition is_ws (c : jschar) : bool :=
  ((9 <=? c) && (c <=? 13) || (c =? 32) || (c =? 160) || (c =? 5760)
   || (8192 <=? c) && (c <=? 8202) || (c =? 8232) || (c =? 8233)
   || (c =? 8239) || (c =? 8287) || (c =? 12288) || (c =? 65279))%N.

Fixpoint trimStart (s : jsstring) : jsstring :=
  match s with
  | c :: r => if is_ws c then trimStart r else s
  | [] => []
  end.

Definition trimEnd (s : jsstring) : jsstring := rev (trimStart (rev s)).

(** [s.trim()] *)
Definition trim (s : jsstring) : jsstring := trimEnd (trimStart s).

(** ["\n"] *)
Definition newline : jsstring := [10%N].

(** JavaScript truthiness of a nullable reference: not [null]. *)
Definition present {A} (o : option A) : bool :=
  match o with Some _ => true | None => false end.

(** JavaScript truthiness of a string: non-empty. *)
Definition truthy (s : jsstring) : bool :=
  match s with [] => false | _ => true end.

(** [s.split('\n')]: never empty; the last element is the text after the
    last newline. *)
Fixpoint split_nl (s : jsstring) : list jsstring :=
  match s with
  | [] => [[]]
  | c :: r =>
      if (c =? 10)%N then [] :: split_nl r
      else match split_nl r with
           | h :: t => (c :: h) :: t
           | [] => [[c]]
           end
  end.

(** ** Regular expressions

    The fragment of JavaScript regular expressions used by the validator:
    character classes, concatenation, alternation and [*].  Only
    [RegExp.prototype.test] is used, so a pattern is characterised by the
    language it matches; matching is by derivatives. *)

Module Regex.

Inductive regex : Type :=
| Empty : regex                      (* matches nothing *)
| Eps : regex                        (* matches the empty string *)
| Chr : (jschar -> bool) -> regex    (* one code unit of a class *)
| Seq : regex -> regex -> regex
| Alt : regex -> regex -> regex
| Star : regex -> regex.

Fixpoint nullable (r : regex) : bool :=
  match r with
  | Empty => false
  | Eps => true
  | Chr _ => false
  | Seq a b => nullable a && nullable b
  | Alt a b => nullable a || nullable b
  | Star _ => true
  end.

Fixpoint deriv (c : jschar) (r : regex) : regex :=
  match r with
  | Empty => Empty
  | Eps => Empty
  | Chr p => if p c then Eps else Empty
  | Seq a b =>
      if nullable a then Alt (Seq (deriv c a) b) (deriv c b)
      else Seq (deriv c a) b
  | Alt a b => Alt (deriv c a) (deriv c b)
  | Star a => Seq (deriv c a) (Star a)
  end.

(** The whole of [s] matches [r]: a pattern written [/^r$/]. *)
Fixpoint fullmatch (r : regex) (s : jsstring) : bool :=
  match s with
  | [] => nullable r
  | c :: t => fullmatch (deriv c r) t
  end.

(** Some prefix of [s] matches [r]. *)
Fixpoint prefixmatch (r : regex) (s : jsstring) : bool :=
  nullable r ||
  match s with
  | [] => false
  | c :: t => prefixmatch (deriv c r) t
  end.

(** [/r/.test(s)] for an unanchored pattern: a match starting anywhere. *)
Fixpoint search (r : regex) (s : jsstring) : bool :=
  prefixmatch r s ||
  match s with
  | [] => false
  | _ :: t => search r t
  end.

(** The language of a pattern, against which the matcher is checked. *)
Inductive matches : regex -> jsstring -> Prop :=
| m_eps : matches Eps []
| m_chr p c : p c = true -> matches (Chr p) [c]
| m_seq a b s1 s2 :
    matches a s1 -> matches b s2 -> matches (Seq a b) (s1 ++ s2)
| m_alt_l a b s : matches a s -> matches (Alt a b) s
| m_alt_r a b s : matches b s -> matches (Alt a b) s
| m_star_nil a : matches (Star a) []
| m_star_app a s1 s2 :
    matches a s1 -> matches (Star a) s2 -> matches (Star a) (s1 ++ s2).

(** Pattern syntax. *)
Definition chr (a : ascii) : regex := Chr (fun c => (c =? N_of_ascii a)%N).

Definition range (lo hi : ascii) (c : jschar) : bool :=
  ((N_of_ascii lo <=? c) && (c <=? N_of_ascii hi))%N.

Definition is_upper := range "A" "Z".
Definition is_lower := range "a" "z".
Definition is_digit := range "0" "9".

(** Canonicalisation of the [i] flag (no [u] flag): only the ASCII
    letters fold onto ASCII letters. *)
Definition fold_case (c : jschar) : jschar :=
  if is_lower c then (c - 32)%N else c.

(** One literal character under the [i] flag. *)
Definition chr_i (a : ascii) : regex :=
  Chr (fun c => (fold_case c =? fold_case (N_of_ascii a))%N).

(** A literal word under the [i] flag. *)
Fixpoint word_i (s : string) : regex :=
  match s with
  | EmptyString => Eps
  | String a EmptyString => chr_i a
  | String a r => Seq (chr_i a) (word_i r)
  end.

(** [\s] and [\w]. *)
Definition ws : regex := Chr is_ws.
Definition is_word (c : jschar) : bool :=
  is_upper c || is_lower c || is_digit c || (c =? N_of_ascii "_")%N.

(** [x+] *)
Definition Plus (r : regex) : regex := Seq r (Star r).

End Regex.

(** ** src/ts/input-validator.ts *)

Record ValidationResult : Type := mkValidationResult {
  valid : bool;
  error : option jsstring;
  sanitized : option jsstring
}.

Module InputValidator.
Import Regex.

Definition invalid (msg : jsstring) : ValidationResult :=
  {| valid := false; error := Some msg; sanitized := None |}.

Definition accepted (trimmed : jsstring) : ValidationResult :=
  {| valid := true; error := None; sanitized := Some trimmed |}.

Definition MAX_LENGTH : Z := 10000.

(** The class of [/^[0-9a-zA-Z+\-*\/^().,;\s=<>!&|%{}[\]]+$/]. *)
Definition allowed_char (c : jschar) : bool :=
  is_digit c || is_lower c || is_upper c
  || existsb (fun a => (c =? N_of_ascii a)%N)
       (list_ascii_of_string "+-*/^().,;")
  || is_ws c
  || existsb (fun a => (c =? N_of_ascii a)%N)
       (list_ascii_of_string "=<>!&|%{}[]").

Definition ALLOWED_CHARS : regex := Plus (Chr allowed_char).

(** The class [[\/\w]]. *)
Definition path_or_word (c : jschar) : bool :=
  (c =? N_of_ascii "/")%N || is_word c.

Definition shell_commands : regex :=
  Alt (word_i "bash") (Alt (word_i "sh") (Alt (word_i "rm")
  (Alt (word_i "cat") (Alt (word_i "ls") (Alt (word_i "pwd")
  (Alt (word_i "chmod") (word_i "chown"))))))).

Definition DANGEROUS_PATTERNS : list regex :=
  [ Seq (word_i "system") (Seq (Star ws) (chr "("));      (* /system\s*\(/i *)
    Seq (word_i "exec") (Seq (Star ws) (chr "("));        (* /exec\s*\(/i *)
    chr "`";                                              (* /`/ *)
    Seq (chr "$") (chr "(");                              (* /\$\(/ *)
    Seq (chr ">") (Seq (Star ws) (Chr path_or_word));     (* />\s*[\/\w]/ *)
    Seq (chr "<") (Seq (Star ws) (Chr path_or_word));     (* /<\s*[\/\w]/ *)
    Seq (chr "|") (Seq (Star ws) (Chr path_or_word));     (* /\|\s*[\/\w]/ *)
    Seq (chr_i ";") (Seq (Star ws) shell_commands)
      (* /;\s*(?:bash|sh|rm|cat|ls|pwd|chmod|chown)/i *)
  ].

(** The counters of [validateBCSyntax]. *)
Record counts : Type := mkCounts {
  parenCount : Z; braceCount : Z; bracketCount : Z
}.

Definition bump (a : ascii) (c : jschar) (n : Z) (d : Z) : Z :=
  if (c =? N_of_ascii a)%N then n + d else n.

(** The body of the [for (const char of expression)] loop; the brackets
    are single code units, so iterating code units counts as iterating
    code points does.  [inl] is an early [return]. *)
Fixpoint scan (cs : jsstring) (k : counts) : ValidationResult + counts :=
  match cs with
  | [] => inr k
  | char :: rest =>
      let p := bump ")" char (bump "(" char (parenCount k) 1) (-1) in
      let b := bump "}" char (bump "{" char (braceCount k) 1) (-1) in
      let q := bump "]" char (bump "[" char (bracketCount k) 1) (-1) in
      if p <? 0 then
        inl (invalid (lit "Unbalanced parentheses: closing parenthesis before opening"))
      else if b <? 0 then
        inl (invalid (lit "Unbalanced braces: closing brace before opening"))
      else if q <? 0 then
        inl (invalid (lit "Unbalanced brackets: closing bracket before opening"))
      else scan rest (mkCounts p b q)
  end.

Definition missing_or_extra (n : Z) : jsstring :=
  if n >? 0 then lit "missing closing" else lit "extra closing".

Definition validateBCSyntax (expression : jsstring) : ValidationResult :=
  match scan expression (mkCounts 0 0 0) with
  | inl r => r
  | inr k =>
      if negb (parenCount k =? 0) then
        invalid (lit "Unbalanced parentheses: " ++ missing_or_extra (parenCount k)
                 ++ lit " parenthesis")
      else if negb (braceCount k =? 0) then
        invalid (lit "Unbalanced braces: " ++ missing_or_extra (braceCount k)
                 ++ lit " brace")
      else if negb (bracketCount k =? 0) then
        invalid (lit "Unbalanced brackets: " ++ missing_or_extra (bracketCount k)
                 ++ lit " bracket")
      else {| valid := true; error := None; sanitized := None |}
  end.

Definition validate (expression : jsstring) : ValidationResult :=
  (* 1. Check for null/undefined *)
  if negb (truthy expression) then
    invalid (lit "Expression cannot be null or undefined")
  (* 2. Check length *)
  else if Z.of_nat (length expression) >? MAX_LENGTH then
    invalid (lit "Expression too long (max " ++ num_to_string MAX_LENGTH
             ++ lit " characters, got "
             ++ num_to_string (Z.of_nat (length expression)) ++ lit ")")
  else
    (* 3. Check for empty input after trimming *)
    let trimmed := trim expression in
    if negb (truthy trimmed) then
      invalid (lit "Expression cannot be empty")
    (* 4. Check allowed characters *)
    else if negb (fullmatch ALLOWED_CHARS trimmed) then
      invalid (lit "Expression contains invalid characters. Only alphanumeric characters and mathematical operators are allowed.")
    (* 5. Check for dangerous patterns *)
    else if existsb (fun pattern => search pattern trimmed) DANGEROUS_PATTERNS then
      invalid (lit "Expression contains disallowed patterns that could be unsafe")
    else
      (* 6. Basic BC syntax validation *)
      let validation := validateBCSyntax trimmed in
      if negb (valid validation) then validation
      else accepted trimmed.

Definition sanitize (expression : jsstring) : jsstring := trim expression.

End InputValidator.


(** ** types.ts *)

Inductive BCErrorCode : Type :=
| VALIDATION_ERROR
| BC_NOT_READY
| BC_RUNTIME_ERROR
| BC_TIMEOUT
| BC_PROCESS_EXIT
| BC_SPAWN_ERROR
| INTERNAL_ERROR.

(** [BCCalculatorError]; the opaque [details] payload is not modelled. *)
Record BCCalculatorError : Type := mkError {
  message : jsstring;
  code : BCErrorCode
}.

(** A JavaScript value in the role of a precision ([options.precision],
    [scale], [currentPrecision]; declared [number], and arriving from the
    configuration and from tool arguments).  The wrapper does three
    things with such a value: it compares it with 0 and with 100, it
    prints it in a template string, and it stores it.  A value is
    modelled by what these show of it: the outcomes of the two
    comparisons and its printed form.  This covers the integers, [NaN],
    for which every comparison is false, and any other value. *)
Record number : Type := mkNumber {
  below_zero : bool;      (* n < 0 *)
  above_hundred : bool;   (* n > 100 *)
  printed : jsstring      (* `${n}` *)
}.

(** An integer. *)
Definition of_Z (z : Z) : number :=
  mkNumber (z <? 0) (z >? 100) (num_to_string z).
Coercion of_Z : Z >-> number.

Definition NaN : number := mkNumber false false (lit "NaN").

Record BCProcessOptions : Type := mkOptions {
  precision : number;
  timeout : Z;
  useMathLibrary : bool
}.

Record ProcessPoolConfig : Type := mkConfig {
  poolSize : nat;
  defaultPrecision : number;
  defaultTimeout : Z
}.

(** ** src/bc-process.ts *)

Module BCProcess.

(** The handle returned by [spawn]; [stdin] tells whether the handle
    carries an input stream. *)
Record ChildProcess : Type := mkChild {
  pid : option Z;
  stdin : bool
}.

(** Who awaits the promise of the pending request: a plain caller of
    [evaluate], or [setPrecision(scale)], whose continuation stores
    [scale] in [currentPrecision] once the promise resolves. *)
Inductive Sink : Type :=
| ToCaller
| ToSetPrecision (scale : number).

Record PendingRequest : Type := mkPending {
  resolve : Sink;
  timer : option nat
}.

(** The fields of the class, followed by the part of the runtime the
    object owns: its live timers (identifier and delay) and the next
    timer identifier. *)
Record t : Type := mkProcess {
  process : option ChildProcess;
  isReady : bool;
  currentPrecision : number;
  pendingRequest : option PendingRequest;
  outputBuffer : jsstring;
  errorBuffer : jsstring;
  options : BCProcessOptions;
  timers : list (nat * Z);
  timer_seq : nat
}.

(** What a method or handler does to the outside world. *)
Inductive Effect : Type :=
| Spawned (child : ChildProcess)   (* spawn('bc', ['-l'], {shell: false, ...}) *)
| Wrote (text : jsstring)          (* process.stdin.write(text) *)
| Signalled                        (* process.kill('SIGTERM') *)
| TimerSet (id : nat) (ms : Z)     (* setTimeout *)
| TimerCleared (id : nat)          (* clearTimeout *)
| Resolved (result : jsstring)     (* pendingRequest.resolve(result) *)
| Rejected (e : BCCalculatorError) (* pendingRequest.reject(e) *)
| Threw (e : BCCalculatorError).   (* the call itself failed *)

Definition M : Type := t * list Effect.

Definition set_process (v : option ChildProcess) (w : t) : t :=
  mkProcess v (isReady w) (currentPrecision w) (pendingRequest w)
    (outputBuffer w) (errorBuffer w) (options w) (timers w) (timer_seq w).
Definition set_isReady (v : bool) (w : t) : t :=
  mkProcess (process w) v (currentPrecision w) (pendingRequest w)
    (outputBuffer w) (errorBuffer w) (options w) (timers w) (timer_seq w).
Definition set_currentPrecision (v : number) (w : t) : t :=
  mkProcess (process w) (isReady w) v (pendingRequest w)
    (outputBuffer w) (errorBuffer w) (options w) (timers w) (timer_seq w).
Definition set_pendingRequest (v : option PendingRequest) (w : t) : t :=
  mkProcess (process w) (isReady w) (currentPrecision w) v
    (outputBuffer w) (errorBuffer w) (options w) (timers w) (timer_seq w).
Definition set_outputBuffer (v : jsstring) (w : t) : t :=
  mkProcess (process w) (isReady w) (currentPrecision w) (pendingRequest w)
    v (errorBuffer w) (options w) (timers w) (timer_seq w).
Definition set_errorBuffer (v : jsstring) (w : t) : t :=
  mkProcess (process w) (isReady w) (currentPrecision w) (pendingRequest w)
    (outputBuffer w) v (options w) (timers w) (timer_seq w).
Definition set_timers (v : list (nat * Z)) (n : nat) (w : t) : t :=
  mkProcess (process w) (isReady w) (currentPrecision w) (pendingRequest w)
    (outputBuffer w) (errorBuffer w) (options w) v n.

(** [new BCProcess(options)] *)
Definition new (o : BCProcessOptions) : t :=
  mkProcess None false (precision o) None [] [] o [] 0%nat.

(** [isAvailable()] *)
Definition isAvailable (w : t) : bool :=
  isReady w && negb (present (pendingRequest w))
  && present (process w).

(** [clearTimeout(timer)], guarded by [if (timer)]. *)
Definition clearTimeout (tm : option nat) (w : t) : M :=
  match tm with
  | Some id =>
      (set_timers (List.filter (fun x => negb (fst x =? id)%nat) (timers w))
         (timer_seq w) w,
       [TimerCleared id])
  | None => (w, [])
  end.

(** The continuation of whoever awaits the resolved promise. *)
Definition run_sink (k : Sink) (w : t) : t :=
  match k with
  | ToCaller => w
  | ToSetPrecision scale => set_currentPrecision scale w
  end.

Definition resolvePendingRequest (result : jsstring) (w : t) : M :=
  match pendingRequest w with
  | None => (w, [])
  | Some p =>
      let (w1, cleared) := clearTimeout (timer p) w in
      (run_sink (resolve p) (set_pendingRequest None w1),
       cleared ++ [Resolved result])
  end.

Definition rejectPendingRequest (e : BCCalculatorError) (w : t) : M :=
  match pendingRequest w with
  | None => (w, [])
  | Some p =>
      let (w1, cleared) := clearTimeout (timer p) w in
      (set_pendingRequest None w1, cleared ++ [Rejected e])
  end.

(** [kill()]; an exception of [process.kill] is caught and ignored. *)
Definition kill (w : t) : M :=
  match process w with
  | Some _ => (set_isReady false (set_process None w), [Signalled])
  | None => (w, [])
  end.

(** The [stdout] ['data'] handler of [setupHandlers]. *)
Definition on_stdout (data : jsstring) (w : t) : M :=
  let buffer := outputBuffer w ++ data in
  let lines := split_nl buffer in
  if (2 <=? length lines)%nat then
    let w1 := set_outputBuffer (default [] (last lines)) w in
    let results := List.filter (fun line => truthy (trim line)) (removelast lines) in
    if (0 <? length results)%nat && present (pendingRequest w) then
      resolvePendingRequest (trim (default [] (last results))) w1
    else (w1, [])
  else (set_outputBuffer buffer w, []).

(** The [stderr] ['data'] handler. *)
Definition on_stderr (data : jsstring) (w : t) : M :=
  let errorText := trim data in
  let w1 := set_errorBuffer (errorBuffer w ++ errorText ++ newline) w in
  if truthy errorText && present (pendingRequest w) then
    rejectPendingRequest
      (mkError (lit "BC error: " ++ errorText) BC_RUNTIME_ERROR) w1
  else (w1, []).

Definition show_code (c : option Z) : jsstring :=
  match c with Some n => num_to_string n | None => lit "null" end.
Definition show_signal (s : option jsstring) : jsstring :=
  match s with Some n => n | None => lit "null" end.

(** The ['exit'] handler. *)
Definition on_exit (c : option Z) (signal : option jsstring) (w : t) : M :=
  let w1 := set_isReady false w in
  rejectPendingRequest
    (mkError (lit "BC process exited unexpectedly (code: " ++ show_code c
              ++ lit ", signal: " ++ show_signal signal ++ lit ")")
       BC_PROCESS_EXIT) w1.

(** The ['error'] handler. *)
Definition on_error (msg : jsstring) (w : t) : M :=
  let w1 := set_isReady false w in
  rejectPendingRequest
    (mkError (lit "BC process error: " ++ msg) BC_SPAWN_ERROR) w1.

(** The callback armed by [evaluate] with [setTimeout]. *)
Definition on_timeout (timeoutMs : Z) (w : t) : M :=
  let (w1, e1) :=
    rejectPendingRequest
      (mkError (lit "Calculation timeout after " ++ num_to_string timeoutMs
                ++ lit "ms") BC_TIMEOUT) w in
  let (w2, e2) := kill w1 in
  (w2, e1 ++ e2).

Definition has_stdin (w : t) : bool :=
  match process w with Some c => stdin c | None => false end.

(** [evaluate(expression, timeout)], up to the point where the returned
    promise is pending.  [sink] is the awaiting caller; [write_error] is
    the message of the exception thrown by [stdin.write], if it throws. *)
Definition evaluate_for (sink : Sink) (expression : jsstring)
    (tmo : option Z) (write_error : option jsstring) (w : t) : M :=
  if negb (isReady w) || negb (present (process w))
     || negb (has_stdin w) then
    (w, [Threw (mkError (lit "BC process not ready") BC_NOT_READY)])
  else if present (pendingRequest w) then
    (w, [Threw (mkError (lit "BC process is busy with another calculation")
                  BC_NOT_READY)])
  else
    let timeoutMs := default (timeout (options w)) tmo in
    let id := timer_seq w in
    let w1 :=
      set_timers ((id, timeoutMs) :: timers w) (S id)
        (set_errorBuffer [] (set_outputBuffer []
           (set_pendingRequest (Some (mkPending sink (Some id))) w))) in
    match write_error with
    | None => (w1, [TimerSet id timeoutMs; Wrote (expression ++ newline)])
    | Some msg =>
        let (w2, e2) :=
          rejectPendingRequest
            (mkError (lit "Failed to write to BC process: " ++ msg)
               INTERNAL_ERROR) w1 in
        (w2, TimerSet id timeoutMs :: e2)
    end.

Definition evaluate := evaluate_for ToCaller.

(** [setPrecision(scale)] up to its [await]; the assignment to
    [currentPrecision] is the [ToSetPrecision] continuation. *)
Definition setPrecision (scale : number) (write_error : option jsstring) (w : t) : M :=
  if below_zero scale || above_hundred scale then
    (w, [Threw (mkError (lit "Invalid precision: " ++ printed scale
                          ++ lit ". Must be between 0 and 100")
                  VALIDATION_ERROR)])
  else
    evaluate_for (ToSetPrecision scale)
      (lit "scale=" ++ printed scale) None write_error w.

(** What can happen to a process object between two suspension points:
    an event of the child process, the deadline timer [id] firing, or
    a call of a public method.  [StdinError] is the ['error'] event of
    the input stream of the child, by which the stream reports a write
    that failed after [write] had returned (a closed pipe);
    [setupHandlers] registers no listener for it. *)
Inductive Action : Type :=
| StdoutData (data : jsstring)
| StderrData (data : jsstring)
| ExitEvent (c : option Z) (signal : option jsstring)
| ErrorEvent (msg : jsstring)
| TimerFire (id : nat)
| Evaluate (expression : jsstring) (tmo : option Z) (write_error : option jsstring)
| SetPrecision (scale : number) (write_error : option jsstring)
| Kill
| StdinError (msg : jsstring).

Definition step (a : Action) (w : t) : M :=
  match a with
  | StdoutData data => on_stdout data w
  | StderrData data => on_stderr data w
  | ExitEvent c s => on_exit c s w
  | ErrorEvent msg => on_error msg w
  | TimerFire id =>
      (* only a live timer fires, once *)
      match List.find (fun x => (fst x =? id)%nat) (timers w) with
      | Some (_, ms) =>
          on_timeout ms
            (set_timers (List.filter (fun x => negb (fst x =? id)%nat) (timers w))
               (timer_seq w) w)
      | None => (w, [])
      end
  | Evaluate e tmo we => evaluate e tmo we w
  | SetPrecision scale we => setPrecision scale we w
  | Kill => kill w
  | StdinError _ => (w, [])   (* no listener: no code of the class runs *)
  end.

Fixpoint run (acts : list Action) (w : t) : M :=
  match acts with
  | [] => (w, [])
  | a :: rest =>
      let (w1, e1) := step a w in
      let (w2, e2) := run rest w1 in
      (w2, e1 ++ e2)
  end.

(** *** [start()] 

    [start] suspends twice: on the 100ms delay after [spawn], and on the
    promise of [setPrecision].  The three pieces between the suspension
    points follow. *)

Definition spawn_error (e_message : jsstring) : BCCalculatorError :=
  mkError (lit "Failed to start BC process: " ++ e_message) BC_SPAWN_ERROR.

(** [this.process = spawn(...); this.setupHandlers();] then the delay.
    [spawned] is what [spawn] does: a handle, or the message of the
    exception it throws. *)
Definition start_spawn (spawned : ChildProcess + jsstring) (w : t)
  : M * option BCCalculatorError :=
  match spawned with
  | inl child => ((set_process (Some child) w, [Spawned child]), None)
  | inr msg => ((w, []), Some (spawn_error msg))
  end.

(** [this.isReady = true; await this.setPrecision(this.options.precision)],
    up to the [await]. *)
Definition start_ready (write_error : option jsstring) (w : t) : M :=
  setPrecision (precision (options w)) write_error (set_isReady true w).

(** How the pending request was settled, read off the effects of the
    step that settled it. *)
Fixpoint settled (es : list Effect) : option (jsstring + BCCalculatorError) :=
  match es with
  | [] => None
  | Resolved v :: _ => Some (inl v)
  | Rejected e :: _ => Some (inr e)
  | _ :: r => settled r
  end.

(** The exception of a call that failed before suspending. *)
Fixpoint thrown (es : list Effect) : option BCCalculatorError :=
  match es with
  | [] => None
  | Threw e :: _ => Some e
  | _ :: r => thrown r
  end.

(** How [await this.setPrecision(...)] of [start] stands after
    [start_ready]: already failed, or still pending ([None]). *)
Definition failed_early (es : list Effect) : option BCCalculatorError :=
  match thrown es with
  | Some e => Some e
  | None => match settled es with
            | Some (inr e) => Some e
            | _ => None
            end
  end.

(** The end of [start]: it returns, or its [catch] wraps the error. *)
Definition start_finish (o : jsstring + BCCalculatorError) : option BCCalculatorError :=
  match o with
  | inl _ => None
  | inr e => Some (spawn_error (message e))
  end.

(** The effects of the [clearTimeout] of a pending request. *)
Definition cleared (p : PendingRequest) : list Effect :=
  match timer p with Some id => [TimerCleared id] | None => [] end.

(** *** Executions of [start()]

    What the environment does while [start()] runs: the outcome of
    [spawn], what happens to the object during the delay, whether the
    write of the precision statement throws, and what happens while the
    precision request is pending. *)
Record StartScript : Type := mkScript {
  spawned : ChildProcess + jsstring;
  during_delay : list Action;
  write_error : option jsstring;
  during_precision : list Action
}.

(** A point of an execution at which other code can observe the object:
    its state, and everything it has done so far. *)
Definition Observation : Type := t * list Effect.

Fixpoint observe (acts : list Action) (o : Observation) : list Observation :=
  match acts with
  | [] => []
  | a :: rest =>
      let (w1, e1) := step a (fst o) in
      (w1, snd o ++ e1) :: observe rest (w1, snd o ++ e1)
  end.

(** The same, up to and including the action that settles the pending
    request; with it, how the request was settled. *)
Fixpoint await (acts : list Action) (o : Observation)
  : list Observation * option (jsstring + BCCalculatorError) :=
  match acts with
  | [] => ([], None)
  | a :: rest =>
      let (w1, e1) := step a (fst o) in
      match settled e1 with
      | Some r => ([(w1, snd o ++ e1)], Some r)
      | None =>
          let (obs, r) := await rest (w1, snd o ++ e1) in
          ((w1, snd o ++ e1) :: obs, r)
      end
  end.

(** The observation points of [start()], and how it ends: [Some None]
    when it returns, [Some (Some e)] when it throws [e], [None] when it
    is still suspended at the end of the script. *)
Definition start (sc : StartScript) (w : t)
  : list Observation * option (option BCCalculatorError) :=
  match start_spawn (spawned sc) w with
  | (o1, Some e) => ([o1], Some (Some e))
  | (o1, None) =>
      let delay := observe (during_delay sc) o1 in
      let o2 := List.last delay o1 in
      let (w3, e3) := start_ready (write_error sc) (fst o2) in
      let o3 := (w3, snd o2 ++ e3) in
      match failed_early e3 with
      | Some e => (o1 :: delay ++ [o3], Some (Some (spawn_error (message e))))
      | None =>
          let (obs, r) := await (during_precision sc) o3 in
          (o1 :: delay ++ o3 :: obs, option_map start_finish r)
      end
  end.

(** [getPrecision()] *)
Definition getPrecision (w : t) : number := currentPrecision w.

(** [getPid()]: [this.process?.pid] *)
Definition getPid (w : t) : option Z :=
  match process w with Some c => pid c | None => None end.

End BCProcess.

(** ** bc-process-pool.ts

    Process objects live in a heap and are referred to by their index, so
    that the two lists of the pool can share them.  The asynchronous
    methods are cut at their [await]s: a suspended call is a task of the
    state, resumed by the action that settles what it awaits.  One action
    is one turn of the event loop, the continuations it wakes included. *)

Module BCProcessPool.

Definition Spawn : Type := BCProcess.ChildProcess + jsstring.

(** Who awaits a [createProcess] call. *)
Inductive Caller : Type :=
| ByInitialize (call : nat)    (* one of the promises of [Promise.all] *)
| ByAcquire (call : nat)       (* the recovery path of [acquireProcess] *)
| ByRelease.                   (* detached, with a [catch] that logs *)

(** Where the [start()] awaited by a [createProcess] is suspended. *)
Inductive Phase : Type := Delay | Precision.

Record CreateTask : Type := mkTask {
  proc : nat;
  index : option nat;
  caller : Caller;
  phase : Phase
}.

Record t : Type := mkPool {
  heap : list BCProcess.t;
  processes : list nat;
  availableProcesses : list nat;
  config : ProcessPoolConfig;
  isInitialized : bool;
  (* suspended calls *)
  creating : list CreateTask;
  initializing : list (nat * nat);  (* initialize call, promises of its
                                       Promise.all still unfulfilled *)
  waiting : list (nat * Z);         (* acquireProcess call asleep in the
                                       polling loop, its waitedTime *)
  calls : nat                       (* next call identifier *)
}.

Inductive Effect : Type :=
| OfProcess (p : nat) (e : BCProcess.Effect)
| InitializeReturned (call : nat)
| InitializeFailed (call : nat) (e : BCCalculatorError)
| AcquireReturned (call : nat) (p : nat)
| AcquireFailed (call : nat) (e : BCCalculatorError).

Definition M : Type := t * list Effect.

Definition set_heap (v : list BCProcess.t) (s : t) : t :=
  mkPool v (processes s) (availableProcesses s) (config s) (isInitialized s)
    (creating s) (initializing s) (waiting s) (calls s).
Definition set_processes (v : list nat) (s : t) : t :=
  mkPool (heap s) v (availableProcesses s) (config s) (isInitialized s)
    (creating s) (initializing s) (waiting s) (calls s).
Definition set_availableProcesses (v : list nat) (s : t) : t :=
  mkPool (heap s) (processes s) v (config s) (isInitialized s)
    (creating s) (initializing s) (waiting s) (calls s).
Definition set_isInitialized (v : bool) (s : t) : t :=
  mkPool (heap s) (processes s) (availableProcesses s) (config s) v
    (creating s) (initializing s) (waiting s) (calls s).
Definition set_creating (v : list CreateTask) (s : t) : t :=
  mkPool (heap s) (processes s) (availableProcesses s) (config s)
    (isInitialized s) v (initializing s) (waiting s) (calls s).
Definition set_initializing (v : list (nat * nat)) (s : t) : t :=
  mkPool (heap s) (processes s) (availableProcesses s) (config s)
    (isInitialized s) (creating s) v (waiting s) (calls s).
Definition set_waiting (v : list (nat * Z)) (s : t) : t :=
  mkPool (heap s) (processes s) (availableProcesses s) (config s)
    (isInitialized s) (creating s) (initializing s) v (calls s).
Definition set_calls (v : nat) (s : t) : t :=
  mkPool (heap s) (processes s) (availableProcesses s) (config s)
    (isInitialized s) (creating s) (initializing s) (waiting s) v.

(** [new BCProcessPool(config)] *)
Definition new (cfg : ProcessPoolConfig) : t :=
  mkPool [] [] [] cfg false [] [] [] 0%nat.

Definition includes (p : nat) (l : list nat) : bool :=
  existsb (Nat.eqb p) l.
Definition without (p : nat) (l : list nat) : list nat :=
  List.filter (fun q => negb (q =? p)%nat) l.
Definition assoc {A} (k : nat) (l : list (nat * A)) : option A :=
  option_map snd (List.find (fun x => (fst x =? k)%nat) l).
Definition unassoc {A} (k : nat) (l : list (nat * A)) : list (nat * A) :=
  List.filter (fun x => negb (fst x =? k)%nat) l.

(** [process.isAvailable()] and [process.kill()] through a reference. *)
Definition available_at (p : nat) (s : t) : bool :=
  match heap s !! p with
  | Some w => BCProcess.isAvailable w
  | None => false
  end.

Definition kill_at (p : nat) (s : t) : M :=
  match heap s !! p with
  | Some w =>
      let (w1, es) := BCProcess.kill w in
      (set_heap (<[p := w1]> (heap s)) s, map (OfProcess p) es)
  | None => (s, [])
  end.

Fixpoint kill_all (ps : list nat) (s : t) : M :=
  match ps with
  | [] => (s, [])
  | p :: rest =>
      let (s1, e1) := kill_at p s in
      let (s2, e2) := kill_all rest s1 in
      (s2, e1 ++ e2)
  end.

(** [shutdown()]; it has no [await] inside. *)
Definition shutdown (s : t) : M :=
  let (s1, es) := kill_all (processes s) s in
  (set_isInitialized false (set_availableProcesses [] (set_processes [] s1)), es).

(** [createProcess(index)] up to the delay of [start()].  The new object
    is allocated at the end of the heap.  The third component is the
    error rethrown when [start()] fails at once. *)
Definition createProcess (idx : option nat) (by_ : Caller) (spawned : Spawn)
    (s : t) : M * option BCCalculatorError :=
  let p := length (heap s) in
  let w := BCProcess.new
             (mkOptions (defaultPrecision (config s)) (defaultTimeout (config s)) true) in
  match BCProcess.start_spawn spawned w with
  | ((w1, es), None) =>
      ((set_creating (creating s ++ [mkTask p idx by_ Delay])
          (set_heap (heap s ++ [w1]) s),
        map (OfProcess p) es), None)
  | ((w1, es), Some e) =>
      ((set_heap (heap s ++ [w1]) s, map (OfProcess p) es), Some e)
  end.

(** The rest of [createProcess] once [start()] has resolved, and the
    continuation of its caller. *)
Definition created (tk : CreateTask) (s : t) : M :=
  let s1 := set_availableProcesses (availableProcesses s ++ [proc tk])
              (set_processes (processes s ++ [proc tk]) s) in
  match caller tk with
  | ByInitialize c =>
      match assoc c (initializing s1) with
      | Some (S (S k)) =>
          (set_initializing ((c, S k) :: unassoc c (initializing s1)) s1, [])
      | Some _ =>
          (* Promise.all is fulfilled: this.isInitialized = true *)
          (set_isInitialized true
             (set_initializing (unassoc c (initializing s1)) s1),
           [InitializeReturned c])
      | None => (s1, [])   (* Promise.all was rejected before *)
      end
  | ByAcquire c => (s1, [AcquireReturned c (proc tk)])   (* return newProcess *)
  | ByRelease => (s1, [])
  end.

(** [createProcess] rethrows the error [e] of [start()]: the [catch] of
    its caller. *)
Definition create_failed (by_ : Caller) (e : BCCalculatorError) (s : t) : M :=
  match by_ with
  | ByInitialize c =>
      match assoc c (initializing s) with
      | Some _ =>
          (* the first rejection rejects Promise.all *)
          let (s1, es) := shutdown (set_initializing (unassoc c (initializing s)) s) in
          (s1, es ++ [InitializeFailed c
                        (mkError (lit "Failed to initialize BC process pool: "
                                  ++ message e) BC_SPAWN_ERROR)])
      | None => (s, [])
      end
  | ByAcquire c => (s, [AcquireFailed c e])
  | ByRelease => (s, [])   (* logged *)
  end.

Fixpoint create_failed_all (by_ : Caller) (errs : list BCCalculatorError) (s : t) : M :=
  match errs with
  | [] => (s, [])
  | e :: rest =>
      let (s1, e1) := create_failed by_ e s in
      let (s2, e2) := create_failed_all by_ rest s1 in
      (s2, e1 ++ e2)
  end.

(** The [for] loop of [initialize]: [n] more calls, from index [i]. *)
Fixpoint create_loop (c : nat) (n i : nat) (spawns : nat -> Spawn) (s : t)
  : M * list BCCalculatorError :=
  match n with
  | O => ((s, []), [])
  | S n' =>
      let '((s1, e1), failed) := createProcess (Some i) (ByInitialize c) (spawns i) s in
      let '((s2, e2), errs) := create_loop c n' (S i) spawns s1 in
      ((s2, e1 ++ e2), from_option (fun e => [e]) [] failed ++ errs)
  end.

(** [initialize()]; [spawns i] is what the [i]-th [spawn] does. *)
Definition initialize (spawns : nat -> Spawn) (s : t) : M :=
  let c := calls s in
  let s0 := set_calls (S c) s in
  if isInitialized s then (s0, [InitializeReturned c])
  else
    match poolSize (config s) with
    | O => (set_isInitialized true s0, [InitializeReturned c])
    | S _ as n =>
        let '((s1, e1), errs) :=
          create_loop c n 0 spawns (set_initializing ((c, n) :: initializing s0) s0) in
        let (s2, e2) := create_failed_all (ByInitialize c) errs s1 in
        (s2, e1 ++ e2)
    end.

Definition maxWaitTime : Z := 30000.
Definition checkInterval : Z := 100.

(** [acquireProcess] after its polling loop. *)
Definition take (c : nat) (spawned : Spawn) (s : t) : M :=
  match availableProcesses s with
  | [] =>
      (s, [AcquireFailed c
             (mkError (lit "No BC processes available after waiting") BC_NOT_READY)])
  | p :: rest =>
      (* const process = this.availableProcesses.shift()! *)
      let s1 := set_availableProcesses rest s in
      if negb (available_at p s1) then
        let (s2, e2) := kill_at p s1 in
        let '((s3, e3), failed) := createProcess None (ByAcquire c) spawned s2 in
        match failed with
        | Some e => (s3, e2 ++ e3 ++ [AcquireFailed c e])
        | None => (s3, e2 ++ e3)
        end
      else (s1, [AcquireReturned c p])
  end.

(** The test of the [while] loop, with [waitedTime = waited]. *)
Definition poll (c : nat) (waited : Z) (spawned : Spawn) (s : t) : M :=
  if (length (availableProcesses s) =? 0)%nat && (waited <? maxWaitTime) then
    (set_waiting (waiting s ++ [(c, waited)]) s, [])
  else take c spawned s.

Definition acquireProcess (spawned : Spawn) (s : t) : M :=
  let c := calls s in
  let s0 := set_calls (S c) s in
  if negb (isInitialized s) then
    (s0, [AcquireFailed c
            (mkError (lit "BC process pool not initialized") BC_NOT_READY)])
  else poll c 0 spawned s0.

(** The sleep of the waiting call [c] is over. *)
Definition wake (c : nat) (spawned : Spawn) (s : t) : M :=
  match assoc c (waiting s) with
  | Some waited =>
      poll c (waited + checkInterval) spawned
        (set_waiting (unassoc c (waiting s)) s)
  | None => (s, [])
  end.

Definition releaseProcess (p : nat) (spawned : Spawn) (s : t) : M :=
  if negb (includes p (processes s)) then (s, [])
  else if available_at p s then
    if negb (includes p (availableProcesses s)) then
      (set_availableProcesses (availableProcesses s ++ [p]) s, [])
    else (s, [])
  else
    let s1 := set_availableProcesses (without p (availableProcesses s))
                (set_processes (without p (processes s)) s) in
    let (s2, e2) := kill_at p s1 in
    let '((s3, e3), _) := createProcess None ByRelease spawned s2 in
    (s3, e2 ++ e3).

Definition task_of (p : nat) (ph : Phase) (s : t) : option CreateTask :=
  List.find (fun tk => (proc tk =? p)%nat
               && match phase tk, ph with
                  | Delay, Delay | Precision, Precision => true
                  | _, _ => false
                  end) (creating s).

Definition drop_task (p : nat) (s : t) : t :=
  set_creating (List.filter (fun tk => negb (proc tk =? p)%nat) (creating s)) s.

(** The delay of [start()] of process [p] is over. *)
Definition delay_elapsed (p : nat) (write_error : option jsstring) (s : t) : M :=
  match task_of p Delay s, heap s !! p with
  | Some tk, Some w =>
      let (w1, es) := BCProcess.start_ready write_error w in
      let s1 := set_heap (<[p := w1]> (heap s)) s in
      match BCProcess.failed_early es with
      | Some e =>
          let (s2, e2) :=
            create_failed (caller tk) (BCProcess.spawn_error (message e))
              (drop_task p s1) in
          (s2, map (OfProcess p) es ++ e2)
      | None =>
          (set_creating
             (mkTask p (index tk) (caller tk) Precision :: creating (drop_task p s1)) s1,
           map (OfProcess p) es)
      end
  | _, _ => (s, [])
  end.

(** An event or a call on process [p]; when it settles the request
    awaited by the [start()] of [p], [createProcess] resumes. *)
Definition on_process (p : nat) (a : BCProcess.Action) (s : t) : M :=
  match heap s !! p with
  | Some w =>
      let (w1, es) := BCProcess.step a w in
      let s1 := set_heap (<[p := w1]> (heap s)) s in
      match task_of p Precision s, BCProcess.settled es with
      | Some tk, Some (inl _) =>
          let (s2, e2) := created tk (drop_task p s1) in
          (s2, map (OfProcess p) es ++ e2)
      | Some tk, Some (inr e) =>
          let (s2, e2) :=
            create_failed (caller tk) (BCProcess.spawn_error (message e))
              (drop_task p s1) in
          (s2, map (OfProcess p) es ++ e2)
      | _, _ => (s1, map (OfProcess p) es)
      end
  | None => (s, [])
  end.

Inductive Action : Type :=
| Initialize (spawns : nat -> Spawn)
| AcquireProcess (spawned : Spawn)
| WakeUp (call : nat) (spawned : Spawn)
| ReleaseProcess (p : nat) (spawned : Spawn)
| Shutdown
| DelayElapsed (p : nat) (write_error : option jsstring)
| OnProcess (p : nat) (a : BCProcess.Action).

Definition step (a : Action) (s : t) : M :=
  match a with
  | Initialize spawns => initialize spawns s
  | AcquireProcess spawned => acquireProcess spawned s
  | WakeUp c spawned => wake c spawned s
  | ReleaseProcess p spawned => releaseProcess p spawned s
  | Shutdown => shutdown s
  | DelayElapsed p we => delay_elapsed p we s
  | OnProcess p a => on_process p a s
  end.

Fixpoint run (acts : list Action) (s : t) : M :=
  match acts with
  | [] => (s, [])
  | a :: rest =>
      let (s1, e1) := step a s in
      let (s2, e2) := run rest s1 in
      (s2, e1 ++ e2)
  end.

(** The effects of process [p] among the effects of the pool. *)
Fixpoint of_process (p : nat) (es : list Effect) : list BCProcess.Effect :=
  match es with
  | [] => []
  | OfProcess q e :: rest =>
      if (q =? p)%nat then e :: of_process p rest else of_process p rest
  | _ :: rest => of_process p rest
  end.

(** [getAvailableCount()] *)
Definition getAvailableCount (s : t) : Z := Z.of_nat (length (availableProcesses s)).

(** [getTotalCount()] *)
Definition getTotalCount (s : t) : Z := Z.of_nat (length (processes s)).

(** The object returned by [getStatus()]. *)
Module Status.
Record t : Type := mk {
  initialized : bool;
  totalProcesses : Z;
  availableProcesses : Z;
  busyProcesses : Z
}.
End Status.

(** [getStatus()] *)
Definition getStatus (s : t) : Status.t :=
  Status.mk (isInitialized s)
    (Z.of_nat (length (processes s)))
    (Z.of_nat (length (availableProcesses s)))
    (Z.of_nat (length (processes s)) - Z.of_nat (length (availableProcesses s))).

End BCProcessPool.

(** ** Predicates on process objects *)

Section ProcessPredicates.
Import BCProcess.

(** A process object without child process and without pending request. *)
Definition dead (w : t) : Prop := process w = None /\ pendingRequest w = None.

(** What any sequence of handlers and method calls other than [start]
    can do to a process object, given the effects [es] it had. *)
Definition evolves (w w' : t) (es : list Effect) : Prop :=
  (process w' = process w \/ (process w' = None /\ In Signalled es))
  /\ (forall pr, pendingRequest w = Some pr -> settled es = None ->
        pendingRequest w' = Some pr /\ timers w' = timers w)
  /\ (dead w -> dead w' /\ settled es = None).

(** A process object that was never marked ready, or no longer is, and
    has no pending request. *)
Definition idle (w : t) : Prop := isReady w = false /\ pendingRequest w = None.

End ProcessPredicates.

Section PoolPredicates.
Import BCProcessPool.

(** What an operation of the pool may do to the process object [p]. *)
Definition keeps (p : nat) (s s' : t) (es : list Effect) : Prop :=
  forall w, heap s !! p = Some w ->
    exists w', heap s' !! p = Some w'
               /\ evolves w w' (of_process p es)
               /\ (dead w -> forall c, ~ In (AcquireReturned c p) es).

(** Effects of the pool among which no timer is armed. *)
Definition arms_none (es : list Effect) : Prop :=
  forall p id ms, ~ In (OfProcess p (BCProcess.TimerSet id ms)) es.

End PoolPredicates.

(** ** Concrete processes used in the examples *)

Module Scenario.
Import BCProcess.
Definition child : ChildProcess := mkChild (Some 4242) true.
Definition opts : BCProcessOptions := mkOptions 20 30000 true.
(** A process whose [start()] is waiting for the answer to [scale=20]. *)
Definition starting : t :=
  fst (start_ready None (fst (fst (start_spawn (inl child) (new opts))))).
(** A started process: a line of output has arrived and was taken as the
    answer to the precision statement. *)
Definition ready : t := fst (step (StdoutData (lit "0" ++ newline)) starting).
(** A started process evaluating [1/0]. *)
Definition busy : t := fst (evaluate (lit "1/0") None None ready).
(** The same, killed while the request is pending (as [shutdown()] does). *)
Definition killed : t := fst (kill busy).
End Scenario.

Module PoolScenario.
Import BCProcessPool.
Definition spawn_ok : Spawn := inl Scenario.child.
(** A line of output of the engine; the code takes any non-blank line as
    the answer to the pending request. *)
Definition answer : BCProcess.Action := BCProcess.StdoutData (lit "0" ++ newline).

(** A pool of one process, initialised. *)
Definition pool1 : t :=
  fst (run [Initialize (fun _ => spawn_ok); DelayElapsed 0 None; OnProcess 0 answer]
         (new (mkConfig 1 20 30000))).

(** The engine of the only process exits while the process is idle in
    [availableProcesses]; then a caller acquires, and the replacement
    process starts. *)
Definition recovery : list Action :=
  [OnProcess 0 (BCProcess.ExitEvent (Some 1) None);
   AcquireProcess spawn_ok;
   DelayElapsed 1 None;
   OnProcess 1 answer].

(** A pool of two processes is initialised; the engine of the first
    exits before answering, the second answers afterwards. *)
Definition partial_start : list Action :=
  [Initialize (fun _ => spawn_ok);
   DelayElapsed 0 None;
   DelayElapsed 1 None;
   OnProcess 0 (BCProcess.ExitEvent (Some 1) None);
   OnProcess 1 answer].
End PoolScenario.

(** ** Predicates on expressions *)

Section ValidatorPredicates.
Import InputValidator.

(** What one code unit adds to the counter of [validateBCSyntax] for the
    pair of brackets [open], [close]. *)
Definition delta (open close : ascii) (c : jschar) : Z :=
  (if (c =? N_of_ascii open)%N then 1 else 0)
  - (if (c =? N_of_ascii close)%N then 1 else 0).

(** The number of [open] minus the number of [close] in [s]. *)
Fixpoint depth (open close : ascii) (s : jsstring) : Z :=
  match s with
  | [] => 0
  | c :: r => delta open close c + depth open close r
  end.

(** No prefix of [s] closes more than it opens, and [s] closes all it
    opens. *)
Definition balanced (open close : ascii) (s : jsstring) : Prop :=
  (forall n, 0 <= depth open close (firstn n s)) /\ depth open close s = 0.

(** The counters [k] after the loop of [validateBCSyntax] has read [s]. *)
Definition shifted (k : counts) (s : jsstring) : counts :=
  mkCounts (parenCount k + depth "(" ")" s) (braceCount k + depth "{" "}" s)
    (bracketCount k + depth "[" "]" s).

(** Starting from [k], no counter is negative after any prefix of [s]. *)
Definition never_negative (k : counts) (s : jsstring) : Prop :=
  forall n,
    0 <= parenCount k + depth "(" ")" (firstn n s)
    /\ 0 <= braceCount k + depth "{" "}" (firstn n s)
    /\ 0 <= bracketCount k + depth "[" "]" (firstn n s).

(** [w] is [word] up to the case of its ASCII letters. *)
Definition same_letters (word : string) (w : jsstring) : Prop :=
  map Regex.fold_case w = map Regex.fold_case (lit word).

End ValidatorPredicates.

(** ** More predicates on process objects *)

Section WorkerPredicates.
Import BCProcess.

(** The live timers of a process object are the deadline of its pending
    request. *)
Definition tidy (w : t) : Prop :=
  match pendingRequest w with
  | Some p => exists id ms, timer p = Some id /\ timers w = [(id, ms)]
  | None => timers w = []
  end.

(** [n] passes the range check of [setPrecision]: it is neither below 0
    nor above 100.  An integer passes when it is between 0 and 100;
    [NaN] passes. *)
Definition in_range (n : number) : bool :=
  negb (below_zero n || above_hundred n).

(** The reported precision and the precision being set, if any, have
    passed the range check of [setPrecision]; before the first precision
    statement has been answered the reported precision is the
    configured one. *)
Definition scales_checked (w : t) : Prop :=
  (currentPrecision w = precision (options w)
   \/ in_range (currentPrecision w) = true)
  /\ forall scale tm,
       pendingRequest w = Some (mkPending (ToSetPrecision scale) tm) ->
       in_range scale = true.

(** The observation points of [start()] from the end of its delay on:
    the points at and after [this.isReady = true].  (There is none when
    [spawn] throws.) *)
Definition past_delay (sc : StartScript) (w : t) : list Observation :=
  skipn (S (length (during_delay sc))) (fst (start sc w)).

(** The events and calls that clear the ready flag: the exit and error
    events of the child, [kill()] of a live child, and a deadline that
    fires while the child is live. *)
Definition halts (a : Action) (w : t) : bool :=
  match a with
  | ExitEvent _ _ | ErrorEvent _ => true
  | Kill => present (process w)
  | TimerFire id =>
      existsb (fun x => (fst x =? id)%nat) (timers w) && present (process w)
  | _ => false
  end.

(** Effects other than a write to the engine, a new timer or a spawn. *)
Definition quiet (e : Effect) : bool :=
  match e with
  | Wrote _ | TimerSet _ _ | Spawned _ => false
  | _ => true
  end.

(** Text read from the child. *)
Definition is_output (a : Action) : bool :=
  match a with StdoutData _ | StderrData _ => true | _ => false end.

(** What an accepted [evaluate] does. *)
Definition accepted_effects (k : Sink) (e : jsstring) (tmo : option Z)
    (we : option jsstring) (w : t) : list Effect :=
  TimerSet (timer_seq w) (default (timeout (options w)) tmo)
  :: match we with
     | None => [Wrote (e ++ newline)]
     | Some msg =>
         [TimerCleared (timer_seq w);
          Rejected (mkError (lit "Failed to write to BC process: " ++ msg)
                      INTERNAL_ERROR)]
     end.

(** The states of a process object on the normal path of [start()]:
    after [spawn], while the precision statement is pending, and when
    [start()] has returned. *)
Definition spawned_with (o : BCProcessOptions) (c : ChildProcess) : t :=
  mkProcess (Some c) false (precision o) None [] [] o [] 0%nat.
Definition starting_with (o : BCProcessOptions) (c : ChildProcess) : t :=
  mkProcess (Some c) true (precision o)
    (Some (mkPending (ToSetPrecision (precision o)) (Some 0%nat))) [] [] o
    [(0%nat, timeout o)] 1%nat.
Definition ready_with (o : BCProcessOptions) (c : ChildProcess) : t :=
  mkProcess (Some c) true (precision o) None [] [] o [] 1%nat.

(** What the object does when it sends the precision statement. *)
Definition precision_request (o : BCProcessOptions) : list Effect :=
  [TimerSet 0 (timeout o);
   Wrote (lit "scale=" ++ printed (precision o) ++ newline)].

End WorkerPredicates.

(** ** More predicates on pools *)

Section PoolStatePredicates.
Import BCProcessPool.

(** The two lists of the pool name each process object once, every
    available process is a member, a process being created is not yet a
    member, and references and call identifiers in use were handed out. *)
Definition consistent (s : t) : Prop :=
  List.NoDup (processes s)
  /\ List.NoDup (availableProcesses s)
  /\ (forall p, In p (availableProcesses s) -> In p (processes s))
  /\ (forall p, In p (processes s) -> (p < length (heap s))%nat)
  /\ List.NoDup (map proc (creating s))
  /\ (forall tk, In tk (creating s) ->
        (proc tk < length (heap s))%nat /\ ~ In (proc tk) (processes s))
  /\ (forall x, In x (waiting s) -> (fst x < calls s)%nat).

(** The call [c] sleeps in the polling loop of [acquireProcess] with
    [waitedTime = waited], and nothing is available. *)
Definition sleeping (c : nat) (waited : Z) (s : t) : Prop :=
  availableProcesses s = [] /\ assoc c (waiting s) = Some waited.

(** The options [createProcess] passes to [new BCProcess]. *)
Definition options_of (cfg : ProcessPoolConfig) : BCProcessOptions :=
  mkOptions (defaultPrecision cfg) (defaultTimeout cfg) true.


(** The outcomes of calls among the effects of the pool. *)
Definition outcomes (es : list Effect) : list Effect :=
  List.filter (fun e => match e with OfProcess _ _ => false | _ => true end) es.


End PoolStatePredicates.

(** * Properties *)

(** ** Facts about trimming *)

Section Trim.

Lemma trimStart_split (s : jsstring) :
  exists l, s = l ++ trimStart s /\ forallb is_ws l = true.
Proof.
  induction s as [|c r [l [Hl Hws]]]; simpl.
  - exists []; auto.
  - destruct (is_ws c) eqn:Hc.
    + exists (c :: l); simpl. rewrite Hc, Hws. split; [congruence | reflexivity].
    + exists []; auto.
Qed.

Lemma forallb_rev {A} (f : A -> bool) (l : list A) :
  forallb f (rev l) = forallb f l.
Proof.
  induction l as [|a l IH]; simpl; [reflexivity|].
  rewrite forallb_app, IH; simpl. rewrite andb_true_r. apply andb_comm.
Qed.

Lemma trimEnd_split (s : jsstring) :
  exists r, s = trimEnd s ++ r /\ forallb is_ws r = true.
Proof.
  unfold trimEnd.
  destruct (trimStart_split (rev s)) as [l [Hl Hws]].
  exists (rev l). split.
  - rewrite <- rev_app_distr, <- Hl. symmetry. apply rev_involutive.
  - rewrite forallb_rev. exact Hws.
Qed.

(** [trim] removes a block of white space at each end and nothing else. *)
Lemma trim_split (s : jsstring) :
  exists l r, s = l ++ trim s ++ r
              /\ forallb is_ws l = true /\ forallb is_ws r = true.
Proof.
  destruct (trimStart_split s) as [l [Hl Hwl]].
  destruct (trimEnd_split (trimStart s)) as [r [Hr Hwr]].
  exists l, r. unfold trim. rewrite <- Hr. auto.
Qed.

Lemma trimStart_head (s : jsstring) c r :
  trimStart s = c :: r -> is_ws c = false.
Proof.
  induction s as [|x s IH]; simpl; [discriminate|].
  destruct (is_ws x) eqn:Hx; [exact IH|].
  intros H; injection H as -> _. exact Hx.
Qed.

(** A code unit that is not white space survives [trimStart], with
    everything after it. *)
Lemma trimStart_keeps (a b : jsstring) x :
  is_ws x = false -> exists a', trimStart (a ++ x :: b) = a' ++ x :: b.
Proof.
  intros Hx. induction a as [|y a [a' IH]]; simpl.
  - rewrite Hx. exists []; reflexivity.
  - destruct (is_ws y).
    + exists a'; exact IH.
    + exists (y :: a); reflexivity.
Qed.


Lemma trim_In (s : jsstring) c :
  In c s -> is_ws c = false -> In c (trim s).
Proof.
  intros Hin Hc.
  destruct (trim_split s) as [l [r [Hs [Hl Hr]]]].
  rewrite Hs in Hin. rewrite !in_app_iff in Hin.
  rewrite forallb_forall in Hl, Hr.
  destruct Hin as [H | [H | H]]; [| exact H |].
  - apply Hl in H. congruence.
  - apply Hr in H. congruence.
Qed.

End Trim.

(** ** Regular expressions: the matcher decides the language *)

Module RegexFacts.
Import Regex.

#[local] Hint Constructors matches : core.

Lemma inv_empty s : matches Empty s -> False.
Proof. intros H; inversion H. Qed.

Lemma inv_eps s : matches Eps s -> s = [].
Proof. intros H; inversion H; reflexivity. Qed.

Lemma inv_chr p s : matches (Chr p) s -> exists c, s = [c] /\ p c = true.
Proof. intros H; inversion H; subst; eauto. Qed.

Lemma inv_seq a b s :
  matches (Seq a b) s ->
  exists s1 s2, s = s1 ++ s2 /\ matches a s1 /\ matches b s2.
Proof. intros H; inversion H; subst; eauto. Qed.

Lemma inv_alt a b s : matches (Alt a b) s -> matches a s \/ matches b s.
Proof. intros H; inversion H; subst; auto. Qed.

Lemma nullable_matches r : nullable r = true <-> matches r [].
Proof.
  induction r as [| |p|a IHa b IHb|a IHa b IHb|a IHa]; simpl; split; intros H;
    try discriminate; auto.
  - destruct (inv_empty _ H).
  - apply inv_chr in H as [c [E _]]. discriminate.
  - apply andb_true_iff in H as [H1 H2].
    change (@nil jschar) with (@nil jschar ++ []).
    constructor; [apply IHa | apply IHb]; assumption.
  - apply inv_seq in H as [s1 [s2 [E [H1 H2]]]].
    symmetry in E. apply app_eq_nil in E as [-> ->].
    apply andb_true_iff; split; [apply IHa | apply IHb]; assumption.
  - apply orb_true_iff in H as [H|H];
      [apply m_alt_l, IHa | apply m_alt_r, IHb]; assumption.
  - apply orb_true_iff.
    apply inv_alt in H as [H|H]; [left; apply IHa | right; apply IHb]; assumption.
Qed.

(** A non-empty match of [Star a] starts with a non-empty match of [a]. *)
Lemma star_uncons a c s :
  matches (Star a) (c :: s) ->
  exists s1 s2, s = s1 ++ s2 /\ matches a (c :: s1) /\ matches (Star a) s2.
Proof.
  intros H. remember (Star a) as r eqn:Er. remember (c :: s) as cs eqn:Ecs.
  revert s Ecs.
  induction H as [| | | | | |a' s1 s2 H1 _ H2 IH2]; intros tl Ecs; try discriminate.
  injection Er as ->.
  destruct s1 as [|x s1]; simpl in Ecs.
  - apply IH2; auto.
  - injection Ecs as -> <-. exists s1, s2. auto.
Qed.

Lemma deriv_matches c r : forall s, matches (deriv c r) s <-> matches r (c :: s).
Proof.
  induction r as [| |p|a IHa b IHb|a IHa b IHb|a IHa]; intros s; simpl.
  - split; intros H; destruct (inv_empty _ H).
  - split; intros H; [destruct (inv_empty _ H) | apply inv_eps in H; discriminate].
  - destruct (p c) eqn:Hp; split; intros H.
    + apply inv_eps in H as ->. auto.
    + apply inv_chr in H as [x [E Hx]]. injection E as <- ->. auto.
    + destruct (inv_empty _ H).
    + apply inv_chr in H as [x [E Hx]]. injection E as <- ->. congruence.
  - split.
    + intros H. destruct (nullable a) eqn:Hn.
      * apply inv_alt in H as [H|H].
        -- apply inv_seq in H as [s1 [s2 [-> [Ha Hb]]]].
           apply IHa in Ha. change (c :: s1 ++ s2) with ((c :: s1) ++ s2). auto.
        -- apply IHb in H. apply nullable_matches in Hn.
           change (c :: s) with ([] ++ c :: s). auto.
      * apply inv_seq in H as [s1 [s2 [-> [Ha Hb]]]].
        apply IHa in Ha. change (c :: s1 ++ s2) with ((c :: s1) ++ s2). auto.
    + intros H. apply inv_seq in H as [s1 [s2 [E [Ha Hb]]]].
      destruct s1 as [|x s1]; simpl in E.
      * subst s2. apply nullable_matches in Ha. rewrite Ha.
        apply m_alt_r, IHb, Hb.
      * injection E as <- ->. apply IHa in Ha.
        destruct (nullable a); [apply m_alt_l|]; auto.
  - split; intros H; apply inv_alt in H as [H|H].
    + apply m_alt_l, IHa; assumption.
    + apply m_alt_r, IHb; assumption.
    + apply m_alt_l, IHa; assumption.
    + apply m_alt_r, IHb; assumption.
  - split.
    + intros H. apply inv_seq in H as [s1 [s2 [-> [Ha Hb]]]].
      apply IHa in Ha. change (c :: s1 ++ s2) with ((c :: s1) ++ s2). auto.
    + intros H. apply star_uncons in H as [s1 [s2 [-> [Ha Hs]]]].
      apply IHa in Ha. auto.
Qed.

Lemma fullmatch_matches s : forall r, fullmatch r s = true <-> matches r s.
Proof.
  induction s as [|c s IH]; intros r; simpl.
  - apply nullable_matches.
  - rewrite IH. apply deriv_matches.
Qed.

Lemma prefixmatch_matches s : forall r,
  prefixmatch r s = true <-> exists m rest, s = m ++ rest /\ matches r m.
Proof.
  induction s as [|c s IH]; intros r; simpl.
  - rewrite orb_false_r, nullable_matches. split.
    + intros H. exists [], []. auto.
    + intros [m [rest [E H]]]. symmetry in E. apply app_eq_nil in E as [-> _]. exact H.
  - rewrite orb_true_iff, IH, nullable_matches. split.
    + intros [H | [m [rest [-> H]]]].
      * exists [], (c :: s). auto.
      * exists (c :: m), rest. split; [reflexivity|]. apply deriv_matches, H.
    + intros [m [rest [E H]]]. destruct m as [|x m]; [left; exact H|].
      simpl in E. injection E as <- ->. right. exists m, rest.
      split; [reflexivity|]. apply deriv_matches, H.
Qed.

Lemma search_matches s : forall r,
  search r s = true <->
  exists pre m post, s = pre ++ m ++ post /\ matches r m.
Proof.
  induction s as [|c s IH]; intros r; cbn [search].
  - rewrite orb_false_r, prefixmatch_matches. split.
    + intros [m [rest [E H]]]. exists [], m, rest. auto.
    + intros [pre [m [post [E H]]]]. symmetry in E.
      apply app_eq_nil in E as [-> E]. exists m, post. auto.
  - rewrite orb_true_iff, IH, prefixmatch_matches. split.
    + intros [[m [rest [E H]]] | [pre [m [post [-> H]]]]].
      * exists [], m, rest. auto.
      * exists (c :: pre), m, post. auto.
    + intros [pre [m [post [E H]]]]. destruct pre as [|x pre]; simpl in E.
      * left. exists m, post. auto.
      * injection E as <- ->. right. exists pre, m, post. auto.
Qed.

(** A match of [c+] consists of code units of the class [c]. *)
Lemma star_class p s : matches (Star (Chr p)) s -> forallb p s = true.
Proof.
  intros H. remember (Star (Chr p)) as r eqn:Er.
  induction H as [| | | | | |a s1 s2 H1 _ _ IH2]; try discriminate; [reflexivity|].
  injection Er as ->. apply inv_chr in H1 as [c [-> Hc]]. simpl.
  rewrite IH2 by reflexivity. rewrite Hc. reflexivity.
Qed.

Lemma plus_class p s :
  fullmatch (Plus (Chr p)) s = true -> forallb p s = true.
Proof.
  rewrite fullmatch_matches. unfold Plus. intros H.
  apply inv_seq in H as [s1 [s2 [-> [Ha Hb]]]].
  apply inv_chr in Ha as [c [-> Hc]]. simpl.
  apply star_class in Hb. rewrite Hb, Hc. reflexivity.
Qed.

End RegexFacts.

(** ** The validator *)

Section Validator.
Import Regex RegexFacts InputValidator.

(** Every [return] of [validate] but the last has [valid: false]. *)
Lemma validate_valid_inv (expression : jsstring) :
  valid (validate expression) = true ->
  expression <> []
  /\ Z.of_nat (length expression) <= MAX_LENGTH
  /\ trim expression <> []
  /\ fullmatch ALLOWED_CHARS (trim expression) = true
  /\ existsb (fun pattern => search pattern (trim expression)) DANGEROUS_PATTERNS = false
  /\ valid (validateBCSyntax (trim expression)) = true
  /\ validate expression = accepted (trim expression).
Proof.
  unfold validate.
  destruct (truthy expression) eqn:Htr; cbn [negb]; [|discriminate].
  destruct (Z.of_nat (length expression) >? MAX_LENGTH) eqn:Hlen; [discriminate|].
  cbv zeta.
  destruct (truthy (trim expression)) eqn:Htt; cbn [negb]; [|discriminate].
  destruct (fullmatch ALLOWED_CHARS (trim expression)) eqn:Hall; cbn [negb];
    [|discriminate].
  destruct (existsb _ DANGEROUS_PATTERNS) eqn:Hd; [discriminate|].
  destruct (valid (validateBCSyntax (trim expression))) eqn:Hv; cbn [negb].
  - intros _. repeat split; try congruence.
    + intros ->. discriminate.
    + rewrite Z.gtb_ltb in Hlen. apply Z.ltb_ge in Hlen. exact Hlen.
    + intros E. rewrite E in Htt. discriminate.
  - intros H. congruence.
Qed.

Lemma validate_invalid_error (expression : jsstring) :
  valid (validate expression) = false ->
  exists msg, error (validate expression) = Some msg.
Proof.
  unfold validate.
  destruct (negb (truthy expression)); [eauto|].
  destruct (_ >? _); [eauto|]. cbv zeta.
  destruct (negb (truthy (trim expression))); [eauto|].
  destruct (negb (fullmatch _ _)); [eauto|].
  destruct (existsb _ _); [eauto|].
  destruct (valid (validateBCSyntax (trim expression))) eqn:Hv; cbn [negb];
    [discriminate|].
  intros _. revert Hv. unfold validateBCSyntax.
  destruct (scan _ _) as [r|k] eqn:Hs.
  - revert Hs. generalize (mkCounts 0 0 0).
    induction (trim expression) as [|ch rest IH]; intros k0; cbn [scan];
      [discriminate|].
    repeat match goal with
           | |- context [if ?b then inl _ else _] => destruct b
           end; try (intros H; injection H as <-; eauto).
    apply IH.
  - repeat match goal with
           | |- context [if ?b then _ else _] => destruct b
           end; cbn; eauto; discriminate.
Qed.

Ltac to_prop H :=
  rewrite ?orb_true_iff, ?andb_true_iff, ?N.eqb_eq, ?N.leb_le in H.


Lemma allowed_of_valid s c :
  valid (validate s) = true -> In c (trim s) -> allowed_char c = true.
Proof.
  intros Hv Hin. apply validate_valid_inv in Hv as (_ & _ & _ & Hall & _).
  apply plus_class in Hall. rewrite forallb_forall in Hall. auto.
Qed.

Lemma dangerous_of_match s r m pre post :
  In r DANGEROUS_PATTERNS -> matches r m -> trim s = pre ++ m ++ post ->
  valid (validate s) = false.
Proof.
  intros Hr Hm Ht. destruct (valid (validate s)) eqn:Hv; [|reflexivity].
  apply validate_valid_inv in Hv as (_ & _ & _ & _ & Hd & _).
  assert (existsb (fun pattern => search pattern (trim s)) DANGEROUS_PATTERNS = true)
    as Hd'; [|congruence].
  apply existsb_exists. exists r. split; [exact Hr|].
  apply search_matches. eauto.
Qed.

Lemma star_ws_matches (sp : jsstring) :
  forallb is_ws sp = true -> matches (Star ws) sp.
Proof.
  induction sp as [|x sp IH]; [constructor|]. cbn [forallb].
  intros H. apply andb_true_iff in H as [Hx Hsp].
  change (x :: sp) with ([x] ++ sp). constructor; [constructor; exact Hx | auto].
Qed.




(** C10: [validate] succeeds only on an input whose trimmed form is
    non-empty (an empty or white-space-only input is rejected with an
    error message); when it succeeds, the sanitized text is the trimmed
    input, that is the input without a block of white space at each end:
    nothing inside is altered, removed or escaped. *)
Theorem validate_sanitized_is_trim (expression : jsstring) :
  (trim expression = [] ->
     valid (validate expression) = false
     /\ exists msg, error (validate expression) = Some msg)
  /\ (valid (validate expression) = true ->
     trim expression <> []
     /\ validate expression = accepted (trim expression)
     /\ sanitize expression = trim expression
     /\ exists l r, expression = l ++ trim expression ++ r
                    /\ forallb is_ws l = true /\ forallb is_ws r = true).
Proof.
  split.
  - intros Ht.
    assert (valid (validate expression) = false) as Hv.
    { destruct (valid (validate expression)) eqn:Hv; [|reflexivity].
      apply validate_valid_inv in Hv as (_ & _ & Hne & _). contradiction. }
    split; [exact Hv | apply validate_invalid_error, Hv].
  - intros Hv. apply validate_valid_inv in Hv as (_ & _ & Hne & _ & _ & _ & Hr).
    repeat split; [exact Hne | exact Hr | apply trim_split].
Qed.

Lemma validate_sanitized_is_trim_witness :
  valid (validate (lit "   ")) = false
  /\ sanitized (validate (lit "  2 + 2 ")) = Some (lit "2 + 2").
Proof.
  split.
  - apply (proj1 (validate_sanitized_is_trim (lit "   "))). reflexivity.
  - destruct (proj2 (validate_sanitized_is_trim (lit "  2 + 2 "))) as (_ & Hr & _).
    + vm_compute. reflexivity.
    + rewrite Hr. reflexivity.
Defined.
End Validator.

(** ** The process wrapper *)

Ltac setters :=
  cbv [BCProcess.set_process BCProcess.set_isReady BCProcess.set_currentPrecision
       BCProcess.set_pendingRequest BCProcess.set_outputBuffer
       BCProcess.set_errorBuffer BCProcess.set_timers];
  cbn [BCProcess.process BCProcess.isReady BCProcess.currentPrecision
       BCProcess.pendingRequest BCProcess.outputBuffer BCProcess.errorBuffer
       BCProcess.options BCProcess.timers BCProcess.timer_seq negb].

Section Worker.
Import BCProcess.

Lemma split_nl_join (s : jsstring) :
  s = flat_map (fun l => l ++ newline) (removelast (split_nl s))
      ++ default [] (last (split_nl s))
  /\ split_nl s <> [].
Proof.
  induction s as [|c r [IH Hne]]; [split; [reflexivity | discriminate]|].
  cbn [split_nl]. destruct (N.eqb_spec c 10) as [->|Hc].
  - destruct (split_nl r) as [|h t] eqn:E; [contradiction|].
    split; [|discriminate].
    cbn [removelast flat_map]. rewrite last_cons.
    destruct (last (h :: t)) as [x|] eqn:El; simpl in IH |- *.
    + rewrite <- IH. reflexivity.
    + apply last_None in El. discriminate.
  - destruct (split_nl r) as [|h t] eqn:E; [contradiction|].
    split; [|discriminate].
    destruct t as [|h' t']; simpl in IH |- *.
    + congruence.
    + rewrite <- !app_assoc in IH |- *. simpl in IH |- *. f_equal.
      rewrite last_cons in IH. rewrite !last_cons.
      destruct (last t'); simpl in *; exact IH.
Qed.

Lemma split_nl_lines (s : jsstring) :
  Forall (fun l => ~ In 10%N l) (split_nl s).
Proof.
  induction s as [|c r IH]; [repeat constructor; auto|].
  cbn [split_nl]. destruct (N.eqb_spec c 10) as [->|Hc].
  - constructor; [auto | exact IH].
  - destruct (split_nl r) as [|h t]; [repeat constructor; simpl; intuition|].
    inversion IH; subst. constructor; [|assumption].
    simpl; intuition.
Qed.


Lemma Forall_removelast {A} (P : A -> Prop) (l : list A) :
  Forall P l -> Forall P (removelast l).
Proof.
  induction 1 as [|x l Hx Hl IH]; [constructor|].
  destruct l; [constructor|]. cbn [removelast]. constructor; assumption.
Qed.

Lemma Forall_last_default {A} (P : A -> Prop) (l : list A) (d : A) :
  P d -> Forall P l -> P (default d (last l)).
Proof.
  intros Hd Hl. destruct (last l) as [x|] eqn:E; [|exact Hd].
  apply last_Some in E as [l' ->]. rewrite Forall_app in Hl.
  destruct Hl as [_ Hx]. inversion Hx; assumption.
Qed.

(** The last element kept by a filter. *)
Lemma last_filter {A} (f : A -> bool) (before after : list A) (x : A) :
  f x = true -> Forall (fun y => f y = false) after ->
  List.filter f (before ++ x :: after) = List.filter f before ++ [x].
Proof.
  intros Hx Ha. rewrite List.filter_app. cbn [List.filter]. rewrite Hx.
  f_equal. f_equal. induction Ha as [|y l Hy _ IH]; [reflexivity|].
  cbn [List.filter]. rewrite Hy. exact IH.
Qed.

Lemma truthy_false (s : jsstring) : truthy s = false <-> s = [].
Proof. destruct s; simpl; split; congruence. Qed.

Lemma truthy_true (s : jsstring) : truthy s = true <-> s <> [].
Proof. destruct s; simpl; split; congruence. Qed.

Lemma clearTimeout_spec (tm : option nat) (w : t) :
  let w' := fst (clearTimeout tm w) in
  process w' = process w /\ isReady w' = isReady w
  /\ currentPrecision w' = currentPrecision w
  /\ pendingRequest w' = pendingRequest w
  /\ outputBuffer w' = outputBuffer w /\ errorBuffer w' = errorBuffer w
  /\ options w' = options w
  /\ (forall id, tm = Some id -> ~ In id (map fst (timers w')))
  /\ snd (clearTimeout tm w)
     = match tm with Some id => [TimerCleared id] | None => [] end.
Proof.
  destruct tm as [id|]; cbn; repeat split; try discriminate.
  intros id' [= <-]. rewrite in_map_iff. intros [[i ms] [E Hin]].
  apply List.filter_In in Hin as [_ Hf]. simpl in *. subst i.
  rewrite Nat.eqb_refl in Hf. discriminate.
Qed.

Lemma rejectPendingRequest_spec (e : BCCalculatorError) (w : t) (p : PendingRequest) :
  pendingRequest w = Some p ->
  let w' := fst (rejectPendingRequest e w) in
  snd (rejectPendingRequest e w) = cleared p ++ [Rejected e]
  /\ pendingRequest w' = None
  /\ (forall id, timer p = Some id -> ~ In id (map fst (timers w')))
  /\ process w' = process w /\ isReady w' = isReady w
  /\ currentPrecision w' = currentPrecision w
  /\ options w' = options w.
Proof.
  intros Hp. unfold rejectPendingRequest, cleared. rewrite Hp.
  pose proof (clearTimeout_spec (timer p) w) as H.
  destruct (clearTimeout (timer p) w) as [w1 es]. cbn in *.
  destruct H as (? & ? & ? & ? & ? & ? & ? & ? & ->). repeat split; auto.
Qed.

Lemma resolvePendingRequest_spec (v : jsstring) (w : t) (p : PendingRequest) :
  pendingRequest w = Some p ->
  let w' := fst (resolvePendingRequest v w) in
  snd (resolvePendingRequest v w) = cleared p ++ [Resolved v]
  /\ pendingRequest w' = None
  /\ (forall id, timer p = Some id -> ~ In id (map fst (timers w')))
  /\ process w' = process w /\ isReady w' = isReady w
  /\ currentPrecision w'
     = match resolve p with
       | ToCaller => currentPrecision w
       | ToSetPrecision scale => scale
       end
  /\ options w' = options w.
Proof.
  intros Hp. unfold resolvePendingRequest, cleared. rewrite Hp.
  pose proof (clearTimeout_spec (timer p) w) as H.
  destruct (clearTimeout (timer p) w) as [w1 es]. cbn in *.
  destruct H as (? & ? & ? & ? & ? & ? & ? & ? & ->).
  destruct (resolve p); cbn; repeat split; auto.
Qed.

Lemma isAvailable_spec (w : t) :
  isAvailable w = true <->
  isReady w = true /\ pendingRequest w = None /\ is_Some (process w).
Proof.
  unfold isAvailable.
  destruct (isReady w), (pendingRequest w), (process w); cbn;
    split; try discriminate; try (intros (? & ? & ?); try discriminate);
    try (intros; repeat split; eauto);
    match goal with H : is_Some None |- _ => destruct H; discriminate end.
Qed.

(** C7, as the code has it: every chunk read from the output stream is appended to
    the buffer, which is split at the newlines; the text after the last
    newline stays in the buffer.  If a request is pending and some
    complete line has non-empty trimmed content, the request is resolved
    with the trimmed last such line, its timer is cancelled and the
    pending record is cleared.  The handler leaves the ready flag and the
    process handle as they were: a Worker that was ready with a live
    process is available again. *)
Theorem stdout_chunk_resolves (w : t) (data : jsstring) :
  let lines := split_nl (outputBuffer w ++ data) in
  let complete := removelast lines in
  let w' := fst (on_stdout data w) in
  outputBuffer w ++ data
    = flat_map (fun l => l ++ newline) complete ++ outputBuffer w'
  /\ ~ In 10%N (outputBuffer w')
  /\ Forall (fun l => ~ In 10%N l) complete
  /\ forall p before line after,
       pendingRequest w = Some p ->
       complete = before ++ line :: after ->
       trim line <> [] ->
       Forall (fun l => trim l = []) after ->
       snd (on_stdout data w) = cleared p ++ [Resolved (trim line)]
       /\ pendingRequest w' = None
       /\ (forall id, timer p = Some id -> ~ In id (map fst (timers w')))
       /\ isReady w' = isReady w /\ process w' = process w
       /\ (isReady w = true -> is_Some (process w) -> isAvailable w' = true).
Proof.
  intros lines complete w'.
  pose proof (split_nl_join (outputBuffer w ++ data)) as [Hjoin Hne].
  pose proof (split_nl_lines (outputBuffer w ++ data)) as Hnl.
  fold lines in Hjoin, Hne, Hnl. fold complete in Hjoin.
  assert (outputBuffer w' = default [] (last lines)) as Hbuf.
  { subst w'. unfold on_stdout. fold lines.
    destruct (2 <=? length lines)%nat eqn:Hlen.
    - destruct (_ && _).
      + match goal with
        | |- context [resolvePendingRequest ?v ?x] =>
            unfold resolvePendingRequest; cbn [pendingRequest set_outputBuffer];
            destruct (pendingRequest w) as [p|]; [|reflexivity];
            destruct (timer p), (resolve p); reflexivity
        end.
      + reflexivity.
    - apply Nat.leb_gt in Hlen.
      destruct lines as [|l [|l' ls]]; [contradiction| |simpl in Hlen; lia].
      cbn in Hjoin |- *. exact Hjoin. }
  split; [rewrite Hbuf; exact Hjoin|].
  split; [rewrite Hbuf; apply Forall_last_default; [simpl; tauto | exact Hnl]|].
  split; [apply Forall_removelast, Hnl|].
  intros p before line after Hp Hc Hline Hafter.
  assert ((2 <=? length lines)%nat = true) as Hlen.
  { apply Nat.leb_le. destruct lines as [|l [|l' ls]]; simpl; try lia.
    - contradiction.
    - subst complete. cbn in Hc. destruct before; discriminate. }
  assert (List.filter (fun l => truthy (trim l)) complete
          = List.filter (fun l => truthy (trim l)) before ++ [line]) as Hres.
  { rewrite Hc. apply last_filter; [apply truthy_true, Hline|].
    eapply Forall_impl; [exact Hafter|]. intros l ->. reflexivity. }
  subst w'. unfold on_stdout. fold lines. rewrite Hlen. fold complete.
  rewrite Hres, Hp, last_snoc, length_app. cbn [length default present].
  replace (0 <? _ + 1)%nat with true by (symmetry; apply Nat.ltb_lt; lia).
  cbn [andb].
  match goal with
  | |- context [resolvePendingRequest ?v ?x] =>
      pose proof (resolvePendingRequest_spec v x p Hp) as H
  end.
  cbn zeta in H. destruct H as (He & Hpn & Htm & Hpr & Hrd & _).
  repeat split; auto.
  intros Hr Hs. apply isAvailable_spec.
  rewrite Hpn, Hrd, Hpr. auto.
Qed.


Lemma stdout_chunk_resolves_witness :
  let r := on_stdout (lit "3" ++ newline ++ lit "  " ++ newline ++ lit "0.")
             (set_outputBuffer (lit "0.3") Scenario.busy) in
  snd r = [TimerCleared 1; Resolved (lit "0.33")]
  /\ isAvailable (fst r) = true.
Proof.
  pose proof (stdout_chunk_resolves (set_outputBuffer (lit "0.3") Scenario.busy)
                (lit "3" ++ newline ++ lit "  " ++ newline ++ lit "0.")) as H.
  cbv zeta in H. destruct H as (_ & _ & _ & H).
  specialize (H (mkPending ToCaller (Some 1%nat)) [] (lit "0.33") [lit "  "]
                eq_refl eq_refl).
  destruct H as (He & _ & _ & _ & _ & Ha).
  - discriminate.
  - repeat constructor.
  - split; [exact He | apply Ha; [reflexivity | eexists; reflexivity]].
Defined.


(** An available process with an input stream accepts [evaluate]. *)
Lemma evaluate_accepted (w : t) (e : jsstring) (tmo : option Z) :
  isAvailable w = true -> has_stdin w = true ->
  let r := evaluate e tmo None w in
  snd r = [TimerSet (timer_seq w) (default (timeout (options w)) tmo);
           Wrote (e ++ newline)]
  /\ pendingRequest (fst r) = Some (mkPending ToCaller (Some (timer_seq w)))
  /\ process (fst r) = process w /\ isReady (fst r) = true.
Proof.
  intros Ha Hs. apply isAvailable_spec in Ha as (Hr & Hp & [c Hc]).
  unfold evaluate, evaluate_for. rewrite Hr, Hp, Hc, Hs. cbn.
  repeat split; auto.
Qed.

(** C3, as the code has it: [evaluate] on a Worker that has a pending request fails
    at once with an error of code [BC_NOT_READY], the code also used when
    the Worker is not ready; the message tells the two apart ("busy with
    another calculation", or "not ready" when the Worker with the pending
    request is also not ready).  The Worker, its pending request and its
    timer are left unchanged. *)
Theorem evaluate_while_pending (w : t) (p : PendingRequest)
    (e : jsstring) (tmo : option Z) (write_error : option jsstring) :
  pendingRequest w = Some p ->
  exists err,
    evaluate e tmo write_error w = (w, [Threw err])
    /\ code err = BC_NOT_READY
    /\ message err
       = if isReady w && has_stdin w
         then lit "BC process is busy with another calculation"
         else lit "BC process not ready".
Proof.
  intros Hp. unfold evaluate, evaluate_for, has_stdin. rewrite Hp.
  destruct (isReady w), (process w) as [[i []]|]; cbn; eauto.
Qed.

Lemma evaluate_while_pending_witness :
  evaluate (lit "2+2") None None Scenario.busy
  = (Scenario.busy,
     [Threw (mkError (lit "BC process is busy with another calculation")
               BC_NOT_READY)]).
Proof.
  destruct (evaluate_while_pending Scenario.busy (mkPending ToCaller (Some 1%nat))
              (lit "2+2") None None eq_refl) as [err (-> & Hc & Hm)].
  destruct err as [m c]. cbn in Hc, Hm. rewrite Hc, Hm. reflexivity.
Defined.

(** C3, where the claim fails: the error thrown for a busy Worker has the
    code of the error thrown for a Worker that is not ready. *)
Lemma busy_error_has_not_ready_code :
  exists busy_error not_ready_error,
    snd (evaluate (lit "2+2") None None Scenario.busy) = [Threw busy_error]
    /\ snd (evaluate (lit "2+2") None None (new Scenario.opts))
       = [Threw not_ready_error]
    /\ code busy_error = BC_NOT_READY
    /\ code busy_error = code not_ready_error.
Proof. do 2 eexists. repeat split. Qed.

(** The [catch] around [write]: it runs when [write] itself throws.  The
    request just created is rejected with [INTERNAL_ERROR] and its timer
    is cancelled; ready flag and process handle are unchanged, so
    [isAvailable()] is true afterwards and a further [evaluate] is
    accepted. *)
Lemma write_throw_rejects (w : t) (e : jsstring) (tmo : option Z)
    (msg : jsstring) :
  isAvailable w = true -> has_stdin w = true ->
  let r := evaluate e tmo (Some msg) w in
  snd r = [TimerSet (timer_seq w) (default (timeout (options w)) tmo);
           TimerCleared (timer_seq w);
           Rejected (mkError (lit "Failed to write to BC process: " ++ msg)
                       INTERNAL_ERROR)]
  /\ pendingRequest (fst r) = None
  /\ ~ In (timer_seq w) (map fst (timers (fst r)))
  /\ isReady (fst r) = true /\ process (fst r) = process w
  /\ isAvailable (fst r) = true
  /\ forall e' tmo',
       thrown (snd (evaluate e' tmo' None (fst r))) = None
       /\ In (Wrote (e' ++ newline)) (snd (evaluate e' tmo' None (fst r))).
Proof.
  intros Ha Hs r.
  apply isAvailable_spec in Ha as (Hr & Hp & [c Hc]).
  set (w' := mkProcess (Some c) true (currentPrecision w) None [] [] (options w)
               (List.filter (fun x => negb (fst x =? timer_seq w)%nat) (timers w))
               (S (timer_seq w))).
  assert (r = (w', [TimerSet (timer_seq w) (default (timeout (options w)) tmo);
                    TimerCleared (timer_seq w);
                    Rejected (mkError (lit "Failed to write to BC process: " ++ msg)
                                INTERNAL_ERROR)])) as ->.
  { subst r. unfold evaluate, evaluate_for. rewrite Hr, Hp, Hc, Hs. cbn.
    rewrite Nat.eqb_refl. setters. rewrite Hr, Hc. reflexivity. }
  assert (isAvailable w' = true) as Ha' by reflexivity.
  assert (has_stdin w' = true) as Hs'
      by (unfold has_stdin in *; cbn; rewrite Hc in Hs; exact Hs).
  cbn [fst snd]. repeat split; auto.
  - cbn. rewrite in_map_iff. intros [[i ms] [E Hin]].
    apply List.filter_In in Hin as [_ Hf]. simpl in *. subst i.
    rewrite Nat.eqb_refl in Hf. discriminate.
  - destruct (evaluate_accepted w' e' tmo' Ha' Hs') as (-> & _). reflexivity.
  - destruct (evaluate_accepted w' e' tmo' Ha' Hs') as (-> & _). simpl; auto.
Qed.




(** C7, where the claim fails: [kill()] leaves the pending request in
    place; a result line that arrives afterwards resolves it, and the
    Worker is not Ready. *)
Lemma stdout_line_after_kill :
  let r := on_stdout (lit "4" ++ newline) Scenario.killed in
  pendingRequest Scenario.killed = Some (mkPending ToCaller (Some 1%nat))
  /\ snd r = [TimerCleared 1; Resolved (lit "4")]
  /\ pendingRequest (fst r) = None
  /\ isReady (fst r) = false
  /\ isAvailable (fst r) = false.
Proof. cbv zeta. repeat split; vm_compute; reflexivity. Qed.

End Worker.

(** ** What handlers and calls can do to a process *)

Section Evolution.
Import BCProcess.

Lemma settled_app (es1 es2 : list Effect) :
  settled (es1 ++ es2)
  = match settled es1 with Some r => Some r | None => settled es2 end.
Proof.
  induction es1 as [|e es1 IH]; [reflexivity|].
  destruct e; cbn [settled app]; auto.
Qed.

Lemma settled_app_None (es1 es2 : list Effect) :
  settled (es1 ++ es2) = None <-> settled es1 = None /\ settled es2 = None.
Proof.
  rewrite settled_app. destruct (settled es1); intuition congruence.
Qed.

Lemma settled_cleared (p : PendingRequest) (es : list Effect) :
  settled (cleared p ++ es) = settled es.
Proof. unfold cleared. destruct (timer p); reflexivity. Qed.

Lemma evolves_refl (w : t) : evolves w w [].
Proof. unfold evolves. intuition. Qed.

Lemma evolves_same (w : t) (es : list Effect) :
  settled es = None -> evolves w w es.
Proof. unfold evolves. intuition. Qed.

Lemma evolves_trans (w1 w2 w3 : t) (es1 es2 : list Effect) :
  evolves w1 w2 es1 -> evolves w2 w3 es2 -> evolves w1 w3 (es1 ++ es2).
Proof.
  intros (Hp1 & Hq1 & Hd1) (Hp2 & Hq2 & Hd2). split; [|split].
  - rewrite in_app_iff.
    destruct Hp2 as [E2|[E2 S2]]; [rewrite E2|]; intuition.
  - intros pr Hpr Hs. apply settled_app_None in Hs as [Hs1 Hs2].
    destruct (Hq1 pr Hpr Hs1) as [Hpr2 Ht2].
    destruct (Hq2 pr Hpr2 Hs2) as [Hpr3 Ht3]. split; congruence.
  - intros Hd. destruct (Hd1 Hd) as [Hdw2 Hs1].
    destruct (Hd2 Hdw2) as [Hdw3 Hs2]. split; [assumption|].
    apply settled_app_None; auto.
Qed.

Lemma kill_evolves (w : t) : evolves w (fst (kill w)) (snd (kill w)).
Proof.
  unfold kill, evolves, dead.
  destruct (process w) eqn:Hp; cbn; setters; rewrite ?Hp;
    intuition (auto; congruence).
Qed.

Lemma rejectPendingRequest_evolves (e : BCCalculatorError) (w : t) :
  evolves w (fst (rejectPendingRequest e w)) (snd (rejectPendingRequest e w)).
Proof.
  unfold rejectPendingRequest.
  destruct (pendingRequest w) as [p|] eqn:Hp; [|apply evolves_refl].
  unfold clearTimeout, evolves, dead.
  destruct (timer p); cbn; setters; rewrite ?Hp; intuition (auto; congruence).
Qed.

Lemma resolvePendingRequest_evolves (v : jsstring) (w : t) :
  evolves w (fst (resolvePendingRequest v w)) (snd (resolvePendingRequest v w)).
Proof.
  unfold resolvePendingRequest.
  destruct (pendingRequest w) as [p|] eqn:Hp; [|apply evolves_refl].
  unfold clearTimeout, evolves, dead, run_sink.
  destruct (timer p), (resolve p); cbn; setters; rewrite ?Hp;
    intuition (auto; congruence).
Qed.

(** Writing a field other than [process], [pendingRequest] and [timers]. *)
Lemma evolves_frame (w0 w w' : t) (es : list Effect) :
  process w0 = process w -> pendingRequest w0 = pendingRequest w ->
  timers w0 = timers w ->
  evolves w w' es -> evolves w0 w' es.
Proof.
  unfold evolves, dead. intros -> -> ->. auto.
Qed.

Lemma evaluate_for_evolves k e tmo we (w : t) :
  evolves w (fst (evaluate_for k e tmo we w)) (snd (evaluate_for k e tmo we w)).
Proof.
  unfold evaluate_for.
  destruct (negb (isReady w) || negb (present (process w)) || negb (has_stdin w))
    eqn:Hg; [apply evolves_same; reflexivity|].
  destruct (present (pendingRequest w)) eqn:Hq; [apply evolves_same; reflexivity|].
  apply orb_false_iff in Hg as [Hg _]. apply orb_false_iff in Hg as [_ Hg].
  destruct (process w) as [c|] eqn:Hc; [|discriminate].
  destruct (pendingRequest w) eqn:Hp; [discriminate|].
  destruct we as [msg|]; unfold evolves, dead; cbn; setters;
    rewrite ?Nat.eqb_refl, ?Hc, ?Hp; cbn;
    intuition (auto; congruence).
Qed.

Lemma setPrecision_evolves scale we (w : t) :
  evolves w (fst (setPrecision scale we w)) (snd (setPrecision scale we w)).
Proof.
  unfold setPrecision. destruct (_ || _); [apply evolves_same; reflexivity|].
  apply evaluate_for_evolves.
Qed.

Lemma start_ready_evolves we (w : t) :
  evolves w (fst (start_ready we w)) (snd (start_ready we w)).
Proof.
  unfold start_ready.
  eapply evolves_frame; [| | |apply setPrecision_evolves]; reflexivity.
Qed.

Lemma on_timeout_evolves ms (w : t) :
  evolves w (fst (on_timeout ms w)) (snd (on_timeout ms w)).
Proof.
  unfold on_timeout.
  match goal with
  | |- context [rejectPendingRequest ?e w] =>
      pose proof (rejectPendingRequest_evolves e w) as H1;
        destruct (rejectPendingRequest e w) as [w1 e1]
  end.
  pose proof (kill_evolves w1) as H2. destruct (kill w1) as [w2 e2].
  cbn in *. eapply evolves_trans; eassumption.
Qed.

Lemma step_evolves (a : Action) (w : t) :
  evolves w (fst (step a w)) (snd (step a w)).
Proof.
  destruct a; cbn [step].
  - unfold on_stdout. destruct (_ <=? _)%nat.
    + destruct (_ && _).
      * eapply evolves_frame; [| | |apply resolvePendingRequest_evolves]; reflexivity.
      * eapply evolves_frame; [| | |apply evolves_refl]; reflexivity.
    + eapply evolves_frame; [| | |apply evolves_refl]; reflexivity.
  - unfold on_stderr. destruct (_ && _).
    + eapply evolves_frame; [| | |apply rejectPendingRequest_evolves]; reflexivity.
    + eapply evolves_frame; [| | |apply evolves_refl]; reflexivity.
  - unfold on_exit.
    eapply evolves_frame; [| | |apply rejectPendingRequest_evolves]; reflexivity.
  - unfold on_error.
    eapply evolves_frame; [| | |apply rejectPendingRequest_evolves]; reflexivity.
  - destruct (List.find _ _) as [[i ms]|] eqn:Hf; [|apply evolves_refl].
    (* the timeout settles the pending request, if there is one *)
    match goal with
    | |- context [on_timeout ms ?x] =>
        pose proof (on_timeout_evolves ms x) as (Hp & Hq & Hd); set (w1 := x) in *
    end.
    split; [exact Hp|]. split.
    + intros pr Hpr Hs. exfalso.
      unfold on_timeout, rejectPendingRequest in Hs.
      subst w1. cbn [pendingRequest set_timers] in Hs. rewrite Hpr in Hs.
      destruct (clearTimeout _ _) as [w2 e2] eqn:Hc.
      destruct (kill _) as [w3 e3]. cbn [snd] in Hs.
      unfold clearTimeout in Hc. destruct (timer pr); injection Hc as <- <-;
        cbn in Hs; discriminate.
    + intros Hdw. apply Hd. exact Hdw.
  - apply evaluate_for_evolves.
  - apply setPrecision_evolves.
  - apply kill_evolves.
  - apply evolves_refl.
Qed.

Lemma run_evolves (acts : list Action) (w : t) :
  evolves w (fst (run acts w)) (snd (run acts w)).
Proof.
  revert w. induction acts as [|a rest IH]; intros w; [apply evolves_refl|].
  cbn [run]. pose proof (step_evolves a w) as H1.
  destruct (step a w) as [w1 e1]. specialize (IH w1).
  destruct (run rest w1) as [w2 e2]. cbn in *.
  eapply evolves_trans; eassumption.
Qed.

Lemma dead_not_available (w : t) : dead w -> isAvailable w = false.
Proof.
  intros [Hp _]. unfold isAvailable. rewrite Hp. cbn. apply andb_false_r.
Qed.

End Evolution.

(** ** A write that fails *)

Section WriteFailure.
Import BCProcess.

(** A pending request is never rejected with [INTERNAL_ERROR]: that
    error is only made in the [catch] of the [evaluate] that created
    the request. *)
Lemma settle_not_internal (a : Action) (w : t) (p : PendingRequest)
    (e' : BCCalculatorError) :
  pendingRequest w = Some p ->
  settled (snd (step a w)) = Some (inr e') -> code e' <> INTERNAL_ERROR.
Proof.
  intros Hp. destruct a; cbn [step].
  - unfold on_stdout. destruct (_ <=? _)%nat; [|discriminate].
    destruct (_ && _); [|discriminate].
    match goal with |- context [resolvePendingRequest ?v ?x] =>
      destruct (resolvePendingRequest_spec v x p Hp) as (-> & _) end.
    rewrite settled_cleared. discriminate.
  - unfold on_stderr. destruct (_ && _); [|discriminate].
    match goal with |- context [rejectPendingRequest ?v ?x] =>
      destruct (rejectPendingRequest_spec v x p Hp) as (-> & _) end.
    rewrite settled_cleared. intros [= <-]. discriminate.
  - unfold on_exit.
    match goal with |- context [rejectPendingRequest ?v ?x] =>
      destruct (rejectPendingRequest_spec v x p Hp) as (-> & _) end.
    rewrite settled_cleared. intros [= <-]. discriminate.
  - unfold on_error.
    match goal with |- context [rejectPendingRequest ?v ?x] =>
      destruct (rejectPendingRequest_spec v x p Hp) as (-> & _) end.
    rewrite settled_cleared. intros [= <-]. discriminate.
  - destruct (List.find _ _) as [[i ms]|]; [|discriminate]. unfold on_timeout.
    match goal with |- context [rejectPendingRequest ?v ?x] =>
      pose proof (rejectPendingRequest_spec v x p Hp) as (He & _);
      destruct (rejectPendingRequest v x) as [w1 e1] end.
    destruct (kill w1) as [w2 e2]. cbn [fst snd] in *. subst e1.
    rewrite <- app_assoc, settled_cleared. intros [= <-]. discriminate.
  - unfold evaluate, evaluate_for. destruct (_ || _); [discriminate|].
    rewrite Hp. discriminate.
  - unfold setPrecision, evaluate_for. destruct (_ || _); [discriminate|].
    destruct (_ || _); [discriminate|]. rewrite Hp. discriminate.
  - unfold kill. destruct (process w); discriminate.
  - discriminate.
Qed.

Lemma run_settle_not_internal (acts : list Action) : forall (w : t) p e',
  pendingRequest w = Some p ->
  settled (snd (run acts w)) = Some (inr e') -> code e' <> INTERNAL_ERROR.
Proof.
  induction acts as [|a rest IH]; intros w p e' Hp; [discriminate|].
  cbn [run]. pose proof (settle_not_internal a w p e' Hp) as H1.
  pose proof (step_evolves a w) as (_ & Hkeep & _).
  destruct (step a w) as [w1 e1]. cbn [fst snd] in *.
  specialize (IH w1 p e'). destruct (run rest w1) as [w2 e2]. cbn [fst snd] in *.
  rewrite settled_app. destruct (settled e1) as [r|] eqn:Hs.
  - intros [= ->]. apply H1. reflexivity.
  - apply IH. apply (Hkeep p Hp eq_refl).
Qed.

(** C2 (the code at the failing input): an available Worker accepts
    [evaluate]; [write] returns, and the input stream then reports that
    the write failed (its ['error'] event: the pipe is closed).
    [setupHandlers] registers no listener on the input stream, and the
    [catch] around [write] has been left by then.  So the failure
    changes nothing in the Worker: the request is not rejected, it stays
    pending with its deadline armed, the ready flag and the process
    handle are as before and the child is not signalled; the Worker is
    not Dead.  Whatever happens afterwards, if the request is rejected,
    then not with [INTERNAL_ERROR].  (And in the [catch] itself, had
    [write] thrown, the Worker would have stayed available.) *)
Theorem write_failure_goes_unnoticed (w : t) (e : jsstring) (tmo : option Z)
    (msg : jsstring) :
  isAvailable w = true -> has_stdin w = true ->
  let r1 := evaluate e tmo None w in
  let r2 := step (StdinError msg) (fst r1) in
  snd r1 = [TimerSet (timer_seq w) (default (timeout (options w)) tmo);
            Wrote (e ++ newline)]
  /\ r2 = (fst r1, [])
  /\ pendingRequest (fst r2) = Some (mkPending ToCaller (Some (timer_seq w)))
  /\ In (timer_seq w, default (timeout (options w)) tmo) (timers (fst r2))
  /\ isReady (fst r2) = true /\ process (fst r2) = process w
  /\ (forall acts e',
        settled (snd (run acts (fst r2))) = Some (inr e') ->
        code e' <> INTERNAL_ERROR)
  /\ isAvailable (fst (evaluate e tmo (Some msg) w)) = true.
Proof.
  intros Ha Hs r1 r2.
  destruct (evaluate_accepted w e tmo Ha Hs) as (He & Hp & Hpr & Hr).
  fold r1 in He, Hp, Hpr, Hr.
  assert (r2 = (fst r1, [])) as E2 by reflexivity.
  split; [exact He|]. split; [exact E2|]. rewrite E2. cbn [fst].
  split; [exact Hp|].
  split.
  { subst r1. apply isAvailable_spec in Ha as (Hr0 & Hp0 & [c Hc]).
    unfold evaluate, evaluate_for. rewrite Hr0, Hp0, Hc, Hs. cbn. auto. }
  split; [exact Hr|]. split; [exact Hpr|].
  split.
  { intros acts e'. apply (run_settle_not_internal acts _ _ e' Hp). }
  destruct (write_throw_rejects w e tmo msg Ha Hs) as (_ & _ & _ & _ & _ & H & _).
  exact H.
Qed.

Lemma write_failure_goes_unnoticed_witness :
  isAvailable Scenario.ready = true
  /\ step (StdinError (lit "write EPIPE"))
       (fst (evaluate (lit "2+2") None None Scenario.ready))
     = (fst (evaluate (lit "2+2") None None Scenario.ready), [])
  /\ pendingRequest
       (fst (step (StdinError (lit "write EPIPE"))
               (fst (evaluate (lit "2+2") None None Scenario.ready))))
     = Some (mkPending ToCaller (Some (timer_seq Scenario.ready))).
Proof.
  assert (isAvailable Scenario.ready = true) as H1 by (vm_compute; reflexivity).
  assert (has_stdin Scenario.ready = true) as H2 by (vm_compute; reflexivity).
  split; [exact H1|].
  pose proof (write_failure_goes_unnoticed Scenario.ready (lit "2+2") None
                (lit "write EPIPE") H1 H2) as H.
  cbv zeta in H. destruct H as (_ & Ha & Hb & _). split; assumption.
Defined.

End WriteFailure.

(** ** Executions of [start()] *)

Section Start.
Import BCProcess.

Lemma thrown_app (es1 es2 : list Effect) :
  thrown (es1 ++ es2)
  = match thrown es1 with Some r => Some r | None => thrown es2 end.
Proof.
  induction es1 as [|e es1 IH]; [reflexivity|].
  destruct e; cbn [thrown app]; auto.
Qed.

Lemma settled_resolved (es : list Effect) (v : jsstring) :
  settled es = Some (inl v) -> In (Resolved v) es.
Proof.
  induction es as [|e es IH]; [discriminate|].
  destruct e; cbn [settled]; intros H; try (right; auto; fail).
  - injection H as ->. left; reflexivity.
  - discriminate.
Qed.

Lemma idle_not_available (w : t) : idle w -> isAvailable w = false.
Proof. intros [Hr _]. unfold isAvailable. rewrite Hr. reflexivity. Qed.

Lemma pending_not_available (w : t) (p : PendingRequest) :
  pendingRequest w = Some p -> isAvailable w = false.
Proof.
  intros Hp. unfold isAvailable. rewrite Hp. cbn.
  rewrite andb_false_r. reflexivity.
Qed.

(** Nothing but [start] marks a process ready, and an idle process
    accepts nothing. *)
Lemma step_idle (a : Action) (w : t) :
  idle w -> idle (fst (step a w)) /\ settled (snd (step a w)) = None.
Proof.
  intros [Hr Hp]. unfold idle.
  destruct a; cbn [step];
    unfold on_stdout, on_stderr, on_exit, on_error, on_timeout, evaluate,
      setPrecision, evaluate_for, kill, rejectPendingRequest;
    cbn [pendingRequest set_isReady set_errorBuffer set_outputBuffer set_timers];
    rewrite ?Hp, ?Hr; cbn [present andb orb negb].
  - destruct (_ <=? _)%nat; rewrite ?andb_false_r; cbn; auto.
  - rewrite andb_false_r. cbn; auto.
  - cbn; auto.
  - cbn; auto.
  - destruct (List.find _ _) as [[i ms]|]; cbn; rewrite ?Hp; cbn; [|auto].
    destruct (process w); cbn; auto.
  - cbn; auto.
  - destruct (_ || _); cbn; auto.
  - destruct (process w); cbn; auto.
  - cbn; auto.
Qed.

Lemma rejectPendingRequest_options e (w : t) :
  options (fst (rejectPendingRequest e w)) = options w.
Proof.
  unfold rejectPendingRequest, clearTimeout.
  destruct (pendingRequest w) as [p|]; [destruct (timer p)|]; reflexivity.
Qed.

Lemma resolvePendingRequest_options v (w : t) :
  options (fst (resolvePendingRequest v w)) = options w.
Proof.
  unfold resolvePendingRequest, clearTimeout, run_sink.
  destruct (pendingRequest w) as [p|]; [destruct (timer p), (resolve p)|];
    reflexivity.
Qed.

Lemma kill_options (w : t) : options (fst (kill w)) = options w.
Proof. unfold kill. destruct (process w); reflexivity. Qed.

Lemma evaluate_for_options k e tmo we (w : t) :
  options (fst (evaluate_for k e tmo we w)) = options w.
Proof.
  unfold evaluate_for. destruct (_ || _); [reflexivity|].
  destruct (present _); [reflexivity|]. destruct we; [|reflexivity].
  match goal with
  | |- context [rejectPendingRequest ?x ?y] =>
      pose proof (rejectPendingRequest_options x y) as H;
        destruct (rejectPendingRequest x y)
  end. exact H.
Qed.

Lemma step_options (a : Action) (w : t) : options (fst (step a w)) = options w.
Proof.
  destruct a; cbn [step].
  - unfold on_stdout. destruct (_ <=? _)%nat; [|reflexivity].
    destruct (_ && _); [|reflexivity]. rewrite resolvePendingRequest_options.
    reflexivity.
  - unfold on_stderr. destruct (_ && _); [|reflexivity].
    rewrite rejectPendingRequest_options. reflexivity.
  - unfold on_exit. rewrite rejectPendingRequest_options. reflexivity.
  - unfold on_error. rewrite rejectPendingRequest_options. reflexivity.
  - destruct (List.find _ _) as [[i ms]|]; [|reflexivity]. unfold on_timeout.
    match goal with
    | |- context [rejectPendingRequest ?x ?y] =>
        pose proof (rejectPendingRequest_options x y) as H;
          destruct (rejectPendingRequest x y) as [w1 e1]
    end.
    pose proof (kill_options w1) as H2. destruct (kill w1). cbn in *. congruence.
  - apply evaluate_for_options.
  - unfold setPrecision. destruct (_ || _); [reflexivity|].
    apply evaluate_for_options.
  - apply kill_options.
  - reflexivity.
Qed.

Lemma last_cons_default {A} (l : list A) : forall (x d : A),
  List.last (x :: l) d = List.last l x.
Proof.
  induction l as [|y l IH]; intros x d; [reflexivity|].
  change (List.last (x :: y :: l) d) with (List.last (y :: l) d).
  rewrite !IH. reflexivity.
Qed.

Lemma observe_idle (acts : list Action) : forall (o : Observation),
  idle (fst o) ->
  (forall w' done, In (w', done) (observe acts o) -> idle w')
  /\ idle (fst (List.last (observe acts o) o))
  /\ (settled (snd o) = None ->
      settled (snd (List.last (observe acts o) o)) = None)
  /\ exists tail, snd (List.last (observe acts o) o) = snd o ++ tail.
Proof.
  induction acts as [|a rest IH]; intros o Hi.
  - cbn. split; [intros ? ? []|]. split; [exact Hi|]. split; [auto|].
    exists []. symmetry. apply app_nil_r.
  - cbn [observe]. destruct (step_idle a (fst o) Hi) as [Hi1 Hs1].
    destruct (step a (fst o)) as [w1 e1]. cbn [fst snd] in Hi1, Hs1.
    destruct (IH (w1, snd o ++ e1) Hi1) as (Hall & Hlast & Hset & [tail Htail]).
    rewrite last_cons_default. split; [|split; [|split]].
    + intros w' done [E|Hin]; [injection E as <- _; exact Hi1 | eauto].
    + exact Hlast.
    + intros Hs. apply Hset. cbn. apply settled_app_None. auto.
    + exists (e1 ++ tail). rewrite Htail. cbn. symmetry. apply app_assoc.
Qed.

Lemma observe_options (acts : list Action) : forall (x : Observation),
  options (fst (List.last (observe acts x) x)) = options (fst x).
Proof.
  induction acts as [|a rest IH]; intros x; [reflexivity|].
  cbn [observe]. pose proof (step_options a (fst x)) as Ho.
  destruct (step a (fst x)) as [w1 e1]. rewrite last_cons_default, IH.
  exact Ho.
Qed.

(** While a request is pending, [await] shows either that request still
    pending, or the step that settled it. *)
Lemma await_spec (acts : list Action) : forall (o : Observation) pr,
  pendingRequest (fst o) = Some pr ->
  forall w' done, In (w', done) (fst (await acts o)) ->
    pendingRequest w' = Some pr
    \/ exists res tail, snd (await acts o) = Some res
                        /\ done = snd o ++ tail /\ settled tail = Some res.
Proof.
  induction acts as [|a rest IH]; intros o pr Hp w' done; [intros []|].
  cbn [await]. pose proof (step_evolves a (fst o)) as (_ & Hq & _).
  destruct (step a (fst o)) as [w1 e1]. cbn [fst snd] in Hq.
  destruct (settled e1) as [res|] eqn:Hs.
  - cbn. intros [E|[]]. injection E as <- <-. right. eauto.
  - destruct (Hq pr Hp eq_refl) as [Hp1 _].
    specialize (IH (w1, snd o ++ e1) pr Hp1 w' done).
    destruct (await rest (w1, snd o ++ e1)) as [obs r]. cbn [fst snd] in *.
    intros [E|Hin]; [injection E as <- <-; auto|].
    destruct (IH Hin) as [H|(res & tail & -> & -> & Ht)]; [auto|].
    right. exists res, (e1 ++ tail). rewrite settled_app, Hs, app_assoc. auto.
Qed.

(** [start_ready] on an idle object: it fails at once, or the precision
    statement is written and its request is pending. *)
Lemma start_ready_idle (we : option jsstring) (w : t) :
  idle w ->
  (exists e, failed_early (snd (start_ready we w)) = Some e)
  \/ (failed_early (snd (start_ready we w)) = None
      /\ (exists pr, pendingRequest (fst (start_ready we w)) = Some pr)
      /\ settled (snd (start_ready we w)) = None
      /\ In (Wrote (lit "scale=" ++ printed (precision (options w)) ++ newline))
           (snd (start_ready we w))).
Proof.
  intros [Hr Hp]. unfold start_ready, setPrecision, evaluate_for.
  destruct (_ || _); [left; cbn; eauto|].
  cbn [isReady set_isReady process pendingRequest has_stdin negb orb].
  rewrite Hp. cbn [present].
  destruct (negb (present (process w)) || negb _); [left; cbn; eauto|].
  destruct we as [msg|].
  - left. cbn. eauto.
  - right. cbn. rewrite <- app_assoc. eauto 10.
Qed.

(** C4, as the code has it: [start()] sets the ready flag first and then sends the
    default precision as an ordinary request (the comment in the source:
    "Mark as ready before setting precision"); while that request is
    pending [isAvailable()] is false.  So at every point of an execution
    of [start()] on a new object at which the Worker is observable as
    available, either the statement [scale=<default>] has been written to
    the engine and answered with a result line and [start()] returns, or
    [start()] fails with a spawn error. *)
Theorem start_available_after_precision
    (o : BCProcessOptions) (sc : StartScript) (w' : t) (done : list Effect) :
  In (w', done) (fst (start sc (new o))) ->
  isAvailable w' = true ->
  (snd (start sc (new o)) = Some None
   /\ (exists v, In (Resolved v) done)
   /\ In (Wrote (lit "scale=" ++ printed (precision o) ++ newline)) done)
  \/ (exists e, snd (start sc (new o)) = Some (Some e) /\ code e = BC_SPAWN_ERROR).
Proof.
  unfold start, start_spawn.
  destruct (spawned sc) as [child|msg].
  2:{ cbn. intros [E|[]]. injection E as <- _. discriminate. }
  set (o1 := (set_process (Some child) (new o), [Spawned child])).
  assert (idle (fst o1)) as Hi1 by (split; reflexivity).
  destruct (observe_idle (during_delay sc) o1 Hi1) as (Hdelay & Hi2 & _ & _).
  assert (forall x y, In (x, y) (o1 :: observe (during_delay sc) o1) ->
                      isAvailable x = false) as Hidle.
  { intros x y [E|Hin]; apply idle_not_available;
      [subst o1; injection E as <- _; exact Hi1 | eauto]. }
  set (o2 := List.last (observe (during_delay sc) o1) o1) in *.
  destruct (start_ready_idle (write_error sc) (fst o2) Hi2)
    as [[e He]|(He & [pr Hpr] & _ & Hw)].
  - destruct (start_ready (write_error sc) (fst o2)) as [w3 e3]. cbn [snd] in He.
    rewrite He. cbn [fst snd]. intros Hin Hav. right.
    exists (spawn_error (message e)). split; [reflexivity | reflexivity].
  - assert (options (fst o2) = o) as Hopts
        by (subst o2; rewrite observe_options; reflexivity).
    rewrite Hopts in Hw.
    destruct (start_ready (write_error sc) (fst o2)) as [w3 e3]. cbn [fst snd] in *.
    rewrite He.
    pose proof (await_spec (during_precision sc) (w3, snd o2 ++ e3) pr Hpr) as Haw.
    destruct (await (during_precision sc) (w3, snd o2 ++ e3)) as [obs r].
    cbn [fst snd] in *. intros Hin Hav.
    rewrite app_comm_cons in Hin. apply in_app_iff in Hin as [Hin|[E|Hin]].
    + rewrite (Hidle _ _ Hin) in Hav. discriminate.
    + injection E as <- _. rewrite (pending_not_available _ _ Hpr) in Hav.
      discriminate.
    + destruct (Haw w' done Hin) as [H|(res & tail & -> & -> & Ht)].
      * rewrite (pending_not_available _ _ H) in Hav. discriminate.
      * destruct res as [v|e]; cbn [option_map start_finish].
        -- left. split; [reflexivity|]. split.
           ++ exists v. rewrite !in_app_iff. right. apply settled_resolved, Ht.
           ++ rewrite !in_app_iff. left. right. exact Hw.
        -- right. exists (spawn_error (message e)).
           split; [reflexivity | reflexivity].
Qed.

Lemma start_available_after_precision_witness :
  let sc := mkScript (inl Scenario.child) [] None
              [StdoutData (lit "0" ++ newline)] in
  let done := [Spawned Scenario.child; TimerSet 0 30000;
               Wrote (lit "scale=20" ++ newline); TimerCleared 0;
               Resolved (lit "0")] in
  In (Scenario.ready, done) (fst (start sc (new Scenario.opts)))
  /\ isAvailable Scenario.ready = true
  /\ ((snd (start sc (new Scenario.opts)) = Some None
       /\ (exists v, In (Resolved v) done)
       /\ In (Wrote (lit "scale=" ++ printed (precision Scenario.opts)
                     ++ newline)) done)
      \/ (exists e, snd (start sc (new Scenario.opts)) = Some (Some e)
                    /\ code e = BC_SPAWN_ERROR)).
Proof.
  intros sc done.
  assert (In (Scenario.ready, done) (fst (start sc (new Scenario.opts)))) as H1
      by (vm_compute; auto).
  assert (isAvailable Scenario.ready = true) as H2 by (vm_compute; reflexivity).
  split; [exact H1|]. split; [exact H2|].
  exact (start_available_after_precision Scenario.opts sc Scenario.ready done H1 H2).
Defined.

(** C4, where the claim fails: the engine answers the precision statement
    with error text; the Worker is available, the precision was not
    applied, and [start()] throws.  Also, the ready flag is already set
    while the precision request is pending. *)
Lemma start_ready_without_precision :
  let sc := mkScript (inl Scenario.child) [] None
              [StderrData (lit "(standard_in) 1: syntax error" ++ newline)] in
  exists w' done e,
    In (w', done) (fst (start sc (new Scenario.opts)))
    /\ isAvailable w' = true
    /\ (forall v, ~ In (Resolved v) done)
    /\ settled done = Some (inr e) /\ code e = BC_RUNTIME_ERROR
    /\ snd (start sc (new Scenario.opts))
       = Some (Some (spawn_error (message e)))
    (* and the ready flag was set when the statement was sent *)
    /\ isReady Scenario.starting = true
    /\ In (Scenario.starting,
           [Spawned Scenario.child; TimerSet 0 30000;
            Wrote (lit "scale=20" ++ newline)])
         (fst (start sc (new Scenario.opts))).
Proof.
  cbv zeta.
  exists (fst (step (StderrData (lit "(standard_in) 1: syntax error" ++ newline))
                 Scenario.starting)).
  exists [Spawned Scenario.child; TimerSet 0 30000;
          Wrote (lit "scale=20" ++ newline); TimerCleared 0;
          Rejected (mkError (lit "BC error: (standard_in) 1: syntax error")
                      BC_RUNTIME_ERROR)].
  exists (mkError (lit "BC error: (standard_in) 1: syntax error") BC_RUNTIME_ERROR).
  split; [vm_compute; auto|].
  split; [vm_compute; reflexivity|].
  split; [intros v H; vm_compute in H; intuition discriminate|].
  split; [vm_compute; reflexivity|].
  split; [reflexivity|].
  split; [vm_compute; reflexivity|].
  split; [vm_compute; reflexivity|].
  vm_compute; auto.
Qed.

End Start.

(** ** The pool *)

Section Pool.
Import BCProcessPool.

Lemma of_process_app p (es1 es2 : list Effect) :
  of_process p (es1 ++ es2) = of_process p es1 ++ of_process p es2.
Proof.
  induction es1 as [|e es1 IH]; [reflexivity|].
  destruct e as [q e| | | |]; cbn [of_process app]; auto.
  destruct (q =? p)%nat; cbn; congruence.
Qed.

Lemma of_process_same p (es : list BCProcess.Effect) :
  of_process p (map (OfProcess p) es) = es.
Proof.
  induction es as [|e es IH]; [reflexivity|].
  cbn. rewrite Nat.eqb_refl, IH. reflexivity.
Qed.

Lemma of_process_other p q (es : list BCProcess.Effect) :
  q <> p -> of_process p (map (OfProcess q) es) = [].
Proof.
  intros Hne. induction es as [|e es IH]; [reflexivity|].
  cbn. apply Nat.eqb_neq in Hne. rewrite Hne. exact IH.
Qed.

Lemma not_returned_map p q (es : list BCProcess.Effect) c :
  ~ In (AcquireReturned c p) (map (OfProcess q) es).
Proof. rewrite in_map_iff. intros [e [E _]]. discriminate. Qed.

Lemma keeps_trans p s1 s2 s3 es1 es2 :
  keeps p s1 s2 es1 -> keeps p s2 s3 es2 -> keeps p s1 s3 (es1 ++ es2).
Proof.
  intros H1 H2 w Hw. destruct (H1 w Hw) as (w2 & Hw2 & He1 & Hr1).
  destruct (H2 w2 Hw2) as (w3 & Hw3 & He2 & Hr2).
  exists w3. split; [exact Hw3|]. split.
  - rewrite of_process_app. eapply evolves_trans; eassumption.
  - intros Hd c Hin. apply in_app_iff in Hin as [Hin|Hin].
    + exact (Hr1 Hd c Hin).
    + destruct He1 as (_ & _ & Hd1). exact (Hr2 (proj1 (Hd1 Hd)) c Hin).
Qed.

(** An operation that leaves the heap alone and only reports results
    other than handing out [p]. *)
Lemma keeps_heap p s s' es :
  heap s' = heap s -> of_process p es = [] ->
  (forall c, ~ In (AcquireReturned c p) es) ->
  keeps p s s' es.
Proof.
  intros Hh He Hr w Hw. exists w. rewrite Hh, He.
  split; [exact Hw|]. split; [apply evolves_refl | auto].
Qed.

Lemma keeps_refl p s : keeps p s s [].
Proof. apply keeps_heap; auto. Qed.

(** An operation on the object [q] of the heap. *)
Lemma keeps_update p q s (w1 : BCProcess.t) (es : list BCProcess.Effect) wq :
  heap s !! q = Some wq -> evolves wq w1 es ->
  keeps p s (set_heap (<[q := w1]> (heap s)) s) (map (OfProcess q) es).
Proof.
  intros Hq He w Hw. cbn [heap set_heap].
  destruct (Nat.eq_dec q p) as [->|Hne].
  - exists w1. rewrite list_lookup_insert_eq by (eapply lookup_lt_Some; eauto).
    rewrite of_process_same. replace w with wq by congruence.
    split; [reflexivity|]. split; [exact He|].
    intros _ c. apply not_returned_map.
  - exists w. rewrite list_lookup_insert_ne by exact Hne.
    rewrite of_process_other by exact Hne.
    split; [exact Hw|]. split; [apply evolves_refl|].
    intros _ c. apply not_returned_map.
Qed.

Lemma kill_at_keeps p q s :
  keeps p s (fst (kill_at q s)) (snd (kill_at q s)).
Proof.
  unfold kill_at. destruct (heap s !! q) as [wq|] eqn:Hq; [|apply keeps_refl].
  pose proof (kill_evolves wq) as He. destruct (BCProcess.kill wq) as [w1 es].
  cbn [fst snd] in *. eapply keeps_update; eauto.
Qed.

Lemma kill_all_keeps p ps : forall s,
  keeps p s (fst (kill_all ps s)) (snd (kill_all ps s)).
Proof.
  induction ps as [|q ps IH]; intros s; [apply keeps_refl|].
  cbn [kill_all]. pose proof (kill_at_keeps p q s) as H1.
  destruct (kill_at q s) as [s1 e1]. specialize (IH s1).
  destruct (kill_all ps s1) as [s2 e2]. cbn [fst snd] in *.
  eapply keeps_trans; eassumption.
Qed.

Lemma keeps_then p s s1 s2 es :
  keeps p s s1 es -> heap s2 = heap s1 -> keeps p s s2 es.
Proof.
  intros H Hh w Hw. destruct (H w Hw) as (w' & Hw' & He).
  exists w'. rewrite Hh. auto.
Qed.

Lemma keeps_from p s0 s s' es :
  heap s = heap s0 -> keeps p s s' es -> keeps p s0 s' es.
Proof. intros Hh H w Hw. apply H. rewrite Hh. exact Hw. Qed.

Lemma shutdown_keeps p s : keeps p s (fst (shutdown s)) (snd (shutdown s)).
Proof.
  unfold shutdown. pose proof (kill_all_keeps p (processes s) s) as H.
  destruct (kill_all (processes s) s) as [s1 es]. cbn [fst snd] in *.
  eapply keeps_then; [exact H | reflexivity].
Qed.

Lemma createProcess_keeps p idx by_ spawned s :
  keeps p s (fst (fst (createProcess idx by_ spawned s)))
    (snd (fst (createProcess idx by_ spawned s))).
Proof.
  unfold createProcess, BCProcess.start_spawn.
  destruct spawned as [child|msg]; cbn [fst snd]; intros w Hw;
    exists w; cbn [heap set_heap set_creating];
    (split; [apply lookup_app_l_Some; exact Hw|]);
    rewrite of_process_other
      by (apply lookup_lt_Some in Hw; lia);
    (split; [apply evolves_refl | intros _ c; apply not_returned_map]).
Qed.

Lemma create_failed_keeps p by_ e s :
  keeps p s (fst (create_failed by_ e s)) (snd (create_failed by_ e s)).
Proof.
  unfold create_failed. destruct by_ as [c|c|].
  - destruct (assoc c (initializing s)); [|apply keeps_refl].
    match goal with
    | |- context [shutdown ?x] =>
        pose proof (shutdown_keeps p x) as H; destruct (shutdown x) as [s1 es]
    end.
    cbn [fst snd] in *. eapply keeps_from; [|eapply keeps_trans; [exact H|]].
    + reflexivity.
    + apply keeps_heap; [reflexivity | reflexivity|].
      intros c' [E|[]]. discriminate.
  - apply keeps_heap; [reflexivity | reflexivity|].
    intros c' [E|[]]. discriminate.
  - apply keeps_refl.
Qed.

Lemma create_failed_all_keeps p by_ errs : forall s,
  keeps p s (fst (create_failed_all by_ errs s)) (snd (create_failed_all by_ errs s)).
Proof.
  induction errs as [|e errs IH]; intros s; [apply keeps_refl|].
  cbn [create_failed_all]. pose proof (create_failed_keeps p by_ e s) as H1.
  destruct (create_failed by_ e s) as [s1 e1]. specialize (IH s1).
  destruct (create_failed_all by_ errs s1) as [s2 e2]. cbn [fst snd] in *.
  eapply keeps_trans; eassumption.
Qed.

Lemma create_loop_keeps p c n : forall i spawns s,
  keeps p s (fst (fst (create_loop c n i spawns s)))
    (snd (fst (create_loop c n i spawns s))).
Proof.
  induction n as [|n IH]; intros i spawns s; [apply keeps_refl|].
  cbn [create_loop].
  pose proof (createProcess_keeps p (Some i) (ByInitialize c) (spawns i) s) as H1.
  destruct (createProcess (Some i) (ByInitialize c) (spawns i) s) as [[s1 e1] f].
  specialize (IH (S i) spawns s1).
  destruct (create_loop c n (S i) spawns s1) as [[s2 e2] errs].
  cbn [fst snd] in *. eapply keeps_trans; eassumption.
Qed.

Lemma initialize_keeps p spawns s :
  keeps p s (fst (initialize spawns s)) (snd (initialize spawns s)).
Proof.
  unfold initialize. destruct (isInitialized s).
  - apply keeps_heap; [reflexivity | reflexivity|]. intros c [E|[]]. discriminate.
  - destruct (poolSize (config s)) as [|n] eqn:Hn.
    + apply keeps_heap; [reflexivity | reflexivity|]. intros c [E|[]]. discriminate.
    + match goal with
      | |- context [create_loop ?c ?n ?i ?sp ?x] =>
          pose proof (create_loop_keeps p c n i sp x) as H1;
            destruct (create_loop c n i sp x) as [[s1 e1] errs]
      end.
      pose proof (create_failed_all_keeps p (ByInitialize (calls s)) errs s1) as H2.
      destruct (create_failed_all _ errs s1) as [s2 e2]. cbn [fst snd] in *.
      eapply keeps_from; [|eapply keeps_trans; eassumption]. reflexivity.
Qed.

Lemma take_keeps p c spawned s :
  keeps p s (fst (take c spawned s)) (snd (take c spawned s)).
Proof.
  unfold take. destruct (availableProcesses s) as [|q rest].
  - apply keeps_heap; [reflexivity | reflexivity|]. intros c' [E|[]]. discriminate.
  - destruct (available_at q _) eqn:Hav; cbn [negb].
    + intros w Hw. exists w. cbn [fst snd heap set_availableProcesses of_process].
      split; [exact Hw|]. split; [apply evolves_refl|].
      intros Hd c' [E|[]]. injection E as _ ->.
      unfold available_at in Hav. cbn [heap set_availableProcesses] in Hav.
      rewrite Hw, (dead_not_available w Hd) in Hav. discriminate.
    + match goal with
      | |- context [kill_at q ?x] =>
          pose proof (kill_at_keeps p q x) as H1; destruct (kill_at q x) as [s2 e2]
      end.
      pose proof (createProcess_keeps p None (ByAcquire c) spawned s2) as H2.
      destruct (createProcess None (ByAcquire c) spawned s2) as [[s3 e3] f].
      cbn [fst snd] in *.
      eapply keeps_from; [reflexivity|].
      destruct f as [e|]; cbn [fst snd].
      * eapply keeps_trans; [exact H1|]. eapply keeps_trans; [exact H2|].
        apply keeps_heap; [reflexivity | reflexivity|].
        intros c' [E|[]]. discriminate.
      * eapply keeps_trans; eassumption.
Qed.

Lemma poll_keeps p c waited spawned s :
  keeps p s (fst (poll c waited spawned s)) (snd (poll c waited spawned s)).
Proof.
  unfold poll. destruct (_ && _); [|apply take_keeps].
  apply keeps_heap; [reflexivity | reflexivity | intros c' []].
Qed.

Lemma acquireProcess_keeps p spawned s :
  keeps p s (fst (acquireProcess spawned s)) (snd (acquireProcess spawned s)).
Proof.
  unfold acquireProcess. destruct (isInitialized s); cbn [negb].
  - eapply keeps_from; [|apply poll_keeps]. reflexivity.
  - apply keeps_heap; [reflexivity | reflexivity|]. intros c' [E|[]]. discriminate.
Qed.

Lemma wake_keeps p c spawned s :
  keeps p s (fst (wake c spawned s)) (snd (wake c spawned s)).
Proof.
  unfold wake. destruct (assoc c (waiting s)); [|apply keeps_refl].
  eapply keeps_from; [|apply poll_keeps]. reflexivity.
Qed.

Lemma releaseProcess_keeps p q spawned s :
  keeps p s (fst (releaseProcess q spawned s)) (snd (releaseProcess q spawned s)).
Proof.
  unfold releaseProcess. destruct (includes q (processes s)); cbn [negb];
    [|apply keeps_refl].
  destruct (available_at q s).
  - destruct (includes q (availableProcesses s)); cbn [negb]; [apply keeps_refl|].
    apply keeps_heap; [reflexivity | reflexivity | intros c' []].
  - match goal with
    | |- context [kill_at q ?x] =>
        pose proof (kill_at_keeps p q x) as H1; destruct (kill_at q x) as [s2 e2]
    end.
    pose proof (createProcess_keeps p None ByRelease spawned s2) as H2.
    destruct (createProcess None ByRelease spawned s2) as [[s3 e3] f].
    cbn [fst snd] in *.
    eapply keeps_from; [|eapply keeps_trans; eassumption]. reflexivity.
Qed.

Lemma delay_elapsed_keeps p q we s :
  keeps p s (fst (delay_elapsed q we s)) (snd (delay_elapsed q we s)).
Proof.
  unfold delay_elapsed. destruct (task_of q Delay s) as [tk|]; [|apply keeps_refl].
  destruct (heap s !! q) as [wq|] eqn:Hq; [|apply keeps_refl].
  pose proof (start_ready_evolves we wq) as He.
  destruct (BCProcess.start_ready we wq) as [w1 es]. cbn [fst snd] in He.
  pose proof (keeps_update p q s w1 es wq Hq He) as H1.
  destruct (BCProcess.failed_early es) as [e|].
  - match goal with
    | |- context [create_failed ?b ?e ?x] =>
        pose proof (create_failed_keeps p b e x) as H2;
          destruct (create_failed b e x) as [s2 e2]
    end.
    cbn [fst snd] in *. eapply keeps_trans; [exact H1|].
    eapply keeps_from; [|exact H2]. reflexivity.
  - cbn [fst snd]. eapply keeps_then; [exact H1|]. reflexivity.
Qed.

Lemma task_of_proc q ph s tk : task_of q ph s = Some tk -> proc tk = q.
Proof.
  unfold task_of. intros H. apply find_some in H as [_ H].
  apply andb_true_iff in H as [H _]. apply Nat.eqb_eq, H.
Qed.

Lemma created_keeps p tk s :
  proc tk <> p -> keeps p s (fst (created tk s)) (snd (created tk s)).
Proof.
  intros Hne. unfold created. destruct (caller tk) as [c|c|].
  - destruct (assoc c _) as [[|[|k]]|]; cbn [fst snd];
      (apply keeps_heap; [reflexivity | reflexivity|]);
      intros c' Hin; cbn in Hin; intuition discriminate.
  - apply keeps_heap; [reflexivity | reflexivity|].
    intros c' [E|[]]. injection E as _ E. contradiction.
  - apply keeps_heap; [reflexivity | reflexivity | intros c' []].
Qed.

Lemma on_process_keeps p q a s :
  keeps p s (fst (on_process q a s)) (snd (on_process q a s)).
Proof.
  unfold on_process. destruct (heap s !! q) as [wq|] eqn:Hq; [|apply keeps_refl].
  pose proof (step_evolves a wq) as He.
  destruct (BCProcess.step a wq) as [w1 es]. cbn [fst snd] in He.
  pose proof (keeps_update p q s w1 es wq Hq He) as H1.
  destruct (task_of q Precision s) as [tk|] eqn:Htk; [|exact H1].
  apply task_of_proc in Htk.
  destruct (BCProcess.settled es) as [[v|e]|] eqn:Hs; [| |exact H1].
  - destruct (Nat.eq_dec q p) as [->|Hne].
    + (* a dead object settles nothing *)
      intros w Hw. replace wq with w in * by congruence.
      match goal with
      | |- context [created tk ?x] => destruct (created tk x) as [s2 e2] eqn:Hc
      end.
      cbn [fst snd].
      unfold created in Hc. cbn [heap] in Hc.
      assert (heap s2 = <[p := w1]> (heap s)) as Hh.
      { destruct (caller tk); [destruct (assoc _ _) as [[|[|k]]|]| |];
          injection Hc as <- _; reflexivity. }
      exists w1. rewrite Hh.
      rewrite list_lookup_insert_eq by (eapply lookup_lt_Some; eauto).
      split; [reflexivity|]. rewrite of_process_app, of_process_same.
      assert (of_process p e2 = []) as ->.
      { destruct (caller tk); [destruct (assoc _ _) as [[|[|k]]|]| |];
          injection Hc as _ <-; reflexivity. }
      rewrite app_nil_r. split; [exact He|].
      intros Hd. destruct He as (_ & _ & Hdd).
      destruct (Hdd Hd) as [_ Hn]. congruence.
    + match goal with
      | |- context [created tk ?x] =>
          pose proof (created_keeps p tk x) as H2;
            destruct (created tk x) as [s2 e2]
      end.
      cbn [fst snd] in *. eapply keeps_trans; [exact H1|].
      eapply keeps_from; [|apply H2; congruence]. reflexivity.
  - match goal with
    | |- context [create_failed ?b ?e ?x] =>
        pose proof (create_failed_keeps p b e x) as H2;
          destruct (create_failed b e x) as [s2 e2]
    end.
    cbn [fst snd] in *. eapply keeps_trans; [exact H1|].
    eapply keeps_from; [|exact H2]. reflexivity.
Qed.

Lemma step_keeps p a s : keeps p s (fst (step a s)) (snd (step a s)).
Proof.
  destruct a; cbn [step].
  - apply initialize_keeps.
  - apply acquireProcess_keeps.
  - apply wake_keeps.
  - apply releaseProcess_keeps.
  - apply shutdown_keeps.
  - apply delay_elapsed_keeps.
  - apply on_process_keeps.
Qed.

Lemma run_keeps p acts : forall s, keeps p s (fst (run acts s)) (snd (run acts s)).
Proof.
  induction acts as [|a rest IH]; intros s; [apply keeps_refl|].
  cbn [run]. pose proof (step_keeps p a s) as H1.
  destruct (step a s) as [s1 e1]. specialize (IH s1).
  destruct (run rest s1) as [s2 e2]. cbn [fst snd] in *.
  eapply keeps_trans; eassumption.
Qed.

End Pool.

Section Armed.
Import BCProcess.

Lemma clearTimeout_arms tm (w : t) id ms :
  ~ In (TimerSet id ms) (snd (clearTimeout tm w)).
Proof. destruct tm; cbn; intuition discriminate. Qed.

Lemma rejectPendingRequest_arms e (w : t) id ms :
  ~ In (TimerSet id ms) (snd (rejectPendingRequest e w)).
Proof.
  unfold rejectPendingRequest, clearTimeout.
  destruct (pendingRequest w) as [p|]; [destruct (timer p)|]; cbn;
    intuition discriminate.
Qed.

Lemma resolvePendingRequest_arms v (w : t) id ms :
  ~ In (TimerSet id ms) (snd (resolvePendingRequest v w)).
Proof.
  unfold resolvePendingRequest, clearTimeout.
  destruct (pendingRequest w) as [p|]; [destruct (timer p)|]; cbn;
    intuition discriminate.
Qed.

Lemma kill_arms (w : t) id ms : ~ In (TimerSet id ms) (snd (kill w)).
Proof. unfold kill. destruct (process w); cbn; intuition discriminate. Qed.

(** A timer is armed only by an accepted [evaluate]; if the write did not
    fail, the request is then pending with that timer. *)
Lemma evaluate_for_armed k e tmo we (w : t) id ms :
  In (TimerSet id ms) (snd (evaluate_for k e tmo we w)) ->
  settled (snd (evaluate_for k e tmo we w)) = None ->
  pendingRequest (fst (evaluate_for k e tmo we w)) = Some (mkPending k (Some id))
  /\ timers (fst (evaluate_for k e tmo we w)) = (id, ms) :: timers w
  /\ process (fst (evaluate_for k e tmo we w)) = process w
  /\ is_Some (process w).
Proof.
  unfold evaluate_for.
  destruct (negb (isReady w) || negb (present (process w)) || negb (has_stdin w))
    eqn:Hg; [cbn; intuition discriminate|].
  destruct (present (pendingRequest w)); [cbn; intuition discriminate|].
  apply orb_false_iff in Hg as [Hg _]. apply orb_false_iff in Hg as [_ Hg].
  destruct (process w) as [c|] eqn:Hc; [|discriminate].
  destruct we as [msg|].
  - cbn. rewrite Nat.eqb_refl. cbn. intros _ H. discriminate.
  - cbn. intros [E|[E|[]]] _; [|discriminate]. injection E as <- <-.
    rewrite Hc. eauto.
Qed.

Lemma step_armed (a : Action) (w : t) id ms :
  In (TimerSet id ms) (snd (step a w)) ->
  settled (snd (step a w)) = None ->
  (exists k, pendingRequest (fst (step a w)) = Some (mkPending k (Some id)))
  /\ timers (fst (step a w)) = (id, ms) :: timers w
  /\ process (fst (step a w)) = process w
  /\ is_Some (process w).
Proof.
  destruct a; cbn [step].
  - unfold on_stdout. destruct (_ <=? _)%nat; [|intros []].
    destruct (_ && _); [|intros []].
    intros H. destruct (resolvePendingRequest_arms _ _ _ _ H).
  - unfold on_stderr. destruct (_ && _); [|intros []].
    intros H. destruct (rejectPendingRequest_arms _ _ _ _ H).
  - intros H. destruct (rejectPendingRequest_arms _ _ _ _ H).
  - intros H. destruct (rejectPendingRequest_arms _ _ _ _ H).
  - destruct (List.find _ _) as [[i t0]|]; [|intros []]. unfold on_timeout.
    match goal with
    | |- context [rejectPendingRequest ?x ?y] =>
        pose proof (rejectPendingRequest_arms x y id ms) as H1;
          destruct (rejectPendingRequest x y) as [w1 e1]
    end.
    pose proof (kill_arms w1 id ms) as H2. destruct (kill w1) as [w2 e2].
    cbn [fst snd] in *. intros H. apply in_app_iff in H. tauto.
  - intros H1 H2. destruct (evaluate_for_armed _ _ _ _ _ _ _ H1 H2) as (? & ? & ? & ?).
    eauto 10.
  - unfold setPrecision. destruct (_ || _); [cbn; intuition discriminate|].
    intros H1 H2. destruct (evaluate_for_armed _ _ _ _ _ _ _ H1 H2) as (? & ? & ? & ?).
    eauto 10.
  - intros H. destruct (kill_arms _ _ _ H).
  - intros [].
Qed.

Lemma start_ready_armed we (w : t) id ms :
  In (TimerSet id ms) (snd (start_ready we w)) ->
  settled (snd (start_ready we w)) = None ->
  (exists k, pendingRequest (fst (start_ready we w)) = Some (mkPending k (Some id)))
  /\ timers (fst (start_ready we w)) = (id, ms) :: timers w
  /\ process (fst (start_ready we w)) = process w
  /\ is_Some (process w)
  /\ failed_early (snd (start_ready we w)) = None.
Proof.
  unfold start_ready, setPrecision. destruct (_ || _); [cbn; intuition discriminate|].
  intros H1 H2. destruct (evaluate_for_armed _ _ _ _ _ _ _ H1 H2) as (? & ? & ? & ?).
  repeat split; eauto.
  revert H1 H2. unfold evaluate_for.
  destruct (_ || _); [cbn; intuition discriminate|].
  destruct (present _); [cbn; intuition discriminate|].
  destruct we; cbn; [|reflexivity].
  intros _ Hs. rewrite ?Nat.eqb_refl in Hs. cbn in Hs. discriminate.
Qed.

End Armed.

Section Quiet.
Import BCProcessPool.

Lemma arms_none_nil : arms_none [].
Proof. intros p id ms []. Qed.

Lemma arms_none_app es1 es2 :
  arms_none es1 -> arms_none es2 -> arms_none (es1 ++ es2).
Proof. intros H1 H2 p id ms H. apply in_app_iff in H as [H|H]; [eapply H1 | eapply H2]; eauto. Qed.

Lemma arms_none_map q (es : list BCProcess.Effect) :
  (forall id ms, ~ In (BCProcess.TimerSet id ms) es) ->
  arms_none (map (OfProcess q) es).
Proof.
  intros H p id ms Hin. apply in_map_iff in Hin as [e [E Hin]].
  injection E as _ ->. exact (H id ms Hin).
Qed.

Lemma arms_none_result (e : Effect) :
  (forall p x, e <> OfProcess p x) -> arms_none [e].
Proof. intros H p id ms [E|[]]. exact (H _ _ E). Qed.

Lemma kill_at_quiet q s : arms_none (snd (kill_at q s)).
Proof.
  unfold kill_at. destruct (heap s !! q) as [w|]; [|apply arms_none_nil].
  pose proof (kill_arms w) as H. destruct (BCProcess.kill w) as [w1 es].
  apply arms_none_map. exact H.
Qed.

Lemma kill_all_quiet ps : forall s, arms_none (snd (kill_all ps s)).
Proof.
  induction ps as [|q ps IH]; intros s; [apply arms_none_nil|].
  cbn [kill_all]. pose proof (kill_at_quiet q s) as H1.
  destruct (kill_at q s) as [s1 e1]. specialize (IH s1).
  destruct (kill_all ps s1) as [s2 e2]. apply arms_none_app; assumption.
Qed.

Lemma shutdown_quiet s : arms_none (snd (shutdown s)).
Proof.
  unfold shutdown. pose proof (kill_all_quiet (processes s) s) as H.
  destruct (kill_all (processes s) s). exact H.
Qed.

Lemma createProcess_quiet idx by_ spawned s :
  arms_none (snd (fst (createProcess idx by_ spawned s))).
Proof.
  unfold createProcess, BCProcess.start_spawn.
  destruct spawned; cbn [fst snd map]; [|apply arms_none_nil].
  intros p id ms [E|[]]. discriminate.
Qed.

Lemma create_failed_quiet by_ e s : arms_none (snd (create_failed by_ e s)).
Proof.
  unfold create_failed. destruct by_ as [c|c|]; [| |apply arms_none_nil].
  - destruct (assoc c (initializing s)); [|apply arms_none_nil].
    match goal with
    | |- context [shutdown ?x] =>
        pose proof (shutdown_quiet x) as H; destruct (shutdown x) as [s1 es]
    end.
    apply arms_none_app; [exact H|]. apply arms_none_result. discriminate.
  - apply arms_none_result. discriminate.
Qed.

Lemma create_failed_all_quiet by_ errs : forall s,
  arms_none (snd (create_failed_all by_ errs s)).
Proof.
  induction errs as [|e errs IH]; intros s; [apply arms_none_nil|].
  cbn [create_failed_all]. pose proof (create_failed_quiet by_ e s) as H1.
  destruct (create_failed by_ e s) as [s1 e1]. specialize (IH s1).
  destruct (create_failed_all by_ errs s1) as [s2 e2].
  apply arms_none_app; assumption.
Qed.

Lemma create_loop_quiet c n : forall i spawns s,
  arms_none (snd (fst (create_loop c n i spawns s))).
Proof.
  induction n as [|n IH]; intros i spawns s; [apply arms_none_nil|].
  cbn [create_loop].
  pose proof (createProcess_quiet (Some i) (ByInitialize c) (spawns i) s) as H1.
  destruct (createProcess (Some i) (ByInitialize c) (spawns i) s) as [[s1 e1] f].
  specialize (IH (S i) spawns s1).
  destruct (create_loop c n (S i) spawns s1) as [[s2 e2] errs].
  apply arms_none_app; assumption.
Qed.

Lemma initialize_quiet spawns s : arms_none (snd (initialize spawns s)).
Proof.
  unfold initialize. destruct (isInitialized s).
  - apply arms_none_result. discriminate.
  - destruct (poolSize (config s)) as [|n].
    + apply arms_none_result. discriminate.
    + match goal with
      | |- context [create_loop ?c ?n ?i ?sp ?x] =>
          pose proof (create_loop_quiet c n i sp x) as H1;
            destruct (create_loop c n i sp x) as [[s1 e1] errs]
      end.
      pose proof (create_failed_all_quiet (ByInitialize (calls s)) errs s1) as H2.
      destruct (create_failed_all _ errs s1) as [s2 e2].
      apply arms_none_app; assumption.
Qed.

Lemma take_quiet c spawned s : arms_none (snd (take c spawned s)).
Proof.
  unfold take. destruct (availableProcesses s) as [|q rest].
  - apply arms_none_result. discriminate.
  - destruct (available_at q _); cbn [negb].
    + apply arms_none_result. discriminate.
    + match goal with
      | |- context [kill_at q ?x] =>
          pose proof (kill_at_quiet q x) as H1; destruct (kill_at q x) as [s2 e2]
      end.
      pose proof (createProcess_quiet None (ByAcquire c) spawned s2) as H2.
      destruct (createProcess None (ByAcquire c) spawned s2) as [[s3 e3] f].
      cbn [fst snd] in *.
      destruct f; cbn [snd]; repeat apply arms_none_app; auto.
      apply arms_none_result. discriminate.
Qed.

Lemma poll_quiet c waited spawned s : arms_none (snd (poll c waited spawned s)).
Proof.
  unfold poll. destruct (_ && _); [apply arms_none_nil | apply take_quiet].
Qed.

Lemma releaseProcess_quiet q spawned s :
  arms_none (snd (releaseProcess q spawned s)).
Proof.
  unfold releaseProcess. destruct (includes q (processes s)); cbn [negb];
    [|apply arms_none_nil].
  destruct (available_at q s).
  - destruct (includes q (availableProcesses s)); apply arms_none_nil.
  - match goal with
    | |- context [kill_at q ?x] =>
        pose proof (kill_at_quiet q x) as H1; destruct (kill_at q x) as [s2 e2]
    end.
    pose proof (createProcess_quiet None ByRelease spawned s2) as H2.
    destruct (createProcess None ByRelease spawned s2) as [[s3 e3] f].
    apply arms_none_app; assumption.
Qed.

Lemma created_quiet tk s : arms_none (snd (created tk s)).
Proof.
  unfold created. destruct (caller tk) as [c|c|].
  - destruct (assoc c _) as [[|[|k]]|]; cbn [snd];
      try apply arms_none_nil; apply arms_none_result; discriminate.
  - apply arms_none_result. discriminate.
  - apply arms_none_nil.
Qed.

(** Only an accepted [evaluate] arms a timer: directly, through
    [setPrecision], or inside [start()].  If the request is not settled
    in the same turn, it is pending afterwards with that timer. *)
Lemma step_armed_at (a : Action) (s : t) p id ms :
  In (OfProcess p (BCProcess.TimerSet id ms)) (snd (step a s)) ->
  BCProcess.settled (of_process p (snd (step a s))) = None ->
  exists w1 c k rest,
    heap (fst (step a s)) !! p = Some w1
    /\ BCProcess.process w1 = Some c
    /\ BCProcess.pendingRequest w1 = Some (BCProcess.mkPending k (Some id))
    /\ BCProcess.timers w1 = (id, ms) :: rest.
Proof.
  destruct a as [spawns|spawned|c spawned|q spawned| |q we|q a]; cbn [step].
  - intros H. destruct (initialize_quiet _ _ _ _ _ H).
  - intros H. exfalso. revert H. unfold acquireProcess.
    destruct (isInitialized s); cbn [negb]; [apply poll_quiet|].
    apply arms_none_result. discriminate.
  - intros H. exfalso. revert H. unfold wake.
    destruct (assoc c (waiting s)); [apply poll_quiet | intros []].
  - intros H. destruct (releaseProcess_quiet _ _ _ _ _ _ H).
  - intros H. destruct (shutdown_quiet _ _ _ _ H).
  - unfold delay_elapsed. destruct (task_of q Delay s) as [tk|]; [|intros []].
    destruct (heap s !! q) as [wq|] eqn:Hq; [|intros []].
    pose proof (start_ready_armed we wq id ms) as Harm.
    destruct (BCProcess.start_ready we wq) as [w1 es]. cbn [fst snd] in Harm.
    assert (q < length (heap s))%nat as Hlt by (eapply lookup_lt_Some; eauto).
    destruct (BCProcess.failed_early es) as [e|] eqn:Hfe.
    + match goal with
      | |- context [create_failed ?b ?e ?x] =>
          pose proof (create_failed_quiet b e x) as Hq2;
            destruct (create_failed b e x) as [s2 e2]
      end.
      cbn [fst snd]. intros Hin Hs. exfalso.
      apply in_app_iff in Hin as [Hin|Hin]; [|exact (Hq2 _ _ _ Hin)].
      apply in_map_iff in Hin as [x [E Hin]]. injection E as -> ->.
      rewrite of_process_app, of_process_same in Hs.
      apply settled_app_None in Hs as [Hs _].
      destruct (Harm Hin Hs) as (_ & _ & _ & _ & Hn). congruence.
    + cbn [fst snd heap set_heap set_creating]. intros Hin Hs.
      apply in_map_iff in Hin as [x [E Hin]]. injection E as -> ->.
      rewrite of_process_same in Hs.
      destruct (Harm Hin Hs) as ([k Hk] & Ht & Hp & [c Hc] & _).
      exists w1, c, k, (BCProcess.timers wq).
      rewrite list_lookup_insert_eq by exact Hlt. rewrite Hp. auto.
  - unfold on_process. destruct (heap s !! q) as [wq|] eqn:Hq; [|intros []].
    pose proof (step_armed a wq id ms) as Harm.
    destruct (BCProcess.step a wq) as [w1 es]. cbn [fst snd] in Harm.
    assert (q < length (heap s))%nat as Hlt by (eapply lookup_lt_Some; eauto).
    assert (In (OfProcess p (BCProcess.TimerSet id ms)) (map (OfProcess q) es) ->
            BCProcess.settled es = None ->
            exists w2 c k rest,
              heap (set_heap (<[q := w1]> (heap s)) s) !! p = Some w2
              /\ BCProcess.process w2 = Some c
              /\ BCProcess.pendingRequest w2 = Some (BCProcess.mkPending k (Some id))
              /\ BCProcess.timers w2 = (id, ms) :: rest) as Hmain.
    { intros Hin Hs. apply in_map_iff in Hin as [x [E Hin]]. injection E as -> ->.
      destruct (Harm Hin Hs) as ([k Hk] & Ht & Hp & [c Hc]).
      exists w1, c, k, (BCProcess.timers wq). cbn [heap set_heap].
      rewrite list_lookup_insert_eq by exact Hlt. rewrite Hp. auto. }
    destruct (task_of q Precision s) as [tk|].
    2:{ cbn [fst snd]. intros Hin Hs. apply Hmain; [exact Hin|].
        apply in_map_iff in Hin as [x [E _]]. injection E as -> _.
        rewrite of_process_same in Hs. exact Hs. }
    destruct (BCProcess.settled es) as [[v|e]|] eqn:Hse.
    + pose proof (created_quiet tk (drop_task q (set_heap (<[q := w1]> (heap s)) s)))
        as Hq2.
      destruct (created tk _) as [s2 e2]. cbn [fst snd]. intros Hin Hs. exfalso.
      apply in_app_iff in Hin as [Hin|Hin]; [|exact (Hq2 _ _ _ Hin)].
      apply in_map_iff in Hin as [x [E _]]. injection E as -> _.
      rewrite of_process_app, of_process_same in Hs.
      apply settled_app_None in Hs as [Hs _]. congruence.
    + match goal with
      | |- context [create_failed ?b ?e ?x] =>
          pose proof (create_failed_quiet b e x) as Hq2;
            destruct (create_failed b e x) as [s2 e2]
      end.
      cbn [fst snd]. intros Hin Hs. exfalso.
      apply in_app_iff in Hin as [Hin|Hin]; [|exact (Hq2 _ _ _ Hin)].
      apply in_map_iff in Hin as [x [E _]]. injection E as -> _.
      rewrite of_process_app, of_process_same in Hs.
      apply settled_app_None in Hs as [Hs _]. congruence.
    + cbn [fst snd]. intros Hin _. apply Hmain; [exact Hin | reflexivity].
Qed.

End Quiet.

Section PoolClaims.
Import BCProcessPool.

Lemma in_of_process p (e : BCProcess.Effect) (es : list Effect) :
  In e (of_process p es) <-> In (OfProcess p e) es.
Proof.
  induction es as [|x es IH]; [reflexivity|].
  destruct x as [q e'| | | |]; cbn [of_process In]; rewrite <- ?IH;
    try (split; [auto | intros [E|H]; [discriminate | exact H]]).
  destruct (Nat.eqb_spec q p) as [->|Hne]; cbn [In]; rewrite <- ?IH.
  - split; intros [E|H]; auto; left; congruence.
  - split; [auto | intros [E|H]; [congruence | exact H]].
Qed.

(** The state of [p] after a step on [p] that leaves it dead. *)
Lemma on_process_dead p a s w :
  heap s !! p = Some w ->
  dead (fst (BCProcess.step a w)) ->
  (forall v, BCProcess.settled (snd (BCProcess.step a w)) <> Some (inl v)) ->
  (exists w', heap (fst (on_process p a s)) !! p = Some w' /\ dead w')
  /\ forall e, In e (snd (BCProcess.step a w)) ->
               In (OfProcess p e) (snd (on_process p a s)).
Proof.
  intros Hw Hd Hs. unfold on_process. rewrite Hw.
  destruct (BCProcess.step a w) as [w1 es]. cbn [fst snd] in *.
  assert (heap (set_heap (<[p := w1]> (heap s)) s) !! p = Some w1) as H1.
  { cbn [heap set_heap]. apply list_lookup_insert_eq.
    eapply lookup_lt_Some; eauto. }
  destruct (task_of p Precision s) as [tk|].
  2:{ cbn [fst snd]. split; [eauto|]. intros e He. apply in_map. exact He. }
  destruct (BCProcess.settled es) as [[v|e]|] eqn:Hse.
  - destruct (Hs v eq_refl).
  - match goal with
    | |- context [create_failed ?b ?e ?x] =>
        pose proof (create_failed_keeps p b e x) as H2;
          destruct (create_failed b e x) as [s2 e2]
    end.
    cbn [fst snd] in *. destruct (H2 w1 H1) as (w' & Hw' & (_ & _ & Hdd) & _).
    split; [exists w'; split; [exact Hw' | apply Hdd, Hd]|].
    intros e0 He. apply in_app_iff. left. apply in_map. exact He.
  - cbn [fst snd]. split; [eauto|]. intros e He. apply in_map. exact He.
Qed.

(** C5: in a turn [a] of the pool a call of [evaluate] on process [p]
    (direct, through [setPrecision] or inside [start()]) is accepted and
    arms the deadline timer [id]; whatever happens in the pool afterwards, if no
    result and no error of [p] arrives before the timer fires, then the
    firing rejects the pending request with [BC_TIMEOUT], the child has
    been sent SIGTERM by then, and the process is dead: [isAvailable()]
    is false after the firing and after any further activity of the pool,
    and no [acquireProcess()] returns [p] any more.  (Nothing in the
    sources calls [start()] on an existing process object.) *)
Theorem timeout_kills_worker
    (s0 : t) (p : nat) (a : Action) (id : nat) (ms : Z)
    (acts acts' : list Action) :
  let r1 := step a s0 in
  let r2 := run acts (fst r1) in
  let r3 := step (OnProcess p (BCProcess.TimerFire id)) (fst r2) in
  let r4 := run acts' (fst r3) in
  In (OfProcess p (BCProcess.TimerSet id ms)) (snd r1) ->
  BCProcess.settled (of_process p (snd r1 ++ snd r2)) = None ->
  In (OfProcess p
        (BCProcess.Rejected
           (mkError (lit "Calculation timeout after " ++ num_to_string ms ++ lit "ms")
              BC_TIMEOUT))) (snd r3)
  /\ In (OfProcess p BCProcess.Signalled) (snd r2 ++ snd r3)
  /\ available_at p (fst r3) = false
  /\ available_at p (fst r4) = false
  /\ forall c, ~ In (AcquireReturned c p) (snd r4).
Proof.
  intros r1 r2 r3 r4 Hset Hnone.
  rewrite of_process_app in Hnone. apply settled_app_None in Hnone as [Hn1 Hn2].
  (* the call of evaluate was accepted *)
  destruct (step_armed_at a s0 p id ms Hset Hn1)
    as (w1 & c & k & rest & Hw1 & Hc1 & Hp1 & Ht1).
  fold r1 in Hw1.
  (* nothing settles the request before the timer fires *)
  destruct (run_keeps p acts (fst r1) w1 Hw1) as (w2 & Hw2 & (Hpr2 & Hq2 & _) & _).
  fold r2 in Hw2, Hpr2, Hq2.
  destruct (Hq2 _ Hp1 Hn2) as [Hp2 Ht2]. rewrite Ht1 in Ht2.
  (* the timer fires *)
  assert (exists w',
             BCProcess.process w' = BCProcess.process w2
             /\ BCProcess.pendingRequest w' = None
             /\ BCProcess.step (BCProcess.TimerFire id) w2
                = (fst (BCProcess.kill w'),
                   BCProcess.TimerCleared id
                   :: BCProcess.Rejected
                        (mkError (lit "Calculation timeout after "
                                  ++ num_to_string ms ++ lit "ms") BC_TIMEOUT)
                   :: snd (BCProcess.kill w'))) as (w' & Hpw' & Hqw' & Hstep).
  { cbn [BCProcess.step]. rewrite Ht2. cbn [List.find fst]. rewrite Nat.eqb_refl.
    unfold BCProcess.on_timeout, BCProcess.rejectPendingRequest.
    cbn [BCProcess.pendingRequest BCProcess.set_timers]. rewrite Hp2.
    cbn [BCProcess.timer BCProcess.clearTimeout].
    match goal with
    | |- context [BCProcess.kill ?x] =>
        exists x; destruct (BCProcess.kill x); repeat split
    end. }
  assert (dead (fst (BCProcess.kill w'))) as Hdead.
  { unfold BCProcess.kill, dead. destruct (BCProcess.process w') eqn:E; cbn; auto. }
  clear Hqw'.
  destruct (on_process_dead p (BCProcess.TimerFire id) (fst r2) w2 Hw2)
    as [(w3 & Hw3 & Hd3) Heff].
  { rewrite Hstep. exact Hdead. }
  { rewrite Hstep. cbn. discriminate. }
  rewrite Hstep in Heff. cbn [snd] in Heff.
  fold (step (OnProcess p (BCProcess.TimerFire id)) (fst r2)) in Hw3, Heff.
  fold r3 in Hw3, Heff.
  destruct (run_keeps p acts' (fst r3) w3 Hw3) as (w4 & Hw4 & (_ & _ & Hd4) & Hret).
  fold r4 in Hw4, Hd4, Hret.
  split; [apply Heff; right; left; reflexivity|].
  split.
  { apply in_app_iff. destruct Hpr2 as [E|[_ Hsig]].
    - right. apply Heff. right. right.
      unfold BCProcess.kill. rewrite Hpw', E, Hc1. left. reflexivity.
    - left. apply in_of_process. exact Hsig. }
  split; [unfold available_at; rewrite Hw3; apply dead_not_available, Hd3|].
  split; [unfold available_at; rewrite Hw4; apply dead_not_available, Hd4, Hd3|].
  exact (Hret Hd3).
Qed.

Lemma timeout_kills_worker_witness :
  let s0 := fst (step (AcquireProcess PoolScenario.spawn_ok) PoolScenario.pool1) in
  let r1 := step (OnProcess 0 (BCProcess.Evaluate (lit "2^9^9^9") None None)) s0 in
  let r2 := run [OnProcess 0 (BCProcess.StderrData newline)] (fst r1) in
  let r3 := step (OnProcess 0 (BCProcess.TimerFire 1)) (fst r2) in
  let r4 := run [ReleaseProcess 0 PoolScenario.spawn_ok;
                 AcquireProcess PoolScenario.spawn_ok;
                 WakeUp 2 PoolScenario.spawn_ok;
                 DelayElapsed 1 None;
                 OnProcess 1 PoolScenario.answer;
                 WakeUp 2 PoolScenario.spawn_ok] (fst r3) in
  In (OfProcess 0 (BCProcess.TimerSet 1 30000)) (snd r1)
  /\ BCProcess.settled (of_process 0 (snd r1 ++ snd r2)) = None
  /\ In (AcquireReturned 2 1) (snd r4)
  /\ forall c, ~ In (AcquireReturned c 0%nat) (snd r4).
Proof.
  intros s0 r1 r2 r3 r4.
  assert (In (OfProcess 0 (BCProcess.TimerSet 1 30000)) (snd r1)) as H1
      by (vm_compute; auto).
  assert (BCProcess.settled (of_process 0 (snd r1 ++ snd r2)) = None) as H2
      by (vm_compute; reflexivity).
  split; [exact H1|]. split; [exact H2|].
  split; [vm_compute; auto 10|].
  exact (proj2 (proj2 (proj2 (proj2
           (timeout_kills_worker s0 0%nat
              (OnProcess 0 (BCProcess.Evaluate (lit "2^9^9^9") None None)) 1%nat 30000
              [OnProcess 0 (BCProcess.StderrData newline)]
              [ReleaseProcess 0 PoolScenario.spawn_ok;
               AcquireProcess PoolScenario.spawn_ok;
               WakeUp 2 PoolScenario.spawn_ok;
               DelayElapsed 1 None;
               OnProcess 1 PoolScenario.answer;
               WakeUp 2 PoolScenario.spawn_ok] H1 H2))))).
Defined.

(** C1 (the code at the failing input): the engine of the only process
    exits while the process sits in [availableProcesses]; the recovery
    path of [acquireProcess()] returns the replacement process 1 while it
    is still in [availableProcesses], so the next [acquireProcess()]
    returns process 1 again; and if the first caller has started to
    evaluate by then, the next [acquireProcess()] kills process 1 under
    it. *)
Theorem acquire_recovery_returns_available_worker :
  let r := run PoolScenario.recovery PoolScenario.pool1 in
  let again := step (AcquireProcess PoolScenario.spawn_ok) (fst r) in
  let busy := step (OnProcess 1 (BCProcess.Evaluate (lit "2+2") None None)) (fst r) in
  let later := step (AcquireProcess PoolScenario.spawn_ok) (fst busy) in
  In (AcquireReturned 1 1) (snd r)
  /\ available_at 1 (fst r) = true
  /\ availableProcesses (fst r) = [1%nat]
  /\ processes (fst r) = [0%nat; 1%nat]
  /\ snd again = [AcquireReturned 2 1]
  /\ snd later = [OfProcess 1 BCProcess.Signalled;
                  OfProcess 2 (BCProcess.Spawned Scenario.child)].
Proof.
  cbv zeta. split; [vm_compute; auto 10|].
  repeat split; vm_compute; reflexivity.
Qed.

(** C8 (the code at the failing input): [initialize()] of a pool of two;
    the engine of process 0 exits before answering, so [initialize()]
    fails and [shutdown()] runs while no process is a member yet; process
    1 answers afterwards and joins [processes] and [availableProcesses],
    alive and never signalled, in a pool that is not initialised. *)
Theorem initialize_failure_leaves_member :
  let r := run PoolScenario.partial_start (new (mkConfig 2 20 30000)) in
  (exists e, In (InitializeFailed 0 e) (snd r) /\ code e = BC_SPAWN_ERROR)
  /\ isInitialized (fst r) = false
  /\ processes (fst r) = [1%nat]
  /\ availableProcesses (fst r) = [1%nat]
  /\ available_at 1 (fst r) = true
  /\ ~ In (OfProcess 1 BCProcess.Signalled) (snd r).
Proof.
  cbv zeta. split; [eexists; split; [vm_compute; auto 20 | reflexivity]|].
  split; [vm_compute; reflexivity|]. split; [vm_compute; reflexivity|].
  split; [vm_compute; reflexivity|]. split; [vm_compute; reflexivity|].
  intros H. vm_compute in H. intuition discriminate.
Qed.

End PoolClaims.

(** ** What the validator accepts *)

Section Accepted.
Import Regex RegexFacts InputValidator.

Ltac to_prop H :=
  rewrite ?orb_true_iff, ?andb_true_iff, ?N.eqb_eq, ?N.leb_le in H.

(** *** Trimming *)

Lemma trimStart_fixed (s : jsstring) :
  (forall c r, s = c :: r -> is_ws c = false) -> trimStart s = s.
Proof.
  destruct s as [|c r]; [reflexivity|]. intros H. cbn.
  rewrite (H c r eq_refl). reflexivity.
Qed.

Lemma trimStart_length (s : jsstring) : (length (trimStart s) <= length s)%nat.
Proof.
  induction s as [|c r IH]; cbn; [lia|]. destruct (is_ws c); cbn; lia.
Qed.

Lemma trim_length (s : jsstring) : (length (trim s) <= length s)%nat.
Proof.
  unfold trim, trimEnd. rewrite length_rev.
  etransitivity; [apply trimStart_length|]. rewrite length_rev.
  apply trimStart_length.
Qed.

(** The ends of a trimmed string are not white space. *)
Lemma trim_first (s : jsstring) c r : trim s = c :: r -> is_ws c = false.
Proof.
  unfold trim, trimEnd. intros H.
  destruct (trimStart_split (rev (trimStart s))) as [l [Hl Hws]].
  assert (trimStart s = rev (trimStart (rev (trimStart s))) ++ rev l) as E.
  { rewrite <- rev_app_distr, <- Hl, rev_involutive. reflexivity. }
  rewrite H in E. cbn in E. eapply trimStart_head. exact E.
Qed.

Lemma trim_last (s : jsstring) r c : trim s = r ++ [c] -> is_ws c = false.
Proof.
  unfold trim, trimEnd. intros H.
  apply (f_equal (@rev jschar)) in H. rewrite rev_involutive, rev_app_distr in H.
  cbn in H. eapply trimStart_head. exact H.
Qed.

Lemma trim_fixed (s : jsstring) :
  (forall c r, s = c :: r -> is_ws c = false) ->
  (forall r c, s = r ++ [c] -> is_ws c = false) ->
  trim s = s.
Proof.
  intros Hf Hl. unfold trim, trimEnd. rewrite (trimStart_fixed s Hf).
  rewrite trimStart_fixed; [apply rev_involutive|].
  intros c r E. apply (Hl (rev r) c).
  apply (f_equal (@rev jschar)) in E. rewrite rev_involutive in E. exact E.
Qed.

Lemma trim_idem (s : jsstring) : trim (trim s) = trim s.
Proof. apply trim_fixed; [apply trim_first | apply trim_last]. Qed.

(** A block of [s] that neither starts nor ends with white space is a
    block of [trim s]. *)
Lemma trim_keeps_block (a f b m1 : jsstring) x y :
  x :: m1 = f ++ [y] -> is_ws x = false -> is_ws y = false ->
  exists a' b', trim (a ++ (f ++ [y]) ++ b) = a' ++ (f ++ [y]) ++ b'.
Proof.
  intros Hm Hx Hy. unfold trim, trimEnd. rewrite <- Hm.
  change ((x :: m1) ++ b) with (x :: (m1 ++ b)).
  destruct (trimStart_keeps a (m1 ++ b) x Hx) as [a' ->].
  change (x :: m1 ++ b) with ((x :: m1) ++ b). rewrite Hm.
  replace (rev (a' ++ (f ++ [y]) ++ b)) with (rev b ++ y :: rev (a' ++ f)).
  2:{ rewrite !rev_app_distr. cbn. rewrite <- !app_assoc. reflexivity. }
  destruct (trimStart_keeps (rev b) (rev (a' ++ f)) y Hy) as [b' ->].
  exists a', (rev b'). rewrite rev_app_distr. cbn.
  rewrite rev_involutive, <- !app_assoc. reflexivity.
Qed.

(** *** The counters of [validateBCSyntax] *)

Lemma bump_delta (open close : ascii) (c : jschar) (n : Z) :
  N_of_ascii open <> N_of_ascii close ->
  bump close c (bump open c n 1) (-1) = n + delta open close c.
Proof.
  intros Hne. unfold bump, delta.
  destruct (N.eqb_spec c (N_of_ascii open)), (N.eqb_spec c (N_of_ascii close));
    try lia; congruence.
Qed.

Lemma scan_spec (cs : jsstring) : forall k,
  match scan cs k with
  | inr k' => k' = shifted k cs /\ (never_negative k [] -> never_negative k cs)
  | inl r => valid r = false /\ ~ never_negative k cs
  end.
Proof.
  induction cs as [|c rest IH]; intros [p b q].
  - cbn. unfold shifted. cbn. rewrite !Z.add_0_r. auto.
  - cbn [scan parenCount braceCount bracketCount].
    rewrite !bump_delta by discriminate.
    assert (forall n, firstn (S n) (c :: rest) = c :: firstn n rest) as Hf
        by reflexivity.
    destruct (p + delta "(" ")" c <? 0) eqn:Hp.
    { split; [reflexivity|]. intros H. destruct (H 1%nat) as (H1 & _).
      rewrite Hf, firstn_O in H1. cbn [depth parenCount braceCount bracketCount] in H1. apply Z.ltb_lt in Hp. lia. }
    destruct (b + delta "{" "}" c <? 0) eqn:Hb.
    { split; [reflexivity|]. intros H. destruct (H 1%nat) as (_ & H1 & _).
      rewrite Hf, firstn_O in H1. cbn [depth parenCount braceCount bracketCount] in H1. apply Z.ltb_lt in Hb. lia. }
    destruct (q + delta "[" "]" c <? 0) eqn:Hq.
    { split; [reflexivity|]. intros H. destruct (H 1%nat) as (_ & _ & H1).
      rewrite Hf, firstn_O in H1. cbn [depth parenCount braceCount bracketCount] in H1. apply Z.ltb_lt in Hq. lia. }
    apply Z.ltb_ge in Hp, Hb, Hq.
    specialize (IH (mkCounts (p + delta "(" ")" c) (b + delta "{" "}" c)
                      (q + delta "[" "]" c))).
    destruct (scan rest _) as [r|k'].
    + destruct IH as [Hv Hn]. split; [exact Hv|]. intros H. apply Hn.
      intros n. specialize (H (S n)). rewrite Hf in H.
      cbn [depth parenCount braceCount bracketCount] in H |- *. lia.
    + destruct IH as [-> Hn]. split.
      * unfold shifted. cbn. f_equal; lia.
      * intros H0 [|n]; [exact (H0 0%nat)|].
        rewrite Hf. cbn [depth parenCount braceCount bracketCount].
        assert (never_negative
                  (mkCounts (p + delta "(" ")" c) (b + delta "{" "}" c)
                     (q + delta "[" "]" c)) []) as H1.
        { intros m. rewrite firstn_nil. cbn [depth parenCount braceCount bracketCount]. lia. }
        specialize (Hn H1 n). cbn [parenCount braceCount bracketCount] in Hn. lia.
Qed.

(** X1: [validateBCSyntax] accepts a string exactly when, for each of
    the three kinds of brackets separately, no prefix of the string
    closes more brackets of that kind than it opens and the whole string
    closes as many as it opens.  The three kinds are counted
    independently of each other. *)
Theorem validateBCSyntax_balanced (expression : jsstring) :
  valid (validateBCSyntax expression) = true
  <-> balanced "(" ")" expression
      /\ balanced "{" "}" expression
      /\ balanced "[" "]" expression.
Proof.
  unfold validateBCSyntax, balanced.
  pose proof (scan_spec expression (mkCounts 0 0 0)) as H.
  destruct (scan expression (mkCounts 0 0 0)) as [r|k].
  - destruct H as [Hv Hn]. split; [congruence|].
    intros ((H1 & _) & (H2 & _) & (H3 & _)). destruct Hn.
    intros n. cbn [parenCount braceCount bracketCount]. rewrite !Z.add_0_l. auto.
  - destruct H as [-> Hn]. unfold shifted. cbn [parenCount braceCount bracketCount].
    rewrite !Z.add_0_l.
    assert (never_negative (mkCounts 0 0 0) expression) as Hnn.
    { apply Hn. intros n. rewrite firstn_nil. cbn. lia. }
    destruct (Z.eqb_spec (depth "(" ")" expression) 0) as [E1|E1]; cbn [negb].
    2:{ split; [discriminate | tauto]. }
    destruct (Z.eqb_spec (depth "{" "}" expression) 0) as [E2|E2]; cbn [negb].
    2:{ split; [discriminate | tauto]. }
    destruct (Z.eqb_spec (depth "[" "]" expression) 0) as [E3|E3]; cbn [negb].
    2:{ split; [discriminate | tauto]. }
    split; [|reflexivity]. intros _.
    repeat split; auto; intros n; destruct (Hnn n) as (H1 & H2 & H3); cbn in *; lia.
Qed.

(** *** What [validate] lets through *)

Lemma not_ws_of_allowed_false c : allowed_char c = false -> is_ws c = false.
Proof.
  unfold allowed_char. intros H.
  destruct (is_ws c); [|reflexivity].
  rewrite orb_true_r in H. discriminate H.
Qed.

(** X6: every input that contains a code unit outside the allow-list
    (digits, ASCII letters, the listed operators, punctuation and
    brackets, and white space) is rejected, wherever the code unit
    stands. *)
Theorem validate_rejects_foreign_characters (expression : jsstring) (c : jschar) :
  In c expression -> allowed_char c = false ->
  valid (validate expression) = false.
Proof.
  intros Hin Hc. destruct (valid (validate expression)) eqn:Hv; [|reflexivity].
  apply (trim_In expression) in Hin; [|apply not_ws_of_allowed_false, Hc].
  rewrite (allowed_of_valid expression c Hv Hin) in Hc. discriminate.
Qed.

Lemma validate_rejects_foreign_characters_witness :
  valid (validate (lit "x_1 + 2")) = false
  /\ valid (validate (lit "1 + 2 # comment")) = false
  /\ valid (validate (lit "2" ++ [960%N] ++ lit "r")) = false.
Proof.
  split; [|split].
  - apply (validate_rejects_foreign_characters _ (N_of_ascii "_"));
      [vm_compute; auto | reflexivity].
  - apply (validate_rejects_foreign_characters _ (N_of_ascii "#"));
      [vm_compute; auto 10 | reflexivity].
  - apply (validate_rejects_foreign_characters _ 960%N);
      [vm_compute; auto | reflexivity].
Defined.

(** X2: when [validate] accepts an expression, the text it returns in
    [sanitized] has between 1 and 10000 code units and is no longer than
    the expression, consists of allow-listed characters only, neither
    starts nor ends with white space, and no part of it matches an entry
    of the deny-list. *)
Theorem validate_output_clean (expression : jsstring) :
  valid (validate expression) = true ->
  exists text,
    sanitized (validate expression) = Some text
    /\ (1 <= length text <= length expression)%nat
    /\ Z.of_nat (length text) <= 10000
    /\ forallb allowed_char text = true
    /\ (forall c r, text = c :: r -> is_ws c = false)
    /\ (forall r c, text = r ++ [c] -> is_ws c = false)
    /\ forall pattern pre m post,
         In pattern DANGEROUS_PATTERNS -> text = pre ++ m ++ post ->
         ~ matches pattern m.
Proof.
  intros Hv. apply validate_valid_inv in Hv as (_ & Hlen & Hne & Hall & Hd & _ & Hr).
  exists (trim expression). rewrite Hr. split; [reflexivity|].
  pose proof (trim_length expression) as Hl.
  split; [|split; [|split; [|split; [|split]]]].
  - destruct (trim expression); [contradiction | cbn in *; lia].
  - unfold MAX_LENGTH in Hlen. lia.
  - apply plus_class, Hall.
  - apply trim_first.
  - apply trim_last.
  - intros pattern pre m post Hin Ht Hm.
    assert (existsb (fun p => search p (trim expression)) DANGEROUS_PATTERNS = true)
      as Hd'; [|congruence].
    apply existsb_exists. exists pattern. split; [exact Hin|].
    apply search_matches. eauto.
Qed.

Lemma validate_output_clean_witness :
  valid (validate (lit "  sqrt(2) * 3 ")) = true
  /\ exists text,
       sanitized (validate (lit "  sqrt(2) * 3 ")) = Some text
       /\ forallb allowed_char text = true.
Proof.
  assert (valid (validate (lit "  sqrt(2) * 3 ")) = true) as H
      by (vm_compute; reflexivity).
  split; [exact H|].
  destruct (validate_output_clean (lit "  sqrt(2) * 3 ") H)
    as (text & Hs & _ & _ & Ha & _).
  exists text. split; assumption.
Defined.

(** X3: for an accepted expression, [sanitized] is
    [sanitize(expression)], validating the sanitized text gives the same
    result as validating the expression, and sanitizing twice is
    sanitizing once. *)
Theorem validate_idempotent (expression : jsstring) :
  valid (validate expression) = true ->
  sanitized (validate expression) = Some (sanitize expression)
  /\ validate (sanitize expression) = validate expression
  /\ sanitize (sanitize expression) = sanitize expression.
Proof.
  unfold sanitize.
  intros Hv. apply validate_valid_inv in Hv as (_ & Hlen & Hne & Hall & Hd & Hs & Hr).
  split; [rewrite Hr; reflexivity|]. split; [|apply trim_idem].
  rewrite Hr. unfold validate. rewrite trim_idem.
  apply truthy_true in Hne. rewrite Hne. cbn [negb].
  pose proof (trim_length expression) as Hl.
  replace (Z.of_nat (length (trim expression)) >? MAX_LENGTH) with false
    by (symmetry; rewrite Z.gtb_ltb; apply Z.ltb_ge; lia).
  cbv zeta. rewrite Hall, Hd, Hs. reflexivity.
Qed.

Lemma validate_idempotent_witness :
  valid (validate (lit " (1+2)*3 ")) = true
  /\ validate (sanitize (lit " (1+2)*3 ")) = validate (lit " (1+2)*3 ").
Proof.
  assert (valid (validate (lit " (1+2)*3 ")) = true) as H
      by (vm_compute; reflexivity).
  split; [exact H|]. exact (proj1 (proj2 (validate_idempotent _ H))).
Defined.

(** X7: on a text that passed the allow-list check, the deny-list
    entries for the backtick and for a dollar sign followed by an
    opening parenthesis never match: the deny-list check has the same
    outcome without these two entries. *)
Theorem backtick_and_dollar_never_decide (text : jsstring) :
  fullmatch ALLOWED_CHARS text = true ->
  search (chr "`") text = false
  /\ search (Seq (chr "$") (chr "(")) text = false
  /\ existsb (fun pattern => search pattern text) DANGEROUS_PATTERNS
     = existsb (fun pattern => search pattern text)
         (firstn 2 DANGEROUS_PATTERNS ++ skipn 4 DANGEROUS_PATTERNS).
Proof.
  intros Hall. apply plus_class in Hall. rewrite forallb_forall in Hall.
  assert (search (chr "`") text = false) as H1.
  { destruct (search (chr "`") text) eqn:Hs; [|reflexivity].
    apply search_matches in Hs as (pre & m & post & -> & Hm).
    apply inv_chr in Hm as (c & -> & Hc). apply N.eqb_eq in Hc. subst c.
    specialize (Hall (N_of_ascii "`")). rewrite !in_app_iff in Hall.
    cbn in Hall. discriminate Hall. auto. }
  assert (search (Seq (chr "$") (chr "(")) text = false) as H2.
  { destruct (search (Seq (chr "$") (chr "(")) text) eqn:Hs; [|reflexivity].
    apply search_matches in Hs as (pre & m & post & -> & Hm).
    apply inv_seq in Hm as (s1 & s2 & -> & Hm1 & _).
    apply inv_chr in Hm1 as (c & -> & Hc). apply N.eqb_eq in Hc. subst c.
    specialize (Hall (N_of_ascii "$")). rewrite !in_app_iff in Hall.
    cbn in Hall. discriminate Hall. auto. }
  split; [exact H1|]. split; [exact H2|].
  unfold DANGEROUS_PATTERNS. cbn [firstn skipn app existsb].
  rewrite H1, H2. reflexivity.
Qed.

Lemma backtick_and_dollar_never_decide_witness :
  fullmatch ALLOWED_CHARS (lit "a=5;b=10;a+b") = true
  /\ search (chr "`") (lit "a=5;b=10;a+b") = false.
Proof.
  assert (fullmatch ALLOWED_CHARS (lit "a=5;b=10;a+b") = true) as H
      by (vm_compute; reflexivity).
  split; [exact H|]. exact (proj1 (backtick_and_dollar_never_decide _ H)).
Defined.

End Accepted.

(** ** Keywords the validator rejects *)

Section Keywords.
Import Regex RegexFacts InputValidator.

Ltac to_prop H :=
  rewrite ?orb_true_iff, ?andb_true_iff, ?N.eqb_eq, ?N.leb_le in H.

Lemma fold_case_not_ws c : is_ws (fold_case c) = false -> is_ws c = false.
Proof.
  unfold fold_case. destruct (is_lower c) eqn:Hl; [|auto].
  intros _. apply not_true_iff_false. intros Hw.
  cbv -[N.eqb N.leb orb andb] in Hl, Hw. to_prop Hl. to_prop Hw. lia.
Qed.

Lemma folded_not_ws (w l : jsstring) :
  map fold_case w = l -> forallb (fun x => negb (is_ws x)) l = true ->
  Forall (fun c => is_ws c = false) w.
Proof.
  revert l. induction w as [|c w IH]; intros l E H; [constructor|].
  subst l. cbn [map forallb] in H. apply andb_true_iff in H as [Hc H].
  constructor; [|eapply IH; eauto].
  apply fold_case_not_ws, negb_true_iff, Hc.
Qed.

Lemma lit_cons a r : lit (String a r) = N_of_ascii a :: lit r.
Proof. reflexivity. Qed.

Lemma word_i_matches (word : string) : forall w,
  word <> EmptyString -> same_letters word w -> matches (word_i word) w.
Proof.
  unfold same_letters.
  induction word as [|a r IH]; intros w Hne H; [congruence|].
  rewrite lit_cons in H. destruct w as [|c w]; [discriminate|].
  cbn [map] in H. injection H as Hc Hw.
  assert (matches (chr_i a) [c]) as Hm.
  { constructor. apply N.eqb_eq, Hc. }
  destruct r as [|b r].
  - destruct w; [exact Hm | discriminate].
  - change (word_i (String a (String b r)))
      with (Seq (chr_i a) (word_i (String b r))).
    change (c :: w) with ([c] ++ w). constructor; [exact Hm|].
    apply IH; [discriminate | exact Hw].
Qed.

(** An input with a block that matches a deny-list entry and neither
    starts nor ends with white space is rejected. *)
Lemma dangerous_block (a f b m1 : jsstring) x y r :
  In r DANGEROUS_PATTERNS -> matches r (f ++ [y]) ->
  x :: m1 = f ++ [y] -> is_ws x = false -> is_ws y = false ->
  valid (validate (a ++ (f ++ [y]) ++ b)) = false.
Proof.
  intros Hr Hm E Hx Hy.
  destruct (trim_keeps_block a f b m1 x y E Hx Hy) as (a' & b' & Ht).
  exact (dangerous_of_match _ r _ a' b' Hr Hm Ht).
Qed.

(** X4: every input that contains the word system or the word exec, in
    any mixture of upper and lower case, followed by any amount of white
    space and an opening parenthesis, is rejected. *)
Theorem validate_rejects_calls (pre w sp post : jsstring) :
  same_letters "system" w \/ same_letters "exec" w ->
  forallb is_ws sp = true ->
  valid (validate (pre ++ w ++ sp ++ lit "(" ++ post)) = false.
Proof.
  intros Hw Hsp.
  assert (exists word,
            same_letters word w /\ word <> EmptyString
            /\ In (Seq (word_i word) (Seq (Star ws) (chr "("))) DANGEROUS_PATTERNS
            /\ forallb (fun x => negb (is_ws x)) (map fold_case (lit word)) = true)
    as (word & Hs & Hne & Hin & Hnw).
  { destruct Hw as [H|H]; [exists "system"%string | exists "exec"%string];
      (split; [exact H|]); (split; [discriminate|]);
      (split; [|reflexivity]); [left | right; left]; reflexivity. }
  pose proof (folded_not_ws w _ Hs Hnw) as Hall.
  destruct w as [|c w'].
  { unfold same_letters in Hs. destruct word; [congruence | discriminate]. }
  replace (pre ++ (c :: w') ++ sp ++ lit "(" ++ post)
    with (pre ++ (((c :: w') ++ sp) ++ [N_of_ascii "("]) ++ post).
  2:{ change (lit "(") with [N_of_ascii "("]. rewrite <- !app_assoc. reflexivity. }
  apply (dangerous_block pre _ post (w' ++ sp ++ [N_of_ascii "("]) c _ _ Hin).
  - rewrite <- app_assoc. constructor; [apply word_i_matches; assumption|].
    constructor; [apply star_ws_matches, Hsp|]. constructor. reflexivity.
  - rewrite <- !app_assoc. reflexivity.
  - inversion Hall; assumption.
  - reflexivity.
Qed.

Lemma validate_rejects_calls_witness :
  valid (validate (lit "1 + SyStEm  (2)")) = false.
Proof.
  assert (same_letters "system" (lit "SyStEm") \/ same_letters "exec" (lit "SyStEm"))
    as H1 by (left; vm_compute; reflexivity).
  assert (forallb is_ws (lit "  ") = true) as H2 by (vm_compute; reflexivity).
  exact (validate_rejects_calls (lit "1 + ") (lit "SyStEm") (lit "  ") (lit "2)") H1 H2).
Defined.

(** X5: every input that contains a semicolon followed, after any amount
    of white space, by one of the words bash, sh, rm, cat, ls, pwd,
    chmod, chown in any mixture of upper and lower case is rejected,
    whatever follows the word (so also when the word is the beginning of
    a variable name). *)
Theorem validate_rejects_shell_commands (pre sp w post : jsstring) (command : string) :
  In command ["bash"; "sh"; "rm"; "cat"; "ls"; "pwd"; "chmod"; "chown"]%string ->
  same_letters command w ->
  forallb is_ws sp = true ->
  valid (validate (pre ++ lit ";" ++ sp ++ w ++ post)) = false.
Proof.
  intros Hin Hs Hsp.
  assert (command <> EmptyString
          /\ forallb (fun x => negb (is_ws x)) (map fold_case (lit command)) = true
          /\ forall v, matches (word_i command) v -> matches shell_commands v)
    as (Hne & Hnw & Hcmd).
  { unfold shell_commands. cbn [In] in Hin.
    repeat (destruct Hin as [<-|Hin];
            [split; [discriminate|]; split; [reflexivity|]; intros v Hv;
             repeat (first [exact Hv | apply m_alt_l; exact Hv | apply m_alt_r])|]).
    contradiction. }
  pose proof (folded_not_ws w _ Hs Hnw) as Hall.
  destruct (exists_last (l := w)) as (f & y & ->).
  { intros ->. unfold same_letters in Hs. destruct command; [congruence | discriminate]. }
  apply Forall_app in Hall as [_ Hy]. inversion Hy as [|? ? Hy' _]; subst.
  replace (pre ++ lit ";" ++ sp ++ (f ++ [y]) ++ post)
    with (pre ++ ((N_of_ascii ";" :: sp ++ f) ++ [y]) ++ post).
  2:{ change (lit ";") with [N_of_ascii ";"]. cbn [app].
      rewrite <- !app_assoc. reflexivity. }
  apply (dangerous_block pre _ post ((sp ++ f) ++ [y]) (N_of_ascii ";") y
           (Seq (chr_i ";") (Seq (Star ws) shell_commands))).
  - do 7 right. left. reflexivity.
  - change ((N_of_ascii ";" :: sp ++ f) ++ [y])
      with ([N_of_ascii ";"] ++ ((sp ++ f) ++ [y])).
    constructor; [constructor; reflexivity|].
    rewrite <- app_assoc. constructor; [apply star_ws_matches, Hsp|].
    apply Hcmd, word_i_matches; assumption.
  - reflexivity.
  - reflexivity.
  - exact Hy'.
Qed.

Lemma validate_rejects_shell_commands_witness :
  valid (validate (lit "a=1; Cat=2; a+cat")) = false.
Proof.
  assert (In "cat"%string
            ["bash"; "sh"; "rm"; "cat"; "ls"; "pwd"; "chmod"; "chown"]%string)
    as H0 by (vm_compute; auto).
  assert (same_letters "cat" (lit "Cat")) as H1 by (vm_compute; reflexivity).
  assert (forallb is_ws (lit " ") = true) as H2 by (vm_compute; reflexivity).
  exact (validate_rejects_shell_commands (lit "a=1") (lit " ") (lit "Cat")
           (lit "=2; a+cat") "cat" H0 H1 H2).
Defined.

End Keywords.

(** ** Invariants of a process object *)

Section Invariants.
Import BCProcess.
Variable P : t -> Prop.
Hypothesis P_process : forall w c, P w -> P (set_process c w).
Hypothesis P_ready : forall w b, P w -> P (set_isReady b w).
Hypothesis P_step : forall w a, P w -> P (fst (step a w)).

Lemma run_invariant (acts : list Action) : forall w, P w -> P (fst (run acts w)).
Proof.
  induction acts as [|a rest IH]; intros w Hw; [exact Hw|].
  cbn [run]. specialize (P_step w a Hw). destruct (step a w) as [w1 e1].
  specialize (IH w1 P_step). destruct (run rest w1) as [w2 e2]. exact IH.
Qed.

Lemma observe_invariant (acts : list Action) : forall (o : Observation),
  P (fst o) ->
  Forall (fun x => P (fst x)) (observe acts o)
  /\ P (fst (List.last (observe acts o) o)).
Proof.
  induction acts as [|a rest IH]; intros o Ho; [split; [constructor | exact Ho]|].
  cbn [observe]. specialize (P_step (fst o) a Ho).
  destruct (step a (fst o)) as [w1 e1]. cbn [fst] in P_step.
  destruct (IH (w1, snd o ++ e1) P_step) as [H1 H2]. split.
  - constructor; assumption.
  - rewrite last_cons_default. exact H2.
Qed.

Lemma await_invariant (acts : list Action) : forall (o : Observation),
  P (fst o) -> Forall (fun x => P (fst x)) (fst (await acts o)).
Proof.
  induction acts as [|a rest IH]; intros o Ho; [constructor|].
  cbn [await]. specialize (P_step (fst o) a Ho).
  destruct (step a (fst o)) as [w1 e1]. cbn [fst] in P_step.
  destruct (settled e1).
  - repeat constructor. exact P_step.
  - specialize (IH (w1, snd o ++ e1) P_step).
    destruct (await rest (w1, snd o ++ e1)) as [obs r].
    constructor; assumption.
Qed.

Lemma start_ready_invariant we (w : t) : P w -> P (fst (start_ready we w)).
Proof.
  intros Hw. apply (P_step (set_isReady true w) (SetPrecision _ we)).
  apply P_ready, Hw.
Qed.

(** Every state [start()] goes through satisfies an invariant of the
    handlers and methods. *)
Lemma start_invariant (sc : StartScript) (w : t) (w' : t) (done : list Effect) :
  P w -> In (w', done) (fst (start sc w)) -> P w'.
Proof.
  intros Hw. unfold start, start_spawn.
  destruct (spawned sc) as [child|msg].
  2:{ cbn. intros [[= <- _]|[]]. exact Hw. }
  set (o1 := (set_process (Some child) w, [Spawned child])).
  assert (P (fst o1)) as H1 by (apply P_process, Hw).
  destruct (observe_invariant (during_delay sc) o1 H1) as [Hd Hl].
  set (o2 := List.last (observe (during_delay sc) o1) o1) in *.
  pose proof (start_ready_invariant (write_error sc) (fst o2) Hl) as H3.
  destruct (start_ready (write_error sc) (fst o2)) as [w3 e3]. cbn [fst] in H3.
  rewrite List.Forall_forall in Hd.
  destruct (failed_early e3).
  - cbn [fst]. intros [E|Hin]; [subst o1; injection E as <- _; exact H1|].
    apply in_app_iff in Hin as [Hin|[[= <- _]|[]]]; [|exact H3].
    exact (Hd _ Hin).
  - pose proof (await_invariant (during_precision sc) (w3, snd o2 ++ e3) H3) as Ha.
    destruct (await (during_precision sc) (w3, snd o2 ++ e3)) as [obs r].
    cbn [fst] in *. rewrite List.Forall_forall in Ha.
    intros [E|Hin]; [subst o1; injection E as <- _; exact H1|].
    apply in_app_iff in Hin as [Hin|[[= <- _]|Hin]]; [exact (Hd _ Hin)|exact H3|].
    exact (Ha _ Hin).
Qed.
End Invariants.

Section Deadlines.
Import BCProcess.

(** *** Deadlines *)

Lemma tidy_frame (w w' : t) :
  pendingRequest w' = pendingRequest w -> timers w' = timers w ->
  tidy w -> tidy w'.
Proof. unfold tidy. intros -> ->. auto. Qed.

Lemma filter_other_timer (id : nat) (ms : Z) :
  List.filter (fun x : nat * Z => negb (fst x =? id)%nat) [(id, ms)] = [].
Proof. cbn. rewrite Nat.eqb_refl. reflexivity. Qed.

Lemma rejectPendingRequest_tidy e (w : t) :
  tidy w -> tidy (fst (rejectPendingRequest e w)).
Proof.
  unfold tidy, rejectPendingRequest.
  destruct (pendingRequest w) as [p|] eqn:Hp; [|cbn; rewrite Hp; auto].
  intros (id & ms & Ht & Hl). rewrite Ht. cbn. rewrite Hl.
  apply filter_other_timer.
Qed.

Lemma resolvePendingRequest_tidy v (w : t) :
  tidy w -> tidy (fst (resolvePendingRequest v w)).
Proof.
  unfold tidy, resolvePendingRequest.
  destruct (pendingRequest w) as [p|] eqn:Hp; [|cbn; rewrite Hp; auto].
  intros (id & ms & Ht & Hl). rewrite Ht. cbn.
  destruct (resolve p); cbn; rewrite Hl; apply filter_other_timer.
Qed.

Lemma kill_tidy (w : t) : tidy w -> tidy (fst (kill w)).
Proof.
  unfold kill. destruct (process w); [|auto]. apply tidy_frame; reflexivity.
Qed.

Lemma evaluate_for_tidy k e tmo we (w : t) :
  tidy w -> tidy (fst (evaluate_for k e tmo we w)).
Proof.
  intros Hw. unfold evaluate_for.
  destruct (_ || _); [exact Hw|].
  destruct (present (pendingRequest w)) eqn:Hp; [exact Hw|].
  assert (timers w = []) as Ht.
  { unfold tidy in Hw. destruct (pendingRequest w); [discriminate | exact Hw]. }
  destruct we as [msg|].
  - unfold rejectPendingRequest. cbn. rewrite Ht. cbn.
    rewrite Nat.eqb_refl. reflexivity.
  - cbn. unfold tidy. cbn. rewrite Ht. eauto.
Qed.

Lemma step_tidy (w : t) (a : Action) : tidy w -> tidy (fst (step a w)).
Proof.
  intros Hw. destruct a; cbn [step].
  - unfold on_stdout. destruct (_ <=? _)%nat.
    + destruct (_ && _).
      * apply resolvePendingRequest_tidy. revert Hw. apply tidy_frame; reflexivity.
      * revert Hw. apply tidy_frame; reflexivity.
    + revert Hw. apply tidy_frame; reflexivity.
  - unfold on_stderr. destruct (_ && _).
    + apply rejectPendingRequest_tidy. revert Hw. apply tidy_frame; reflexivity.
    + revert Hw. apply tidy_frame; reflexivity.
  - apply rejectPendingRequest_tidy. revert Hw. apply tidy_frame; reflexivity.
  - apply rejectPendingRequest_tidy. revert Hw. apply tidy_frame; reflexivity.
  - destruct (List.find _ _) as [[i ms]|] eqn:Hf; [|exact Hw].
    unfold tidy in Hw. destruct (pendingRequest w) as [p|] eqn:Hp.
    2:{ rewrite Hw in Hf. discriminate. }
    destruct Hw as (id' & ms' & Ht & Hl). rewrite Hl in Hf. cbn in Hf.
    destruct (Nat.eqb_spec id' id) as [->|Hne]; [|discriminate].
    unfold on_timeout, rejectPendingRequest. cbn. rewrite Hp, Ht, Hl. cbn.
    rewrite Nat.eqb_refl. cbn.
    unfold kill. cbn. destruct (process w); reflexivity.
  - apply evaluate_for_tidy, Hw.
  - unfold setPrecision. destruct (_ || _); [exact Hw|].
    apply evaluate_for_tidy, Hw.
  - apply kill_tidy, Hw.
  - exact Hw.
Qed.

Lemma reached_tidy (o : BCProcessOptions) (sc : StartScript) (acts : list Action)
    (w' : t) (done : list Effect) :
  In (w', done) (fst (start sc (new o))) -> tidy (fst (run acts w')).
Proof.
  intros Hin. apply run_invariant; [apply step_tidy|].
  revert Hin. apply start_invariant.
  - intros w c. apply tidy_frame; reflexivity.
  - intros w b. apply tidy_frame; reflexivity.
  - apply step_tidy.
  - reflexivity.
Qed.

(** X8: in every state a process object reaches, at any point of
    [start()] and after any sequence of events and calls that follows, a
    pending request has exactly one live timer, its own deadline; when
    that deadline fires, the request is rejected with [BC_TIMEOUT] and
    the message naming the delay, no request and no timer is left, the
    process handle is dropped and [isAvailable()] is false. *)
Theorem pending_request_has_one_deadline
    (o : BCProcessOptions) (sc : StartScript) (acts : list Action)
    (w' : t) (done : list Effect) (p : PendingRequest) :
  In (w', done) (fst (start sc (new o))) ->
  let w := fst (run acts w') in
  pendingRequest w = Some p ->
  exists id ms,
    timer p = Some id /\ timers w = [(id, ms)]
    /\ let r := step (TimerFire id) w in
       settled (snd r)
       = Some (inr (mkError (lit "Calculation timeout after " ++ num_to_string ms
                             ++ lit "ms") BC_TIMEOUT))
       /\ pendingRequest (fst r) = None /\ timers (fst r) = []
       /\ process (fst r) = None /\ isAvailable (fst r) = false.
Proof.
  intros Hin w Hp. pose proof (reached_tidy o sc acts w' done Hin) as Ht.
  fold w in Ht. unfold tidy in Ht. rewrite Hp in Ht.
  destruct Ht as (id & ms & Htm & Hl). exists id, ms.
  split; [exact Htm|]. split; [exact Hl|].
  cbn [step]. rewrite Hl. cbn [List.find fst]. rewrite Nat.eqb_refl.
  unfold on_timeout, rejectPendingRequest. cbn. rewrite Hp, Htm. cbn.
  rewrite Nat.eqb_refl. cbn. unfold kill. setters.
  destruct (process w) eqn:Hpr; cbn; unfold isAvailable; setters;
    rewrite ?Hpr; cbn; rewrite ?andb_false_r; auto 10.
Qed.

Lemma pending_request_has_one_deadline_witness :
  exists id ms,
    timer (mkPending ToCaller (Some 1%nat)) = Some id
    /\ timers (fst (run [Evaluate (lit "1/0") None None; Kill] Scenario.ready))
       = [(id, ms)].
Proof.
  assert (In (Scenario.ready,
              [Spawned Scenario.child; TimerSet 0 30000;
               Wrote (lit "scale=" ++ num_to_string 20 ++ newline);
               TimerCleared 0; Resolved (lit "0")])
            (fst (start (mkScript (inl Scenario.child) [] None
                           [StdoutData (lit "0" ++ newline)])
                    (new Scenario.opts)))) as H1
      by (vm_compute; auto).
  assert (pendingRequest
            (fst (run [Evaluate (lit "1/0") None None; Kill] Scenario.ready))
          = Some (mkPending ToCaller (Some 1%nat))) as H2
      by (vm_compute; reflexivity).
  destruct (pending_request_has_one_deadline _ _ _ _ _ _ H1 H2)
    as (id & ms & Ha & Hb & _).
  exists id, ms. split; assumption.
Defined.



End Deadlines.

(** ** Requests, writes and the ready flag *)

Section Requests.
Import BCProcess.

(** *** What a handler or call leaves alone *)

Lemma rejectPendingRequest_fields e (w : t) :
  let r := rejectPendingRequest e w in
  process (fst r) = process w /\ isReady (fst r) = isReady w
  /\ currentPrecision (fst r) = currentPrecision w
  /\ outputBuffer (fst r) = outputBuffer w /\ errorBuffer (fst r) = errorBuffer w
  /\ forallb quiet (snd r) = true
  /\ (forall v, ~ In (Resolved v) (snd r))
  /\ (pendingRequest w = None -> r = (w, [])).
Proof.
  unfold rejectPendingRequest. destruct (pendingRequest w) as [p|] eqn:Hp.
  - destruct (timer p); cbn; repeat split; auto; try discriminate;
      intros v H; repeat (destruct H as [H|H]; [discriminate|]); exact H.
  - cbn. repeat split; auto.
Qed.

Lemma resolvePendingRequest_fields v (w : t) :
  let r := resolvePendingRequest v w in
  process (fst r) = process w /\ isReady (fst r) = isReady w
  /\ forallb quiet (snd r) = true
  /\ (forall v', In (Resolved v') (snd r) -> v' = v /\ is_Some (pendingRequest w))
  /\ (pendingRequest w = None -> r = (w, [])).
Proof.
  unfold resolvePendingRequest. destruct (pendingRequest w) as [p|] eqn:Hp.
  - destruct (timer p), (resolve p); cbn; repeat split; eauto; try discriminate;
      try (repeat (destruct H as [H|H]; [try discriminate; congruence|]);
           contradiction).
  - cbn. repeat split; auto; contradiction.
Qed.

Lemma kill_fields (w : t) :
  let r := kill w in
  isReady (fst r) = (if present (process w) then false else isReady w)
  /\ process (fst r) = None
  /\ currentPrecision (fst r) = currentPrecision w
  /\ pendingRequest (fst r) = pendingRequest w
  /\ timers (fst r) = timers w
  /\ forallb quiet (snd r) = true
  /\ (forall v, ~ In (Resolved v) (snd r)).
Proof.
  unfold kill. destruct (process w) eqn:Hp; cbn; repeat split; auto;
    intros v [H|[]]; discriminate.
Qed.

Lemma evaluate_for_cases k e tmo we (w : t) :
  let r := evaluate_for k e tmo we w in
  (exists err, r = (w, [Threw err]) /\ code err = BC_NOT_READY
               /\ (isReady w = false ->
                   err = mkError (lit "BC process not ready") BC_NOT_READY))
  \/ (isAvailable w = true /\ has_stdin w = true
      /\ snd r = accepted_effects k e tmo we w
      /\ isReady (fst r) = true /\ process (fst r) = process w
      /\ currentPrecision (fst r) = currentPrecision w
      /\ options (fst r) = options w
      /\ pendingRequest (fst r)
         = match we with
           | None => Some (mkPending k (Some (timer_seq w)))
           | Some _ => None
           end).
Proof.
  unfold evaluate_for.
  destruct (isReady w) eqn:Hr; cbn [negb orb].
  2:{ left. eexists. split; [reflexivity|]. split; reflexivity. }
  destruct (present (process w)) eqn:Hpr; cbn [negb orb].
  2:{ left. eexists. split; [reflexivity|]. split; [reflexivity | discriminate]. }
  destruct (has_stdin w) eqn:Hs; cbn [negb orb].
  2:{ left. eexists. split; [reflexivity|]. split; [reflexivity | discriminate]. }
  destruct (present (pendingRequest w)) eqn:Hp.
  { left. eexists. split; [reflexivity|]. split; [reflexivity | discriminate]. }
  right. unfold isAvailable. rewrite Hr, Hp, Hpr.
  split; [reflexivity|]. split; [reflexivity|].
  destruct we as [msg|]; cbn.
  - unfold rejectPendingRequest. cbn. repeat split; auto.
  - repeat split; auto.
Qed.

(** Every step either has quiet effects or is an accepted request. *)
Lemma step_cases (a : Action) (w : t) :
  forallb quiet (snd (step a w)) = true
  \/ (isAvailable w = true /\ has_stdin w = true
      /\ exists k e tmo we,
           (a = Evaluate e tmo we /\ k = ToCaller
            \/ exists scale,
                 a = SetPrecision scale we /\ in_range scale = true
                 /\ k = ToSetPrecision scale
                 /\ e = lit "scale=" ++ printed scale /\ tmo = None)
           /\ snd (step a w) = accepted_effects k e tmo we w
           /\ pendingRequest (fst (step a w))
              = match we with
                | None => Some (mkPending k (Some (timer_seq w)))
                | Some _ => None
                end).
Proof.
  destruct a as [data|data|c sg|msg|id|expression tmo write_error|scale write_error| |msg];
    cbn [step].
  - left. unfold on_stdout. destruct (_ <=? _)%nat; [|reflexivity].
    destruct (_ && _); [|reflexivity]. apply resolvePendingRequest_fields.
  - left. unfold on_stderr. destruct (_ && _); [|reflexivity].
    apply rejectPendingRequest_fields.
  - left. apply rejectPendingRequest_fields.
  - left. apply rejectPendingRequest_fields.
  - left. destruct (List.find _ _) as [[i ms]|]; [|reflexivity].
    unfold on_timeout.
    match goal with |- context [rejectPendingRequest ?e ?x] =>
      pose proof (rejectPendingRequest_fields e x) as H;
      destruct (rejectPendingRequest e x) as [w1 e1] end.
    pose proof (kill_fields w1) as H'. destruct (kill w1) as [w2 e2].
    cbn [fst snd] in *. rewrite forallb_app.
    destruct H as (_ & _ & _ & _ & _ & -> & _).
    destruct H' as (_ & _ & _ & _ & _ & -> & _). reflexivity.
  - unfold evaluate.
    destruct (evaluate_for_cases ToCaller expression tmo write_error w)
      as [(err & -> & _)|(Ha & Hs & He & _ & _ & _ & _ & Hp)]; [left; reflexivity|].
    right. split; [exact Ha|]. split; [exact Hs|].
    exists ToCaller, expression, tmo, write_error. auto.
  - unfold setPrecision.
    destruct (below_zero scale || above_hundred scale) eqn:Hg; [left; reflexivity|].
    destruct (evaluate_for_cases (ToSetPrecision scale)
                (lit "scale=" ++ printed scale) None write_error w)
      as [(err & -> & _)|(Ha & Hs & He & _ & _ & _ & _ & Hp)]; [left; reflexivity|].
    right. split; [exact Ha|]. split; [exact Hs|].
    exists (ToSetPrecision scale), (lit "scale=" ++ printed scale), None,
      write_error.
    split; [|auto]. right. exists scale.
    unfold in_range. rewrite Hg. repeat split; auto.
  - left. apply kill_fields.
  - left. reflexivity.
Qed.

Lemma quiet_not_wrote (es : list Effect) text :
  forallb quiet es = true -> ~ In (Wrote text) es.
Proof.
  rewrite forallb_forall. intros H Hin. specialize (H _ Hin). discriminate.
Qed.

Lemma quiet_not_armed (es : list Effect) id ms :
  forallb quiet es = true -> ~ In (TimerSet id ms) es.
Proof.
  rewrite forallb_forall. intros H Hin. specialize (H _ Hin). discriminate.
Qed.

(** X10: whenever a handler or a call writes to the input stream of the
    engine, the object was available before (ready, with a process, no
    request pending); the text written is the expression of an
    [evaluate], or the statement scale=N of a [setPrecision(N)] whose
    argument passed the range check (N is not below 0 and not above
    100, which an integer between 0 and 100 is, and [NaN] too), followed
    by one newline; the step armed one deadline timer and did nothing
    else, and a request is pending afterwards.  So nothing is written
    while a request is pending or while the object is not ready. *)
Theorem writes_only_for_accepted_requests (a : Action) (w : t) (text : jsstring) :
  In (Wrote text) (snd (step a w)) ->
  isAvailable w = true
  /\ has_stdin w = true
  /\ ((exists tmo, a = Evaluate (removelast text) tmo None)
      \/ (exists scale,
            a = SetPrecision scale None /\ in_range scale = true
            /\ removelast text = lit "scale=" ++ printed scale))
  /\ last text = Some 10%N
  /\ (exists ms, snd (step a w) = [TimerSet (timer_seq w) ms; Wrote text])
  /\ is_Some (pendingRequest (fst (step a w))).
Proof.
  intros Hin. destruct (step_cases a w) as [Hq|(Ha & Hs & k & e & tmo & we & Hk & He & Hp)].
  { destruct (quiet_not_wrote _ text Hq Hin). }
  rewrite He in Hin |- *. unfold accepted_effects in *.
  destruct we as [msg|].
  { repeat (destruct Hin as [Hin|Hin]; [discriminate|]). contradiction. }
  destruct Hin as [Hin|[Hin|[]]]; [discriminate|]. injection Hin as <-.
  unfold newline. rewrite removelast_last, last_snoc.
  split; [exact Ha|]. split; [exact Hs|]. split.
  - destruct Hk as [[-> _]|(scale & -> & Hr & _ & -> & _)];
      [left; exists tmo; reflexivity | right; exists scale; auto].
  - split; [reflexivity|]. split; [eauto|]. rewrite Hp. eauto.
Qed.

Lemma writes_only_for_accepted_requests_witness :
  isAvailable Scenario.ready = true
  /\ ((exists tmo, SetPrecision NaN None = Evaluate (removelast (lit "scale=NaN" ++ newline)) tmo None)
      \/ (exists scale,
            SetPrecision NaN None = SetPrecision scale None /\ in_range scale = true
            /\ removelast (lit "scale=NaN" ++ newline) = lit "scale=" ++ printed scale)).
Proof.
  assert (In (Wrote (lit "scale=NaN" ++ newline))
            (snd (step (SetPrecision NaN None) Scenario.ready))) as H
      by (vm_compute; auto).
  destruct (writes_only_for_accepted_requests _ _ _ H) as (Ha & _ & Hk & _).
  split; assumption.
Defined.

(** *** Once the ready flag is cleared *)

Lemma step_not_ready (a : Action) (w : t) :
  isReady w = false ->
  isReady (fst (step a w)) = false /\ forallb quiet (snd (step a w)) = true.
Proof.
  intros Hr. split.
  2:{ destruct (step_cases a w) as [Hq|(Ha & _)]; [exact Hq|].
      apply isAvailable_spec in Ha as [Ha _]. congruence. }
  destruct a; cbn [step].
  - unfold on_stdout. destruct (_ <=? _)%nat; [|exact Hr].
    destruct (_ && _); [|exact Hr].
    match goal with |- context [resolvePendingRequest ?v ?x] =>
      destruct (resolvePendingRequest_fields v x) as (_ & -> & _) end. exact Hr.
  - unfold on_stderr. destruct (_ && _); [|exact Hr].
    match goal with |- context [rejectPendingRequest ?v ?x] =>
      destruct (rejectPendingRequest_fields v x) as (_ & -> & _) end. exact Hr.
  - unfold on_exit.
    match goal with |- context [rejectPendingRequest ?v ?x] =>
      destruct (rejectPendingRequest_fields v x) as (_ & -> & _) end. reflexivity.
  - unfold on_error.
    match goal with |- context [rejectPendingRequest ?v ?x] =>
      destruct (rejectPendingRequest_fields v x) as (_ & -> & _) end. reflexivity.
  - destruct (List.find _ _) as [[i ms]|]; [|exact Hr]. unfold on_timeout.
    match goal with |- context [rejectPendingRequest ?e ?x] =>
      pose proof (rejectPendingRequest_fields e x) as H;
      destruct (rejectPendingRequest e x) as [w1 e1] end.
    pose proof (kill_fields w1) as H'. destruct (kill w1) as [w2 e2].
    cbn [fst snd] in *. destruct H as (_ & H & _). destruct H' as (-> & _).
    rewrite H. cbn. rewrite Hr. destruct (present _); reflexivity.
  - unfold evaluate, evaluate_for. rewrite Hr. exact Hr.
  - unfold setPrecision, evaluate_for. rewrite Hr.
    destruct (_ || _); exact Hr.
  - destruct (kill_fields w) as (-> & _). rewrite Hr.
    destruct (present _); reflexivity.
  - exact Hr.
Qed.

Lemma run_not_ready (acts : list Action) : forall (w : t),
  isReady w = false ->
  isReady (fst (run acts w)) = false /\ forallb quiet (snd (run acts w)) = true.
Proof.
  induction acts as [|a rest IH]; intros w Hr; [auto|].
  cbn [run]. destruct (step_not_ready a w Hr) as [H1 H2].
  destruct (step a w) as [w1 e1]. cbn [fst snd] in *.
  destruct (IH w1 H1) as [H3 H4]. destruct (run rest w1) as [w2 e2].
  cbn [fst snd] in *. rewrite forallb_app, H2, H4. auto.
Qed.

Lemma halts_not_ready (a : Action) (w : t) :
  halts a w = true -> isReady (fst (step a w)) = false.
Proof.
  destruct a; cbn [halts step]; try discriminate.
  - intros _. unfold on_exit.
    match goal with |- context [rejectPendingRequest ?v ?x] =>
      destruct (rejectPendingRequest_fields v x) as (_ & -> & _) end. reflexivity.
  - intros _. unfold on_error.
    match goal with |- context [rejectPendingRequest ?v ?x] =>
      destruct (rejectPendingRequest_fields v x) as (_ & -> & _) end. reflexivity.
  - intros H. apply andb_true_iff in H as [Hf Hp].
    destruct (List.find _ _) as [[i ms]|] eqn:Hfind.
    2:{ apply existsb_exists in Hf as (x & Hx & Hid).
        eapply find_none in Hfind; [|exact Hx]. cbn in Hfind. congruence. }
    unfold on_timeout.
    match goal with |- context [rejectPendingRequest ?e ?x] =>
      pose proof (rejectPendingRequest_fields e x) as H;
      destruct (rejectPendingRequest e x) as [w1 e1] end.
    pose proof (kill_fields w1) as H'. destruct (kill w1) as [w2 e2].
    cbn [fst snd] in *. destruct H as (H & _). destruct H' as (-> & _).
    rewrite H. cbn. rewrite Hp. reflexivity.
  - intros Hp. destruct (kill_fields w) as (-> & _). rewrite Hp. reflexivity.
Qed.

Lemma observe_length (acts : list Action) : forall (o : Observation),
  length (observe acts o) = length acts.
Proof.
  induction acts as [|a rest IH]; intros o; [reflexivity|].
  cbn [observe]. destruct (step a (fst o)) as [w1 e1]. cbn [length].
  rewrite IH. reflexivity.
Qed.

Lemma skipn_length_app {A} (l k : list A) : skipn (length l) (l ++ k) = k.
Proof. induction l as [|x l IH]; [reflexivity | exact IH]. Qed.

(** [past_delay] is what its name says: the observation made when
    [start()] has set the ready flag and called [setPrecision], and
    those made while [start()] awaits the answer. *)
Lemma past_delay_spawned (sc : StartScript) (w : t) (child : ChildProcess) :
  spawned sc = inl child ->
  let o1 := (set_process (Some child) w, [Spawned child]) in
  let o2 := List.last (observe (during_delay sc) o1) o1 in
  let r3 := start_ready (write_error sc) (fst o2) in
  let o3 := (fst r3, snd o2 ++ snd r3) in
  isReady (fst (start_ready (write_error sc) (fst o2))) = true
  /\ past_delay sc w
     = o3 :: match failed_early (snd r3) with
             | Some _ => []
             | None => fst (await (during_precision sc) o3)
             end.
Proof.
  intros Hs. cbv zeta. split.
  { unfold start_ready, setPrecision, evaluate_for. setters.
    cbn [negb orb]. repeat (destruct (_ || _) || destruct (present _));
      try reflexivity.
    destruct (write_error sc); reflexivity. }
  unfold past_delay, start, start_spawn. rewrite Hs.
  rewrite <- (observe_length (during_delay sc)
                (set_process (Some child) w, [Spawned child])).
  destruct (start_ready _ _) as [w3 e3]. cbn [fst snd].
  destruct (failed_early e3).
  - cbn [fst skipn]. apply skipn_length_app.
  - destruct (await _ _) as [obs r]. cbn [fst skipn]. apply skipn_length_app.
Qed.

(** X11: [start()] sets the ready flag once, at the end of its delay,
    whatever happened to the child during the delay; nothing else sets
    it.  So for an object whose [start()] is past its delay (at any
    point of that [start()] after the delay, and after any events and
    calls that follow; [start()] is not called a second time) the flag,
    once cleared, stays cleared: after the exit event or the error
    event of the child, after [kill()] of a live child, and after a
    deadline fired on a live child, whatever events and calls follow,
    [isAvailable()] is false, nothing is written to the engine, no timer
    is armed, and every [evaluate] throws [BC_NOT_READY] (BC process
    not ready) and leaves the object as it is. *)
Theorem not_ready_is_final
    (o : BCProcessOptions) (sc : StartScript) (w' : t) (done : list Effect)
    (before : list Action) (a : Action) (after : list Action) :
  In (w', done) (past_delay sc (new o)) ->
  let w := fst (run before w') in
  halts a w = true ->
  let r := run after (fst (step a w)) in
  isReady (fst r) = false
  /\ isAvailable (fst r) = false
  /\ (forall text, ~ In (Wrote text) (snd r))
  /\ (forall id ms, ~ In (TimerSet id ms) (snd r))
  /\ forall e tmo we,
       evaluate e tmo we (fst r)
       = (fst r, [Threw (mkError (lit "BC process not ready") BC_NOT_READY)]).
Proof.
  intros _ w Hh r. apply halts_not_ready in Hh.
  destruct (run_not_ready after _ Hh) as [Hr Hq]. fold r in Hr, Hq.
  split; [exact Hr|]. split; [unfold isAvailable; rewrite Hr; reflexivity|].
  split; [intros text; apply quiet_not_wrote, Hq|].
  split; [intros id ms; apply quiet_not_armed, Hq|].
  intros e tmo we. unfold evaluate, evaluate_for. rewrite Hr. reflexivity.
Qed.

Lemma not_ready_is_final_witness :
  isAvailable
    (fst (run [StdoutData (lit "4" ++ newline); Evaluate (lit "2+2") None None]
            (fst (step (ExitEvent (Some 1) None)
                    (fst (run [Evaluate (lit "1/0") None None] Scenario.ready))))))
  = false.
Proof.
  assert (In (Scenario.ready,
              [Spawned Scenario.child; TimerSet 0 30000;
               Wrote (lit "scale=" ++ num_to_string 20 ++ newline);
               TimerCleared 0; Resolved (lit "0")])
            (past_delay (mkScript (inl Scenario.child) [] None
                           [StdoutData (lit "0" ++ newline)])
               (new Scenario.opts))) as H1
      by (vm_compute; auto).
  assert (halts (ExitEvent (Some 1) None)
            (fst (run [Evaluate (lit "1/0") None None] Scenario.ready)) = true) as H2
      by reflexivity.
  exact (proj1 (proj2 (not_ready_is_final _ _ _ _
           [Evaluate (lit "1/0") None None] (ExitEvent (Some 1) None)
           [StdoutData (lit "4" ++ newline); Evaluate (lit "2+2") None None]
           H1 H2))).
Defined.

(** Before that point the flag is not final: a child that exits during
    the delay of [start()] is marked ready all the same when the delay
    is over, and the precision statement is written to it. *)
Lemma ready_after_exit_in_delay :
  let sc := mkScript (inl Scenario.child) [ExitEvent (Some 1) None] None [] in
  exists w' done,
    In (w', done) (past_delay sc (new Scenario.opts))
    /\ isReady w' = true
    /\ In (Wrote (lit "scale=20" ++ newline)) done.
Proof.
  cbv zeta. eexists _, _. split; [vm_compute; left; reflexivity|].
  split; [reflexivity | vm_compute; auto].
Qed.

End Requests.

(** ** Precision, results and stale output *)

Section Answers.
Import BCProcess.

Lemma rejectPendingRequest_pending e (w : t) :
  pendingRequest (fst (rejectPendingRequest e w)) = None.
Proof.
  unfold rejectPendingRequest. destruct (pendingRequest w) as [p|] eqn:Hp; [|exact Hp].
  destruct (timer p); reflexivity.
Qed.

Lemma resolvePendingRequest_pending v (w : t) :
  pendingRequest (fst (resolvePendingRequest v w)) = None.
Proof.
  unfold resolvePendingRequest. destruct (pendingRequest w) as [p|] eqn:Hp; [|exact Hp].
  destruct (timer p), (resolve p); reflexivity.
Qed.

Lemma present_Some {A} (o : option A) : present o = true -> exists x, o = Some x.
Proof. destruct o; [eauto | discriminate]. Qed.

(** *** The reported precision *)

(** A step changes the reported precision only by answering a pending
    [setPrecision], and a new precision request was checked. *)
Lemma step_precision (a : Action) (w : t) :
  (currentPrecision (fst (step a w)) = currentPrecision w
   \/ exists scale tm data v,
        a = StdoutData data
        /\ pendingRequest w = Some (mkPending (ToSetPrecision scale) tm)
        /\ snd (step a w) = cleared (mkPending (ToSetPrecision scale) tm) ++ [Resolved v]
        /\ currentPrecision (fst (step a w)) = scale)
  /\ forall scale tm,
       pendingRequest (fst (step a w)) = Some (mkPending (ToSetPrecision scale) tm) ->
       pendingRequest w = Some (mkPending (ToSetPrecision scale) tm)
       \/ in_range scale = true.
Proof.
  destruct a as [data|data|c sg|msg|id|expression tmo we|scale we| |msg]; cbn [step].
  - unfold on_stdout. destruct (_ <=? _)%nat; [|split; auto].
    destruct (0 <? _)%nat; cbn [andb]; [|split; auto].
    destruct (present (pendingRequest w)) eqn:Hp; [|split; auto].
    apply present_Some in Hp as [p Hp].
    match goal with |- context [resolvePendingRequest ?v ?x] =>
      pose proof (resolvePendingRequest_spec v x p Hp) as H;
      pose proof (resolvePendingRequest_pending v x) as H';
      destruct (resolvePendingRequest v x) as [w1 e1] end.
    cbn [fst snd] in *. destruct H as (He & _ & _ & _ & _ & Hc & _).
    split; [|intros scale tm E; congruence].
    destruct p as [[|scale] tm]; cbn in Hc; [left; exact Hc|].
    right. exists scale, tm, data. eauto.
  - unfold on_stderr. destruct (_ && _); [|split; auto].
    match goal with |- context [rejectPendingRequest ?v ?x] =>
      pose proof (rejectPendingRequest_fields v x) as H;
      pose proof (rejectPendingRequest_pending v x) as H';
      destruct (rejectPendingRequest v x) as [w1 e1] end.
    cbn [fst snd] in *. destruct H as (_ & _ & Hc & _).
    split; [left; exact Hc | intros scale tm E; congruence].
  - unfold on_exit.
    match goal with |- context [rejectPendingRequest ?v ?x] =>
      pose proof (rejectPendingRequest_fields v x) as H;
      pose proof (rejectPendingRequest_pending v x) as H';
      destruct (rejectPendingRequest v x) as [w1 e1] end.
    cbn [fst snd] in *. destruct H as (_ & _ & Hc & _).
    split; [left; exact Hc | intros scale tm E; congruence].
  - unfold on_error.
    match goal with |- context [rejectPendingRequest ?v ?x] =>
      pose proof (rejectPendingRequest_fields v x) as H;
      pose proof (rejectPendingRequest_pending v x) as H';
      destruct (rejectPendingRequest v x) as [w1 e1] end.
    cbn [fst snd] in *. destruct H as (_ & _ & Hc & _).
    split; [left; exact Hc | intros scale tm E; congruence].
  - destruct (List.find _ _) as [[i ms]|]; [|split; auto]. unfold on_timeout.
    match goal with |- context [rejectPendingRequest ?v ?x] =>
      pose proof (rejectPendingRequest_fields v x) as H;
      pose proof (rejectPendingRequest_pending v x) as H';
      destruct (rejectPendingRequest v x) as [w1 e1] end.
    pose proof (kill_fields w1) as Hk. destruct (kill w1) as [w2 e2].
    cbn [fst snd] in *. destruct H as (_ & _ & Hc & _).
    destruct Hk as (_ & _ & Hc2 & Hp2 & _).
    cbn [set_timers currentPrecision] in Hc.
    split; [left; congruence | intros scale tm E; congruence].
  - unfold evaluate.
    destruct (evaluate_for_cases ToCaller expression tmo we w)
      as [(err & -> & _)|(_ & _ & _ & _ & _ & Hc & _ & Hp)]; [split; auto|].
    split; [left; exact Hc|]. intros scale tm E. rewrite Hp in E.
    destruct we; discriminate.
  - unfold setPrecision.
    destruct (below_zero scale || above_hundred scale) eqn:Hg; [split; auto|].
    destruct (evaluate_for_cases (ToSetPrecision scale)
                (lit "scale=" ++ printed scale) None we w)
      as [(err & -> & _)|(_ & _ & _ & _ & _ & Hc & _ & Hp)]; [split; auto|].
    split; [left; exact Hc|]. intros scale' tm E. rewrite Hp in E.
    destruct we; [discriminate|]. injection E as <- _. right.
    unfold in_range. rewrite Hg. reflexivity.
  - destruct (kill_fields w) as (_ & _ & Hc & Hp & _).
    split; [left; exact Hc|]. intros scale tm E. left. congruence.
  - split; auto.
Qed.

(** X13: a handler or a call changes the value of [getPrecision()] in
    one case only: output of the engine resolves the pending request of
    a [setPrecision(scale)], and the new value is [scale].  A
    [setPrecision] that is refused, rejected or timed out leaves the
    value as it was. *)
Theorem getPrecision_changes_on_answer (a : Action) (w : t) :
  getPrecision (fst (step a w)) <> getPrecision w ->
  exists scale tm data v,
    a = StdoutData data
    /\ pendingRequest w = Some (mkPending (ToSetPrecision scale) tm)
    /\ snd (step a w) = cleared (mkPending (ToSetPrecision scale) tm) ++ [Resolved v]
    /\ getPrecision (fst (step a w)) = scale.
Proof.
  unfold getPrecision. intros Hne.
  destruct (step_precision a w) as [[H|H] _]; [contradiction | exact H].
Qed.

Lemma getPrecision_changes_on_answer_witness :
  exists scale tm data v,
    StdoutData (lit "0" ++ newline) = StdoutData data
    /\ pendingRequest (fst (step (SetPrecision 5 None) Scenario.ready))
       = Some (mkPending (ToSetPrecision scale) tm)
    /\ snd (step (StdoutData (lit "0" ++ newline))
              (fst (step (SetPrecision 5 None) Scenario.ready)))
       = cleared (mkPending (ToSetPrecision scale) tm) ++ [Resolved v]
    /\ getPrecision (fst (step (StdoutData (lit "0" ++ newline))
                            (fst (step (SetPrecision 5 None) Scenario.ready))))
       = scale.
Proof.
  assert (getPrecision (fst (step (StdoutData (lit "0" ++ newline))
                               (fst (step (SetPrecision 5 None) Scenario.ready))))
          <> getPrecision (fst (step (SetPrecision 5 None) Scenario.ready))) as H
      by (vm_compute; discriminate).
  exact (getPrecision_changes_on_answer _ _ H).
Defined.

Lemma step_scales_checked (w : t) (a : Action) :
  scales_checked w -> scales_checked (fst (step a w)).
Proof.
  intros [Hc Hs]. destruct (step_precision a w) as [Hc' Hs']. split.
  - rewrite step_options.
    destruct Hc' as [->|(scale & tm & data & v & _ & Hp & _ & ->)]; [exact Hc|].
    right. eapply Hs, Hp.
  - intros scale tm E. destruct (Hs' scale tm E) as [H|H]; [|exact H].
    eapply Hs, H.
Qed.

Lemma start_returns_checked (o : BCProcessOptions) (sc : StartScript) :
  snd (start sc (new o)) = Some None -> in_range (precision o) = true.
Proof.
  unfold start, start_spawn. destruct (spawned sc) as [child|msg]; [|discriminate].
  set (o1 := (set_process (Some child) (new o), [Spawned child])).
  pose proof (observe_options (during_delay sc) o1) as Ho.
  set (o2 := List.last (observe (during_delay sc) o1) o1) in *.
  change (options (fst o1)) with o in Ho.
  unfold start_ready, setPrecision, in_range.
  change (options (set_isReady true (fst o2))) with (options (fst o2)).
  rewrite ?Ho.
  destruct (below_zero (precision o) || above_hundred (precision o));
    [discriminate | reflexivity].
Qed.

Lemma in_range_of_Z (z : Z) : in_range (of_Z z) = true <-> 0 <= z <= 100.
Proof.
  unfold in_range, of_Z. cbn [below_zero above_hundred].
  rewrite negb_true_iff, orb_false_iff, Z.gtb_ltb, !Z.ltb_ge. tauto.
Qed.

(** X12: if [start()] returned normally, then at every point of that
    [start()] and after any sequence of events and calls that follows,
    the value of [getPrecision()] has passed the range check of
    [setPrecision]: it is not below 0 and not above 100.  So if it is an
    integer, it is between 0 and 100.  (It can be [NaN], which the
    check lets through.) *)
Theorem getPrecision_in_range
    (o : BCProcessOptions) (sc : StartScript) (acts : list Action)
    (w' : t) (done : list Effect) :
  snd (start sc (new o)) = Some None ->
  In (w', done) (fst (start sc (new o))) ->
  in_range (getPrecision (fst (run acts w'))) = true
  /\ forall z, getPrecision (fst (run acts w')) = of_Z z -> 0 <= z <= 100.
Proof.
  intros Hs Hin. apply start_returns_checked in Hs.
  assert (in_range (getPrecision (fst (run acts w'))) = true) as Hr.
  { assert (options (fst (run acts w')) = o /\ scales_checked (fst (run acts w')))
      as [Ho [[Hc|Hc] _]]; [|unfold getPrecision; congruence | exact Hc].
    apply (run_invariant (fun w => options w = o /\ scales_checked w)).
    { intros w a [H1 H2]. split; [rewrite step_options; exact H1|].
      apply step_scales_checked, H2. }
    revert Hin. apply (start_invariant (fun w => options w = o /\ scales_checked w)).
    - intros w c H. exact H.
    - intros w b H. exact H.
    - intros w a [H1 H2]. split; [rewrite step_options; exact H1|].
      apply step_scales_checked, H2.
    - split; [reflexivity|]. split; [left; reflexivity | discriminate]. }
  split; [exact Hr|]. intros z E. rewrite E in Hr. apply in_range_of_Z, Hr.
Qed.

Lemma getPrecision_in_range_witness :
  in_range
    (getPrecision
       (fst (run [SetPrecision 5 None; StdoutData (lit "0" ++ newline);
                  SetPrecision 500 None; SetPrecision NaN None;
                  StdoutData (lit "0" ++ newline)]
               Scenario.ready))) = true.
Proof.
  assert (snd (start (mkScript (inl Scenario.child) [] None
                        [StdoutData (lit "0" ++ newline)])
                 (new Scenario.opts)) = Some None) as H0
      by (vm_compute; reflexivity).
  assert (In (Scenario.ready,
              [Spawned Scenario.child; TimerSet 0 30000;
               Wrote (lit "scale=" ++ num_to_string 20 ++ newline);
               TimerCleared 0; Resolved (lit "0")])
            (fst (start (mkScript (inl Scenario.child) [] None
                           [StdoutData (lit "0" ++ newline)])
                    (new Scenario.opts)))) as H1
      by (vm_compute; auto).
  exact (proj1 (getPrecision_in_range _ _
           [SetPrecision 5 None; StdoutData (lit "0" ++ newline);
            SetPrecision 500 None; SetPrecision NaN None;
            StdoutData (lit "0" ++ newline)] _ _ H0 H1)).
Defined.

(** The range check lets [NaN] through: [setPrecision(NaN)] writes the
    statement scale=NaN, and once a line of output has arrived
    [getPrecision()] is [NaN]. *)
Lemma setPrecision_accepts_NaN :
  let r := run [SetPrecision NaN None; StdoutData (lit "0" ++ newline)]
             Scenario.ready in
  In (Wrote (lit "scale=NaN" ++ newline)) (snd r)
  /\ getPrecision (fst r) = NaN.
Proof. cbv zeta. split; [vm_compute; auto | vm_compute; reflexivity]. Qed.

(** *** Results *)

Lemma trim_incl (s : jsstring) c : In c (trim s) -> In c s.
Proof.
  intros H. destruct (trim_split s) as (l & r & E & _). rewrite E.
  rewrite !in_app_iff. auto.
Qed.

(** X14: a request is resolved only by the handler of the output stream,
    and only while a request is pending; the result is a non-empty text
    without line break and without white space at its ends, and no
    request is pending afterwards. *)
Theorem results_are_single_trimmed_lines (a : Action) (w : t) (v : jsstring) :
  In (Resolved v) (snd (step a w)) ->
  (exists data, a = StdoutData data)
  /\ is_Some (pendingRequest w)
  /\ pendingRequest (fst (step a w)) = None
  /\ v <> [] /\ trim v = v /\ ~ In 10%N v.
Proof.
  destruct a as [data|data|c sg|msg|id|expression tmo we|scale we| |msg]; cbn [step].
  - unfold on_stdout.
    pose proof (split_nl_lines (outputBuffer w ++ data)) as Hnl.
    apply (Forall_removelast _ _) in Hnl.
    set (lines := split_nl (outputBuffer w ++ data)) in *.
    destruct (_ <=? _)%nat; [|intros []].
    set (results := List.filter _ _).
    destruct (0 <? length results)%nat eqn:Hlen; cbn [andb]; [|intros []].
    destruct (present (pendingRequest w)) eqn:Hp; [|intros []].
    match goal with |- context [resolvePendingRequest ?v ?x] =>
      pose proof (resolvePendingRequest_fields v x) as H;
      pose proof (resolvePendingRequest_pending v x) as H';
      destruct (resolvePendingRequest v x) as [w1 e1] end.
    cbn [fst snd] in *. destruct H as (_ & _ & _ & Hv & _).
    intros Hin. apply Hv in Hin as [-> Hsome].
    split; [eauto|]. split; [exact Hsome|]. split; [exact H'|].
    destruct (last results) as [x|] eqn:Hlast.
    2:{ apply last_None in Hlast. rewrite Hlast in Hlen. discriminate. }
    apply last_Some in Hlast as [l' Hres].
    assert (In x results) as Hx by (rewrite Hres, in_app_iff; cbn; auto).
    apply List.filter_In in Hx as [Hx Ht]. cbn [default].
    split; [apply truthy_true, Ht|]. split; [apply trim_idem|].
    intros Hc. apply trim_incl in Hc.
    rewrite List.Forall_forall in Hnl. exact (Hnl x Hx Hc).
  - unfold on_stderr. destruct (_ && _); [|intros []].
    intros H. apply rejectPendingRequest_fields in H. contradiction.
  - intros H. apply rejectPendingRequest_fields in H. contradiction.
  - intros H. apply rejectPendingRequest_fields in H. contradiction.
  - destruct (List.find _ _) as [[i ms]|]; [|intros []]. unfold on_timeout.
    match goal with |- context [rejectPendingRequest ?v ?x] =>
      pose proof (rejectPendingRequest_fields v x) as H;
      destruct (rejectPendingRequest v x) as [w1 e1] end.
    pose proof (kill_fields w1) as Hk. destruct (kill w1) as [w2 e2].
    cbn [fst snd] in *. intros Hin. apply in_app_iff in Hin as [Hin|Hin].
    + destruct H as (_ & _ & _ & _ & _ & _ & H & _). destruct (H _ Hin).
    + destruct Hk as (_ & _ & _ & _ & _ & _ & Hk). destruct (Hk _ Hin).
  - unfold evaluate.
    destruct (evaluate_for_cases ToCaller expression tmo we w)
      as [(err & -> & _)|(_ & _ & -> & _)].
    + intros [H|[]]. discriminate.
    + unfold accepted_effects. destruct we; intros H;
        repeat (destruct H as [H|H]; [discriminate|]); contradiction.
  - unfold setPrecision. destruct (_ || _); [intros [H|[]]; discriminate|].
    destruct (evaluate_for_cases (ToSetPrecision scale)
                (lit "scale=" ++ printed scale) None we w)
      as [(err & -> & _)|(_ & _ & -> & _)].
    + intros [H|[]]. discriminate.
    + unfold accepted_effects. destruct we; intros H;
        repeat (destruct H as [H|H]; [discriminate|]); contradiction.
  - intros H. apply kill_fields in H. contradiction.
  - intros [].
Qed.

Lemma results_are_single_trimmed_lines_witness :
  trim (lit "0.33") = lit "0.33" /\ ~ In 10%N (lit "0.33").
Proof.
  assert (In (Resolved (lit "0.33"))
            (snd (step (StdoutData (lit "3" ++ newline ++ lit "  " ++ newline
                                     ++ lit "0."))
                    (set_outputBuffer (lit "  0.3") Scenario.busy)))) as H
      by (vm_compute; auto).
  destruct (results_are_single_trimmed_lines _ _ _ H) as (_ & _ & _ & _ & Ht & Hn).
  split; assumption.
Defined.

(** *** Output that nobody waits for *)

Lemma output_when_settled (a : Action) (w : t) :
  pendingRequest w = None -> is_output a = true ->
  snd (step a w) = []
  /\ exists ob eb, fst (step a w) = set_errorBuffer eb (set_outputBuffer ob w).
Proof.
  intros Hp Ha. destruct a; try discriminate; cbn [step].
  - unfold on_stdout. rewrite Hp. cbn [present]. rewrite andb_false_r.
    destruct (_ <=? _)%nat; (split; [reflexivity|]).
    + exists (default [] (last (split_nl (outputBuffer w ++ data)))), (errorBuffer w).
      destruct w; reflexivity.
    + exists (outputBuffer w ++ data), (errorBuffer w). destruct w; reflexivity.
  - unfold on_stderr. rewrite Hp. cbn [present]. rewrite andb_false_r.
    split; [reflexivity|].
    exists (outputBuffer w), (errorBuffer w ++ trim data ++ newline).
    destruct w; reflexivity.
Qed.

Lemma evaluate_for_forgets k e tmo we (w : t) ob eb :
  isAvailable w = true -> has_stdin w = true ->
  evaluate_for k e tmo we (set_errorBuffer eb (set_outputBuffer ob w))
  = evaluate_for k e tmo we w.
Proof.
  intros Ha Hs. apply isAvailable_spec in Ha as (Hr & Hp & Hpr).
  unfold evaluate_for, has_stdin in *. setters. rewrite Hr, Hp.
  destruct (process w) eqn:E; [|destruct Hpr; discriminate].
  cbn [present negb orb]. rewrite Hs. cbn [negb].
  destruct w; cbn in *. subst. reflexivity.
Qed.

(** X15: text that the engine writes to its output or error stream while
    the object is available (no request pending) resolves nothing,
    rejects nothing and leaves the object available, and the next
    [evaluate] behaves exactly as if that text had never arrived: same
    effects, same resulting state. *)
Theorem stale_output_is_discarded (w : t) (acts : list Action)
    (e : jsstring) (tmo : option Z) (we : option jsstring) :
  isAvailable w = true -> has_stdin w = true ->
  forallb is_output acts = true ->
  snd (run acts w) = []
  /\ isAvailable (fst (run acts w)) = true
  /\ evaluate e tmo we (fst (run acts w)) = evaluate e tmo we w.
Proof.
  intros Ha Hs Hacts.
  assert (snd (run acts w) = []
          /\ exists ob eb, fst (run acts w) = set_errorBuffer eb (set_outputBuffer ob w))
    as [He (ob & eb & Hw)].
  { apply isAvailable_spec in Ha as (_ & Hp & _). clear Hs.
    assert (forall w0 ob eb,
              w0 = set_errorBuffer eb (set_outputBuffer ob w) ->
              snd (run acts w0) = []
              /\ exists ob' eb',
                   fst (run acts w0) = set_errorBuffer eb' (set_outputBuffer ob' w))
      as Hgen.
    { induction acts as [|a rest IH]; intros w0 ob eb E; [cbn; eauto|].
      cbn [forallb] in Hacts. apply andb_true_iff in Hacts as [Ha Hrest].
      cbn [run].
      assert (pendingRequest w0 = None) as Hp0 by (subst w0; exact Hp).
      destruct (output_when_settled a w0 Hp0 Ha) as [He1 (ob1 & eb1 & Hw1)].
      destruct (step a w0) as [w1 e1]. cbn [fst snd] in *. subst e1.
      specialize (IH Hrest w1 ob1 eb1).
      destruct (run rest w1) as [w2 e2]. cbn [fst snd] in *.
      apply IH. rewrite Hw1, E. destruct w; reflexivity. }
    apply (Hgen w (outputBuffer w) (errorBuffer w)). destruct w; reflexivity. }
  split; [exact He|]. rewrite Hw. split.
  - rewrite <- Ha. unfold isAvailable. reflexivity.
  - apply evaluate_for_forgets; assumption.
Qed.

Lemma stale_output_is_discarded_witness :
  evaluate (lit "2+2") None None
    (fst (run [StdoutData (lit "7" ++ newline ++ lit "8");
               StderrData (lit "warning")] Scenario.ready))
  = evaluate (lit "2+2") None None Scenario.ready.
Proof.
  assert (isAvailable Scenario.ready = true) as H1 by (vm_compute; reflexivity).
  assert (has_stdin Scenario.ready = true) as H2 by (vm_compute; reflexivity).
  assert (forallb is_output [StdoutData (lit "7" ++ newline ++ lit "8");
                             StderrData (lit "warning")] = true) as H3
      by reflexivity.
  exact (proj2 (proj2 (stale_output_is_discarded Scenario.ready _
                         (lit "2+2") None None H1 H2 H3))).
Defined.

End Answers.

(** ** The normal path of [start()] *)

Section StartNormal.
Import BCProcess.

Lemma split_nl_line (line : jsstring) :
  ~ In 10%N line -> split_nl (line ++ newline) = [line; []].
Proof.
  induction line as [|c r IH]; intros Hn; [reflexivity|].
  cbn [app split_nl]. destruct (N.eqb_spec c 10) as [->|_].
  - destruct Hn. left. reflexivity.
  - rewrite IH; [reflexivity|]. intros H. apply Hn. right. exact H.
Qed.

Lemma start_spawn_fresh (o : BCProcessOptions) (c : ChildProcess) :
  start_spawn (inl c) (new o) = ((spawned_with o c, [Spawned c]), None).
Proof. reflexivity. Qed.

Lemma start_ready_fresh (o : BCProcessOptions) (c : ChildProcess) :
  stdin c = true -> in_range (precision o) = true ->
  start_ready None (spawned_with o c) = (starting_with o c, precision_request o).
Proof.
  intros Hs Hr. unfold start_ready, setPrecision, spawned_with. setters.
  unfold in_range in Hr. apply negb_true_iff in Hr. rewrite Hr.
  unfold evaluate_for, has_stdin. setters. cbn [present negb orb].
  rewrite Hs. reflexivity.
Qed.

Lemma answer_fresh (o : BCProcessOptions) (c : ChildProcess) (line : jsstring) :
  trim line <> [] -> ~ In 10%N line ->
  step (StdoutData (line ++ newline)) (starting_with o c)
  = (ready_with o c, [TimerCleared 0; Resolved (trim line)]).
Proof.
  intros Ht Hn. cbn [step]. unfold on_stdout, starting_with. setters.
  cbn [app]. rewrite (split_nl_line line Hn).
  cbn [length Nat.leb removelast List.filter last default].
  apply truthy_true in Ht. rewrite Ht. cbn. reflexivity.
Qed.

(** X16: if [spawn] returns a child with an input stream, the configured
    precision passes the range check of [setPrecision] (as every integer
    between 0 and 100 does), nothing happens during the delay,
    the write succeeds and the engine then answers with one non-blank
    line, then [start()] returns normally; by then the object has
    spawned the child, armed a deadline with the configured timeout,
    written the statement scale=N and a newline, cancelled the deadline
    and resolved the request with the trimmed line; it is available, has
    no live timer, [getPrecision()] is the configured precision and
    [getPid()] the pid of the child. *)
Theorem start_returns_on_first_answer
    (o : BCProcessOptions) (c : ChildProcess) (line : jsstring) :
  stdin c = true -> in_range (precision o) = true ->
  trim line <> [] -> ~ In 10%N line ->
  let r := start (mkScript (inl c) [] None [StdoutData (line ++ newline)]) (new o) in
  snd r = Some None
  /\ exists w,
       List.last (fst r) (new o, [])
       = (w, [Spawned c] ++ precision_request o
             ++ [TimerCleared 0; Resolved (trim line)])
       /\ isAvailable w = true /\ getPrecision w = precision o
       /\ getPid w = pid c /\ timers w = [].
Proof.
  intros Hs Hr Ht Hn. unfold start. cbn [spawned during_delay write_error during_precision].
  rewrite start_spawn_fresh. cbn [observe List.last fst snd].
  rewrite (start_ready_fresh o c Hs Hr).
  change (failed_early (precision_request o)) with (@None BCCalculatorError).
  cbn [await fst snd]. rewrite (answer_fresh o c line Ht Hn).
  cbn [settled fst snd option_map start_finish].
  split; [reflexivity|]. exists (ready_with o c).
  split; [reflexivity|]. repeat split; reflexivity.
Qed.

Lemma start_returns_on_first_answer_witness :
  snd (start (mkScript (inl Scenario.child) [] None
                [StdoutData (lit "20" ++ newline)]) (new Scenario.opts))
  = Some None.
Proof.
  assert (stdin Scenario.child = true) as H1 by reflexivity.
  assert (in_range (precision Scenario.opts) = true) as H2 by (vm_compute; reflexivity).
  assert (trim (lit "20") <> []) as H3 by (vm_compute; discriminate).
  assert (~ In 10%N (lit "20")) as H4 by (vm_compute; intuition discriminate).
  exact (proj1 (start_returns_on_first_answer Scenario.opts Scenario.child
                  (lit "20") H1 H2 H3 H4)).
Defined.

End StartNormal.

(** ** The lists of the pool *)

Section PoolInvariant.
Import BCProcessPool.

Ltac psetters :=
  cbv [set_heap set_processes set_availableProcesses set_isInitialized
       set_creating set_initializing set_waiting set_calls];
  cbn [heap processes availableProcesses config isInitialized creating
       initializing waiting calls].

Lemma consistent_frame (s s' : t) :
  processes s' = processes s -> availableProcesses s' = availableProcesses s ->
  length (heap s') = length (heap s) -> creating s' = creating s ->
  waiting s' = waiting s -> calls s' = calls s ->
  consistent s -> consistent s'.
Proof. unfold consistent. intros -> -> -> -> -> ->. auto. Qed.

Lemma kill_at_frame q (s : t) :
  let s' := fst (kill_at q s) in
  processes s' = processes s /\ availableProcesses s' = availableProcesses s
  /\ length (heap s') = length (heap s) /\ creating s' = creating s
  /\ waiting s' = waiting s /\ calls s' = calls s
  /\ isInitialized s' = isInitialized s /\ initializing s' = initializing s
  /\ config s' = config s.
Proof.
  unfold kill_at. destruct (heap s !! q) as [w|]; [|cbn; tauto].
  destruct (BCProcess.kill w) as [w1 es]. cbn. rewrite length_insert. tauto.
Qed.

Lemma kill_all_frame ps : forall (s : t),
  let s' := fst (kill_all ps s) in
  processes s' = processes s /\ availableProcesses s' = availableProcesses s
  /\ length (heap s') = length (heap s) /\ creating s' = creating s
  /\ waiting s' = waiting s /\ calls s' = calls s
  /\ isInitialized s' = isInitialized s /\ initializing s' = initializing s
  /\ config s' = config s.
Proof.
  induction ps as [|q ps IH]; intros s; [cbn; tauto|].
  cbn [kill_all]. pose proof (kill_at_frame q s) as H1.
  destruct (kill_at q s) as [s1 e1]. specialize (IH s1).
  destruct (kill_all ps s1) as [s2 e2]. cbn [fst] in *. cbv zeta in *.
  destruct H1 as (? & ? & ? & ? & ? & ? & ? & ? & ?).
  destruct IH as (? & ? & ? & ? & ? & ? & ? & ? & ?).
  repeat split; congruence.
Qed.

Lemma kill_at_consistent q (s : t) : consistent s -> consistent (fst (kill_at q s)).
Proof.
  destruct (kill_at_frame q s) as (? & ? & ? & ? & ? & ? & _).
  apply consistent_frame; assumption.
Qed.

Lemma shutdown_consistent (s : t) : consistent s -> consistent (fst (shutdown s)).
Proof.
  unfold shutdown. pose proof (kill_all_frame (processes s) s) as H.
  destruct (kill_all (processes s) s) as [s1 es]. cbn [fst] in *.
  destruct H as (_ & _ & Hh & Hc & Hw & Hk & _).
  intros (_ & _ & _ & _ & Hn & Ht & Hwt). unfold consistent. psetters.
  rewrite Hh, Hc, Hw, Hk.
  split; [constructor|]. split; [constructor|].
  split; [intros p []|]. split; [intros p []|]. split; [exact Hn|].
  split; [|exact Hwt]. intros tk Hin. split; [apply Ht, Hin | intros []].
Qed.

Lemma consistent_initializing v (s : t) :
  consistent s -> consistent (set_initializing v s).
Proof. apply consistent_frame; reflexivity. Qed.

Lemma consistent_isInitialized v (s : t) :
  consistent s -> consistent (set_isInitialized v s).
Proof. apply consistent_frame; reflexivity. Qed.

Lemma consistent_calls (s : t) : consistent s -> consistent (set_calls (S (calls s)) s).
Proof.
  unfold consistent. psetters. intros (? & ? & ? & ? & ? & ? & Hw).
  repeat split; auto; try (apply H4; assumption).
  intros x Hx. specialize (Hw x Hx). lia.
Qed.

Lemma createProcess_consistent idx by_ spawned (s : t) :
  consistent s -> consistent (fst (fst (createProcess idx by_ spawned s))).
Proof.
  intros (Hp & Ha & Hsub & Hlt & Hn & Ht & Hw).
  unfold createProcess, BCProcess.start_spawn.
  destruct spawned as [child|msg]; cbn [fst]; unfold consistent; psetters;
    rewrite length_app; cbn [length].
  - split; [exact Hp|]. split; [exact Ha|]. split; [exact Hsub|].
    split; [intros p Hin; specialize (Hlt p Hin); lia|].
    split.
    { rewrite map_app. cbn [map proc]. apply List.NoDup_app; [exact Hn | repeat constructor; intros [] |].
      intros a Hin [E|[]]. apply in_map_iff in Hin as (tk & E' & Hin).
      destruct (Ht tk Hin) as [Hl _]. lia. }
    split; [|exact Hw].
    intros tk Hin. apply in_app_iff in Hin as [Hin|[<-|[]]].
    + destruct (Ht tk Hin). split; [lia | assumption].
    + cbn [proc]. split; [lia|]. intros Hin. specialize (Hlt _ Hin). lia.
  - split; [exact Hp|]. split; [exact Ha|]. split; [exact Hsub|].
    split; [intros p Hin; specialize (Hlt p Hin); lia|].
    split; [exact Hn|]. split; [|exact Hw].
    intros tk Hin. destruct (Ht tk Hin). split; [lia | assumption].
Qed.

Lemma NoDup_snoc {A} (l : list A) (x : A) :
  List.NoDup l -> ~ In x l -> List.NoDup (l ++ [x]).
Proof.
  intros Hl Hx. apply List.NoDup_app; [exact Hl | repeat constructor; intros [] |].
  intros a Ha [<-|[]]. exact (Hx Ha).
Qed.

Lemma NoDup_map_filter {A B} (f : A -> B) (g : A -> bool) (l : list A) :
  List.NoDup (map f l) -> List.NoDup (map f (List.filter g l)).
Proof.
  induction l as [|a l IH]; cbn; [auto|].
  intros H. apply List.NoDup_cons_iff in H as [Ha Hl].
  destruct (g a); cbn; [|auto]. constructor; [|auto].
  intros Hin. apply Ha. apply in_map_iff in Hin as (x & E & Hx).
  apply List.filter_In in Hx as [Hx _]. apply in_map_iff. eauto.
Qed.

Lemma drop_task_consistent p (s : t) : consistent s -> consistent (drop_task p s).
Proof.
  intros (Hp & Ha & Hsub & Hlt & Hn & Ht & Hw). unfold consistent, drop_task. psetters.
  repeat split; auto; try (apply NoDup_map_filter, Hn);
    apply List.filter_In in H as [H _]; apply Ht, H.
Qed.

Lemma drop_task_gone p (s : t) tk : In tk (creating (drop_task p s)) -> proc tk <> p.
Proof.
  unfold drop_task. psetters. intros H. apply List.filter_In in H as [_ H].
  apply negb_true_iff, Nat.eqb_neq in H. exact H.
Qed.

Lemma created_consistent tk (s : t) :
  consistent s -> (proc tk < length (heap s))%nat -> ~ In (proc tk) (processes s) ->
  (forall tk', In tk' (creating s) -> proc tk' <> proc tk) ->
  consistent (fst (created tk s)).
Proof.
  intros (Hp & Ha & Hsub & Hlt & Hn & Ht & Hw) Hl Hnew Hother.
  assert (consistent (set_availableProcesses (availableProcesses s ++ [proc tk])
                        (set_processes (processes s ++ [proc tk]) s))) as H.
  { unfold consistent. psetters.
    split; [apply NoDup_snoc; assumption|].
    split; [apply NoDup_snoc; [assumption | intros H; apply Hnew, Hsub, H]|].
    split; [intros p; rewrite !in_app_iff; intros [H|H]; auto|].
    split; [intros p; rewrite in_app_iff; intros [H|[<-|[]]]; auto|].
    split; [exact Hn|]. split; [|exact Hw].
    intros tk' Hin. destruct (Ht tk' Hin) as [H1 H2]. split; [exact H1|].
    rewrite in_app_iff. intros [H|[H|[]]]; [exact (H2 H)|].
    exact (Hother tk' Hin (eq_sym H)). }
  unfold created. destruct (caller tk) as [c|c|]; cbn [fst]; [|exact H|exact H].
  destruct (assoc c _) as [[|[|k]]|]; cbn [fst]; try exact H;
    repeat (first [apply consistent_isInitialized | apply consistent_initializing]);
    exact H.
Qed.

Lemma create_failed_consistent by_ e (s : t) :
  consistent s -> consistent (fst (create_failed by_ e s)).
Proof.
  intros H. unfold create_failed. destruct by_ as [c|c|]; [|exact H|exact H].
  destruct (assoc c (initializing s)); [|exact H].
  pose proof (shutdown_consistent (set_initializing (unassoc c (initializing s)) s)
                (consistent_initializing _ _ H)) as H'.
  destruct (shutdown _) as [s1 es]. exact H'.
Qed.

Lemma create_failed_all_consistent by_ errs : forall (s : t),
  consistent s -> consistent (fst (create_failed_all by_ errs s)).
Proof.
  induction errs as [|e errs IH]; intros s H; [exact H|].
  cbn [create_failed_all]. pose proof (create_failed_consistent by_ e s H) as H1.
  destruct (create_failed by_ e s) as [s1 e1]. specialize (IH s1 H1).
  destruct (create_failed_all by_ errs s1) as [s2 e2]. exact IH.
Qed.

Lemma create_loop_consistent c n : forall i spawns (s : t),
  consistent s -> consistent (fst (fst (create_loop c n i spawns s))).
Proof.
  induction n as [|n IH]; intros i spawns s H; [exact H|].
  cbn [create_loop].
  pose proof (createProcess_consistent (Some i) (ByInitialize c) (spawns i) s H) as H1.
  destruct (createProcess _ _ _ s) as [[s1 e1] failed]. cbn [fst] in H1.
  specialize (IH (S i) spawns s1 H1).
  destruct (create_loop c n (S i) spawns s1) as [[s2 e2] errs]. exact IH.
Qed.

Lemma initialize_consistent spawns (s : t) :
  consistent s -> consistent (fst (initialize spawns s)).
Proof.
  intros H. unfold initialize. apply consistent_calls in H.
  destruct (isInitialized s); [exact H|].
  destruct (poolSize (config s)) as [|n]; [apply consistent_isInitialized, H|].
  pose proof (create_loop_consistent (calls s) (S n) 0 spawns _
                (consistent_initializing ((calls s, S n) :: initializing (set_calls (S (calls s)) s)) _ H)) as H1.
  destruct (create_loop _ _ _ _ _) as [[s1 e1] errs]. cbn [fst] in H1.
  pose proof (create_failed_all_consistent (ByInitialize (calls s)) errs s1 H1) as H2.
  destruct (create_failed_all _ _ s1) as [s2 e2]. exact H2.
Qed.

Lemma consistent_shift (s : t) p rest :
  consistent s -> availableProcesses s = p :: rest ->
  consistent (set_availableProcesses rest s) /\ ~ In p rest /\ In p (processes s).
Proof.
  intros (Hp & Ha & Hsub & Hlt & Hn & Ht & Hw) E. rewrite E in Ha, Hsub.
  apply List.NoDup_cons_iff in Ha as [Hnp Ha].
  split; [|split; [exact Hnp | apply Hsub; left; reflexivity]].
  unfold consistent. psetters. repeat split; auto; try (apply Ht; assumption).
  intros q Hq. apply Hsub. right. exact Hq.
Qed.

Lemma take_consistent c spawned (s : t) :
  consistent s -> consistent (fst (take c spawned s)).
Proof.
  intros H. unfold take. destruct (availableProcesses s) as [|p rest] eqn:E; [exact H|].
  destruct (consistent_shift s p rest H E) as [H1 _].
  destruct (available_at p _); cbn [negb]; [exact H1|].
  pose proof (kill_at_consistent p _ H1) as H2.
  destruct (kill_at p _) as [s2 e2]. cbn [fst] in H2.
  pose proof (createProcess_consistent None (ByAcquire c) spawned s2 H2) as H3.
  destruct (createProcess _ _ _ s2) as [[s3 e3] [e|]]; exact H3.
Qed.

Lemma poll_consistent c waited spawned (s : t) :
  consistent s -> (c < calls s)%nat -> consistent (fst (poll c waited spawned s)).
Proof.
  intros H Hc. unfold poll. destruct (_ && _); [|apply take_consistent, H].
  destruct H as (Hp & Ha & Hsub & Hlt & Hn & Ht & Hw).
  unfold consistent. cbn [fst]. psetters.
  repeat split; auto; try (apply Ht; assumption).
  intros x Hx. apply in_app_iff in Hx as [Hx|[<-|[]]]; [auto | exact Hc].
Qed.

Lemma acquireProcess_consistent spawned (s : t) :
  consistent s -> consistent (fst (acquireProcess spawned s)).
Proof.
  intros H. unfold acquireProcess. apply consistent_calls in H.
  destruct (isInitialized s); cbn [negb]; [|exact H].
  apply poll_consistent; [exact H|]. cbn. lia.
Qed.

Lemma assoc_In {A} k (l : list (nat * A)) v :
  assoc k l = Some v -> In (k, v) l.
Proof.
  unfold assoc. destruct (List.find _ l) as [[k' v']|] eqn:E; [|discriminate].
  intros [= <-]. apply find_some in E as [Hin Hk]. cbn in Hk.
  apply Nat.eqb_eq in Hk. subst. exact Hin.
Qed.

Lemma wake_consistent c spawned (s : t) :
  consistent s -> consistent (fst (wake c spawned s)).
Proof.
  intros H. unfold wake. destruct (assoc c (waiting s)) as [waited|] eqn:E; [|exact H].
  apply assoc_In in E.
  destruct H as (Hp & Ha & Hsub & Hlt & Hn & Ht & Hw).
  apply poll_consistent; [|exact (Hw _ E)].
  unfold consistent. psetters. repeat split; auto; try (apply Ht; assumption).
  intros x Hx. apply List.filter_In in Hx as [Hx _]. auto.
Qed.

Lemma includes_In p l : includes p l = true <-> In p l.
Proof.
  unfold includes. rewrite existsb_exists. split.
  - intros (x & Hx & E). apply Nat.eqb_eq in E. subst. exact Hx.
  - intros H. exists p. split; [exact H | apply Nat.eqb_refl].
Qed.

Lemma without_In p q l : In q (without p l) <-> In q l /\ q <> p.
Proof.
  unfold without. rewrite List.filter_In, negb_true_iff, Nat.eqb_neq. tauto.
Qed.

Lemma releaseProcess_consistent p spawned (s : t) :
  consistent s -> consistent (fst (releaseProcess p spawned s)).
Proof.
  intros H. unfold releaseProcess.
  destruct (includes p (processes s)) eqn:Hm; cbn [negb]; [|exact H].
  apply includes_In in Hm.
  destruct (available_at p s).
  - destruct (includes p (availableProcesses s)) eqn:Hi; cbn [negb]; [exact H|].
    assert (~ In p (availableProcesses s)) as Hni.
    { intros Hin. apply includes_In in Hin. congruence. }
    destruct H as (Hp & Ha & Hsub & Hlt & Hn & Ht & Hw).
    unfold consistent. cbn [fst]. psetters.
    repeat split; auto; try (apply Ht; assumption).
    + apply NoDup_snoc; assumption.
    + intros q Hq. apply in_app_iff in Hq as [Hq|[<-|[]]]; auto.
  - assert (consistent (set_availableProcesses (without p (availableProcesses s))
                          (set_processes (without p (processes s)) s))) as H1.
    { destruct H as (Hp & Ha & Hsub & Hlt & Hn & Ht & Hw).
      unfold consistent. psetters.
      split; [apply List.NoDup_filter, Hp|].
      split; [apply List.NoDup_filter, Ha|].
      split; [intros q; rewrite !without_In; intros [? ?]; auto|].
      split; [intros q; rewrite without_In; intros [? ?]; auto|].
      split; [exact Hn|]. split; [|exact Hw].
      intros tk Hin. destruct (Ht tk Hin) as [? Hnot]. split; [assumption|].
      rewrite without_In. tauto. }
    pose proof (kill_at_consistent p _ H1) as H2.
    destruct (kill_at p _) as [s2 e2]. cbn [fst] in H2.
    pose proof (createProcess_consistent None ByRelease spawned s2 H2) as H3.
    destruct (createProcess _ _ _ s2) as [[s3 e3] failed]. exact H3.
Qed.

Lemma consistent_heap_insert p w (s : t) :
  consistent s -> consistent (set_heap (<[p := w]> (heap s)) s).
Proof.
  apply consistent_frame; try reflexivity. psetters. apply length_insert.
Qed.

Lemma task_of_In q ph (s : t) tk : task_of q ph s = Some tk -> In tk (creating s).
Proof. unfold task_of. intros H. apply find_some in H as [H _]. exact H. Qed.

Lemma delay_elapsed_consistent p we (s : t) :
  consistent s -> consistent (fst (delay_elapsed p we s)).
Proof.
  intros H. unfold delay_elapsed.
  destruct (task_of p Delay s) as [tk|] eqn:Etk; [|exact H].
  destruct (heap s !! p) as [w|]; [|exact H].
  destruct (BCProcess.start_ready we w) as [w1 es].
  pose proof (consistent_heap_insert p w1 s H) as H1.
  pose proof (drop_task_consistent p _ H1) as H2.
  destruct (BCProcess.failed_early es) as [e|].
  - pose proof (create_failed_consistent (caller tk)
                  (BCProcess.spawn_error (message e)) _ H2) as H3.
    destruct (create_failed _ _ _) as [s2 e2]. exact H3.
  - cbn [fst].
    pose proof (task_of_In _ _ _ _ Etk) as Hin.
    pose proof (task_of_proc _ _ _ _ Etk) as Hproc.
    destruct H as (_ & _ & _ & _ & _ & Ht & _). destruct (Ht tk Hin) as [Hl Hnew].
    destruct H2 as (Hp & Ha & Hsub & Hlt & Hn & Ht2 & Hw).
    revert Hp Ha Hsub Hlt Hn Ht2 Hw. unfold consistent, drop_task. psetters.
    intros Hp Ha Hsub Hlt Hn Ht2 Hw.
    repeat split; auto.
    + cbn [map proc]. constructor; [|exact Hn].
      intros Hin'. apply in_map_iff in Hin' as (tk' & E & Hin').
      apply List.filter_In in Hin' as [_ Hf].
      apply negb_true_iff, Nat.eqb_neq in Hf. congruence.
    + destruct H as [<-|H]; [cbn [proc]; rewrite length_insert; congruence|].
      apply Ht2, H.
    + destruct H as [<-|H]; [cbn [proc]; congruence|]. apply Ht2, H.
Qed.

Lemma on_process_consistent p a (s : t) :
  consistent s -> consistent (fst (on_process p a s)).
Proof.
  intros H. unfold on_process. destruct (heap s !! p) as [w|]; [|exact H].
  destruct (BCProcess.step a w) as [w1 es].
  pose proof (consistent_heap_insert p w1 s H) as H1.
  pose proof (drop_task_consistent p _ H1) as H2.
  destruct (task_of p Precision s) as [tk|] eqn:Etk; [|exact H1].
  pose proof (task_of_In _ _ _ _ Etk) as Hin.
  pose proof (task_of_proc _ _ _ _ Etk) as Hproc.
  destruct (BCProcess.settled es) as [[v|e]|]; [| |exact H1].
  - destruct H as (_ & _ & _ & _ & _ & Ht & _). destruct (Ht tk Hin) as [Hl Hnew].
    pose proof (created_consistent tk _ H2) as H3.
    destruct (created tk _) as [s2 e2]. apply H3.
    + unfold drop_task. psetters. rewrite length_insert. exact Hl.
    + exact Hnew.
    + intros tk' Hin'. apply drop_task_gone in Hin'. congruence.
  - pose proof (create_failed_consistent (caller tk)
                  (BCProcess.spawn_error (message e)) _ H2) as H3.
    destruct (create_failed _ _ _) as [s2 e2]. exact H3.
Qed.

Lemma step_consistent (a : Action) (s : t) :
  consistent s -> consistent (fst (step a s)).
Proof.
  destruct a; cbn [step].
  - apply initialize_consistent.
  - apply acquireProcess_consistent.
  - apply wake_consistent.
  - apply releaseProcess_consistent.
  - apply shutdown_consistent.
  - apply delay_elapsed_consistent.
  - apply on_process_consistent.
Qed.

Lemma run_consistent (acts : list Action) : forall (s : t),
  consistent s -> consistent (fst (run acts s)).
Proof.
  induction acts as [|a rest IH]; intros s H; [exact H|].
  cbn [run]. pose proof (step_consistent a s H) as H1.
  destruct (step a s) as [s1 e1]. specialize (IH s1 H1).
  destruct (run rest s1) as [s2 e2]. exact IH.
Qed.

Lemma new_consistent cfg : consistent (new cfg).
Proof.
  unfold consistent. cbn.
  split; [apply List.NoDup_nil|]. split; [apply List.NoDup_nil|].
  split; [intros p []|]. split; [intros p []|].
  split; [apply List.NoDup_nil|]. split; [intros tk [] | intros x []].
Qed.

(** X17: after any sequence of calls and events on a new pool,
    [processes] and [availableProcesses] name no process twice and every
    available process is a member and exists; so [busyProcesses] of
    [getStatus()] is never negative, the available count never exceeds
    the total, and [getAvailableCount()] and [getTotalCount()] agree
    with [getStatus()]. *)
Theorem pool_lists_stay_consistent (cfg : ProcessPoolConfig) (acts : list Action) :
  let s := fst (run acts (new cfg)) in
  List.NoDup (processes s)
  /\ List.NoDup (availableProcesses s)
  /\ (forall p, In p (availableProcesses s) ->
        In p (processes s) /\ is_Some (heap s !! p))
  /\ 0 <= Status.busyProcesses (getStatus s)
  /\ Status.availableProcesses (getStatus s) <= Status.totalProcesses (getStatus s)
  /\ getAvailableCount s = Status.availableProcesses (getStatus s)
  /\ getTotalCount s = Status.totalProcesses (getStatus s).
Proof.
  intros s.
  destruct (run_consistent acts (new cfg) (new_consistent cfg))
    as (Hp & Ha & Hsub & Hlt & _). fold s in Hp, Ha, Hsub, Hlt.
  assert (length (availableProcesses s) <= length (processes s))%nat as Hlen.
  { apply List.NoDup_incl_length; [exact Ha|]. intros p. apply Hsub. }
  split; [exact Hp|]. split; [exact Ha|].
  split.
  { intros p Hin. split; [auto|]. apply lookup_lt_is_Some_2. auto. }
  unfold getStatus, getAvailableCount, getTotalCount. cbn.
  repeat split; lia.
Qed.

End PoolInvariant.

(** ** Calls of the pool *)

Section PoolCalls.
Import BCProcessPool.

Ltac psetters :=
  cbv [set_heap set_processes set_availableProcesses set_isInitialized
       set_creating set_initializing set_waiting set_calls];
  cbn [heap processes availableProcesses config isInitialized creating
       initializing waiting calls].

(** *** [shutdown()] *)

Lemma kill_twice (w : BCProcess.t) :
  BCProcess.kill (fst (BCProcess.kill w)) = (fst (BCProcess.kill w), []).
Proof. unfold BCProcess.kill. destruct (BCProcess.process w) eqn:E; cbn; [reflexivity|]. rewrite E. reflexivity. Qed.

Lemma kill_at_heap q (s : t) p w :
  heap s !! p = Some w ->
  heap (fst (kill_at q s)) !! p
  = Some (if (p =? q)%nat then fst (BCProcess.kill w) else w).
Proof.
  intros Hp. unfold kill_at. destruct (Nat.eqb_spec p q) as [->|Hne].
  - rewrite Hp. destruct (BCProcess.kill w) as [w1 es]. cbn.
    apply list_lookup_insert_eq. eapply lookup_lt_Some, Hp.
  - destruct (heap s !! q) as [wq|]; [|exact Hp].
    destruct (BCProcess.kill wq) as [w1 es]. cbn.
    rewrite list_lookup_insert_ne by congruence. exact Hp.
Qed.

Lemma kill_all_heap ps : forall (s : t) p w,
  heap s !! p = Some w ->
  heap (fst (kill_all ps s)) !! p
  = Some (if includes p ps then fst (BCProcess.kill w) else w).
Proof.
  induction ps as [|q ps IH]; intros s p w Hp; [exact Hp|].
  cbn [kill_all]. pose proof (kill_at_heap q s p w Hp) as H1.
  destruct (kill_at q s) as [s1 e1]. cbn [fst] in H1.
  specialize (IH s1 p _ H1). destruct (kill_all ps s1) as [s2 e2]. cbn [fst] in *.
  rewrite IH. unfold includes. cbn [existsb]. fold (includes p ps).
  destruct (p =? q)%nat; cbn [orb]; [|reflexivity].
  rewrite kill_twice. cbn [fst]. destruct (includes p ps); reflexivity.
Qed.

Lemma kill_at_effects q (s : t) e :
  In e (snd (kill_at q s)) -> e = OfProcess q BCProcess.Signalled.
Proof.
  unfold kill_at. destruct (heap s !! q) as [w|]; [|intros []].
  unfold BCProcess.kill. destruct (BCProcess.process w); cbn; [|intros []].
  intros [<-|[]]. reflexivity.
Qed.

Lemma kill_all_effects ps : forall (s : t) e,
  In e (snd (kill_all ps s)) -> exists q, In q ps /\ e = OfProcess q BCProcess.Signalled.
Proof.
  induction ps as [|q ps IH]; intros s e; [intros []|].
  cbn [kill_all]. pose proof (kill_at_effects q s e) as H1.
  destruct (kill_at q s) as [s1 e1]. specialize (IH s1 e).
  destruct (kill_all ps s1) as [s2 e2]. cbn [fst snd] in *.
  rewrite in_app_iff. intros [H|H].
  - exists q. split; [left; reflexivity | auto].
  - destruct (IH H) as (q' & Hq & E). exists q'. split; [right; exact Hq | exact E].
Qed.

Lemma kill_all_signals ps : forall (s : t) p w,
  In p ps -> heap s !! p = Some w -> is_Some (BCProcess.process w) ->
  In (OfProcess p BCProcess.Signalled) (snd (kill_all ps s)).
Proof.
  induction ps as [|q ps IH]; intros s p w Hin Hp Hlive; [destruct Hin|].
  cbn [kill_all]. pose proof (kill_at_heap q s p w Hp) as H1.
  destruct (Nat.eq_dec q p) as [->|Hne].
  - assert (In (OfProcess p BCProcess.Signalled) (snd (kill_at p s))) as Hk.
    { unfold kill_at. rewrite Hp. unfold BCProcess.kill.
      destruct Hlive as [c ->]. cbn. auto. }
    destruct (kill_at p s) as [s1 e1]. destruct (kill_all ps s1) as [s2 e2].
    cbn [snd] in *. apply in_app_iff. auto.
  - destruct Hin as [E|Hin]; [congruence|].
    destruct (kill_at q s) as [s1 e1]. cbn [fst] in H1.
    replace (p =? q)%nat with false in H1
      by (symmetry; apply Nat.eqb_neq; congruence).
    specialize (IH s1 p w Hin H1 Hlive).
    destruct (kill_all ps s1) as [s2 e2]. cbn [snd] in *.
    apply in_app_iff. auto.
Qed.

(** X18: [shutdown()] leaves the pool not initialised and without
    members (status false, 0, 0, 0).  It kills exactly the members: the
    process object of each member is as [kill()] leaves it, unavailable,
    and a live child was sent the signal, while process objects that are
    not members are untouched.  Its only effects are these signals, so
    it settles no request; calls suspended in [createProcess] or in the
    polling loop stay suspended; and the next [acquireProcess()] fails
    with [BC_NOT_READY] (pool not initialized). *)
Theorem shutdown_kills_members_only (s : t) :
  let r := shutdown s in
  getStatus (fst r) = Status.mk false 0 0 0
  /\ (forall p w, heap s !! p = Some w ->
        heap (fst r) !! p
        = Some (if includes p (processes s) then fst (BCProcess.kill w) else w))
  /\ (forall p w, In p (processes s) -> heap s !! p = Some w ->
        available_at p (fst r) = false
        /\ (is_Some (BCProcess.process w) ->
            In (OfProcess p BCProcess.Signalled) (snd r)))
  /\ (forall e, In e (snd r) ->
        exists p, In p (processes s) /\ e = OfProcess p BCProcess.Signalled)
  /\ creating (fst r) = creating s
  /\ waiting (fst r) = waiting s
  /\ forall spawned,
       snd (acquireProcess spawned (fst r))
       = [AcquireFailed (calls s)
            (mkError (lit "BC process pool not initialized") BC_NOT_READY)].
Proof.
  unfold shutdown.
  pose proof (kill_all_heap (processes s) s) as Hh.
  pose proof (kill_all_effects (processes s) s) as He.
  pose proof (kill_all_signals (processes s) s) as Hs.
  pose proof (kill_all_frame (processes s) s) as Hf.
  destruct (kill_all (processes s) s) as [s1 es]. cbn [fst snd] in *.
  destruct Hf as (_ & _ & _ & Hc & Hw & Hk & _).
  split; [reflexivity|]. split; [exact Hh|].
  split.
  { intros p w Hin Hp. split; [|apply Hs; assumption].
    unfold available_at. psetters. rewrite (Hh p w Hp).
    apply includes_In in Hin. rewrite Hin.
    unfold BCProcess.isAvailable.
    destruct (kill_fields w) as (_ & -> & _). cbn. apply andb_false_r. }
  split; [exact He|]. split; [exact Hc|]. split; [exact Hw|].
  intros spawned. unfold acquireProcess. psetters. rewrite Hk. reflexivity.
Qed.

(** *** The polling loop of [acquireProcess] *)

Lemma assoc_fresh {A} k (l : list (nat * A)) v :
  (forall x, In x l -> fst x <> k) -> assoc k (l ++ [(k, v)]) = Some v.
Proof.
  intros H. unfold assoc. induction l as [|x l IH]; cbn.
  - rewrite Nat.eqb_refl. reflexivity.
  - destruct (Nat.eqb_spec (fst x) k) as [E|_]; [destruct (H x (or_introl eq_refl) E)|].
    apply IH. intros y Hy. apply H. right. exact Hy.
Qed.

Lemma unassoc_gone {A} k (l : list (nat * A)) x : In x (unassoc k l) -> fst x <> k.
Proof.
  unfold unassoc. intros H. apply List.filter_In in H as [_ H].
  apply negb_true_iff, Nat.eqb_neq in H. exact H.
Qed.

Lemma wake_sleeps c waited spawned (s : t) :
  sleeping c waited s -> waited + checkInterval < maxWaitTime ->
  snd (step (WakeUp c spawned) s) = []
  /\ sleeping c (waited + checkInterval) (fst (step (WakeUp c spawned) s)).
Proof.
  intros [Ha Hw] Hlt. cbn [step]. unfold wake, poll. rewrite Hw. psetters.
  rewrite Ha. cbn [length Nat.eqb andb].
  replace (waited + checkInterval <? maxWaitTime) with true
    by (symmetry; apply Z.ltb_lt; exact Hlt).
  cbn [fst snd]. split; [reflexivity|]. unfold sleeping. psetters.
  split; [first [exact Ha | reflexivity]|]. apply assoc_fresh. intros x. apply unassoc_gone.
Qed.

Lemma wake_gives_up c waited spawned (s : t) :
  sleeping c waited s -> maxWaitTime <= waited + checkInterval ->
  snd (step (WakeUp c spawned) s)
  = [AcquireFailed c
       (mkError (lit "No BC processes available after waiting") BC_NOT_READY)].
Proof.
  intros [Ha Hw] Hge. cbn [step]. unfold wake, poll, take. rewrite Hw. psetters.
  rewrite Ha. cbn [length Nat.eqb andb].
  replace (waited + checkInterval <? maxWaitTime) with false
    by (symmetry; apply Z.ltb_ge; exact Hge).
  reflexivity.
Qed.

Lemma wakes_sleep c spawned k : forall waited (s : t),
  sleeping c waited s -> waited + checkInterval * Z.of_nat k < maxWaitTime ->
  snd (run (repeat (WakeUp c spawned) k) s) = []
  /\ sleeping c (waited + checkInterval * Z.of_nat k)
       (fst (run (repeat (WakeUp c spawned) k) s)).
Proof.
  unfold checkInterval, maxWaitTime.
  induction k as [|k IH]; intros waited s Hs Hlt.
  - cbn. rewrite Z.add_0_r. auto.
  - cbn [repeat run].
    destruct (wake_sleeps c waited spawned s Hs) as [He Hs1];
      [unfold checkInterval, maxWaitTime; lia|].
    destruct (step (WakeUp c spawned) s) as [s1 e1]. cbn [fst snd] in *.
    destruct (IH (waited + checkInterval) s1 Hs1) as [He2 Hs2];
      [unfold checkInterval; lia|].
    destruct (run _ s1) as [s2 e2]. cbn [fst snd] in *. subst e1 e2.
    split; [reflexivity|].
    replace (waited + 100 * Z.of_nat (S k))
      with (waited + checkInterval + 100 * Z.of_nat k)
      by (unfold checkInterval; lia).
    exact Hs2.
Qed.

Lemma acquire_sleeps spawned (s : t) :
  consistent s -> isInitialized s = true -> availableProcesses s = [] ->
  snd (step (AcquireProcess spawned) s) = []
  /\ sleeping (calls s) 0 (fst (step (AcquireProcess spawned) s)).
Proof.
  intros (_ & _ & _ & _ & _ & _ & Hw) Hi Ha. cbn [step].
  unfold acquireProcess, poll. rewrite Hi. psetters. rewrite Ha. cbn.
  split; [reflexivity|]. unfold sleeping. psetters.
  split; [first [exact Ha | reflexivity]|].
  apply assoc_fresh. intros x Hx. specialize (Hw x Hx). lia.
Qed.

Lemma snd_run_cons (a : Action) (l : list Action) (s : t) :
  snd (run (a :: l) s) = snd (step a s) ++ snd (run l (fst (step a s))).
Proof.
  cbn [run]. destruct (step a s) as [s1 e1]. cbn [fst snd].
  destruct (run l s1). reflexivity.
Qed.

Lemma fst_run_cons (a : Action) (l : list Action) (s : t) :
  fst (run (a :: l) s) = fst (run l (fst (step a s))).
Proof.
  cbn [run]. destruct (step a s) as [s1 e1]. cbn [fst snd].
  destruct (run l s1). reflexivity.
Qed.

Lemma snd_run_app (l1 l2 : list Action) : forall (s : t),
  snd (run (l1 ++ l2) s) = snd (run l1 s) ++ snd (run l2 (fst (run l1 s))).
Proof.
  induction l1 as [|a l1 IH]; intros s; [reflexivity|].
  cbn [app]. rewrite !snd_run_cons, fst_run_cons, IH, app_assoc. reflexivity.
Qed.

(** X19: on an initialised pool with no available process,
    [acquireProcess()] goes to sleep; if nothing else happens to the
    pool meanwhile, it has no outcome after any of its first 299
    wake-ups, and at the 300th wake-up (30000 ms of waiting in steps of
    100 ms) it fails with [BC_NOT_READY] (No BC processes available
    after waiting). *)
Theorem acquire_gives_up_after_300_polls
    (cfg : ProcessPoolConfig) (acts : list Action) (spawned : Spawn) (k : nat) :
  let s := fst (run acts (new cfg)) in
  let c := calls s in
  isInitialized s = true -> availableProcesses s = [] -> (k < 300)%nat ->
  snd (run (AcquireProcess spawned :: repeat (WakeUp c spawned) k) s) = []
  /\ snd (run (AcquireProcess spawned :: repeat (WakeUp c spawned) 300) s)
     = [AcquireFailed c
          (mkError (lit "No BC processes available after waiting") BC_NOT_READY)].
Proof.
  intros s c Hi Ha Hk.
  pose proof (run_consistent acts (new cfg) (new_consistent cfg)) as Hc. fold s in Hc.
  destruct (acquire_sleeps spawned s Hc Hi Ha) as [He Hs]. fold c in Hs.
  rewrite !snd_run_cons, He. cbn [app].
  set (s1 := fst (step (AcquireProcess spawned) s)) in *. split.
  - apply (wakes_sleep c spawned k 0 s1 Hs). unfold checkInterval, maxWaitTime. lia.
  - change 300%nat with (299 + 1)%nat. rewrite repeat_app, snd_run_app.
    destruct (wakes_sleep c spawned 299 0 s1 Hs) as [He' Hs2];
      [unfold checkInterval, maxWaitTime; lia|].
    rewrite He'. cbn [app repeat]. rewrite snd_run_cons. cbn [run snd].
    rewrite app_nil_r. apply (wake_gives_up c _ spawned _ Hs2).
    unfold checkInterval, maxWaitTime. lia.
Qed.

Lemma acquire_gives_up_after_300_polls_witness :
  snd (run (AcquireProcess PoolScenario.spawn_ok
              :: repeat (WakeUp 1 PoolScenario.spawn_ok) 300)
         (fst (run [Initialize (fun _ => PoolScenario.spawn_ok)]
                 (new (mkConfig 0 20 30000)))))
  = [AcquireFailed 1
       (mkError (lit "No BC processes available after waiting") BC_NOT_READY)].
Proof.
  assert (isInitialized (fst (run [Initialize (fun _ => PoolScenario.spawn_ok)]
                                (new (mkConfig 0 20 30000)))) = true) as H1
      by (vm_compute; reflexivity).
  assert (availableProcesses (fst (run [Initialize (fun _ => PoolScenario.spawn_ok)]
                                     (new (mkConfig 0 20 30000)))) = []) as H2
      by (vm_compute; reflexivity).
  assert (0 < 300)%nat as H3 by lia.
  exact (proj2 (acquire_gives_up_after_300_polls (mkConfig 0 20 30000)
                  [Initialize (fun _ => PoolScenario.spawn_ok)]
                  PoolScenario.spawn_ok 0 H1 H2 H3)).
Defined.

(** *** Checking a process out and back in *)

(** X20: on an initialised pool whose first available process p is
    healthy, [acquireProcess()] returns p at once and takes it out of
    [availableProcesses], where it does not occur any more, so one more
    process is busy; [releaseProcess(p)] of the still healthy process
    then puts it at the end of [availableProcesses] and does nothing
    else: members, process objects and status are as before the acquire. *)
Theorem acquire_then_release_rotates
    (cfg : ProcessPoolConfig) (acts : list Action) (spawned spawned' : Spawn)
    (p : nat) (rest : list nat) :
  let s := fst (run acts (new cfg)) in
  isInitialized s = true -> availableProcesses s = p :: rest ->
  available_at p s = true ->
  let r1 := acquireProcess spawned s in
  let r2 := releaseProcess p spawned' (fst r1) in
  snd r1 = [AcquireReturned (calls s) p]
  /\ availableProcesses (fst r1) = rest
  /\ ~ In p rest
  /\ Status.busyProcesses (getStatus (fst r1)) = Status.busyProcesses (getStatus s) + 1
  /\ snd r2 = []
  /\ availableProcesses (fst r2) = rest ++ [p]
  /\ processes (fst r2) = processes s
  /\ heap (fst r2) = heap s
  /\ getStatus (fst r2) = getStatus s.
Proof.
  intros s Hi Ha Hav.
  pose proof (run_consistent acts (new cfg) (new_consistent cfg)) as Hc. fold s in Hc.
  destruct (consistent_shift s p rest Hc Ha) as (_ & Hnp & Hmem).
  assert (acquireProcess spawned s
          = (set_availableProcesses rest (set_calls (S (calls s)) s),
             [AcquireReturned (calls s) p])) as E1.
  { unfold acquireProcess, poll, take. rewrite Hi. psetters. rewrite Ha.
    cbn [length Nat.eqb andb negb].
    unfold available_at in *. psetters. destruct (heap s !! p); [|discriminate].
    rewrite Hav. reflexivity. }
  cbv zeta. rewrite E1. cbn [fst snd].
  assert (releaseProcess p spawned'
            (set_availableProcesses rest (set_calls (S (calls s)) s))
          = (set_availableProcesses (rest ++ [p])
               (set_availableProcesses rest (set_calls (S (calls s)) s)), [])) as E2.
  { unfold releaseProcess. psetters.
    apply includes_In in Hmem. rewrite Hmem. cbn [negb].
    unfold available_at in *. psetters. destruct (heap s !! p); [|discriminate].
    rewrite Hav.
    destruct (includes p rest) eqn:Hi2; [apply includes_In in Hi2; contradiction|].
    reflexivity. }
  rewrite E2. cbn [fst snd]. psetters.
  unfold getStatus. psetters. rewrite Ha, length_app. cbn [length].
  cbn [Status.busyProcesses].
  repeat split; auto; try (f_equal; lia); lia.
Qed.

Lemma acquire_then_release_rotates_witness :
  availableProcesses
    (fst (releaseProcess 0 PoolScenario.spawn_ok
            (fst (acquireProcess PoolScenario.spawn_ok PoolScenario.pool1))))
  = [] ++ [0%nat].
Proof.
  assert (isInitialized
            (fst (run [Initialize (fun _ => PoolScenario.spawn_ok);
                       DelayElapsed 0 None; OnProcess 0 PoolScenario.answer]
                    (new (mkConfig 1 20 30000)))) = true) as H1
      by (vm_compute; reflexivity).
  assert (availableProcesses
            (fst (run [Initialize (fun _ => PoolScenario.spawn_ok);
                       DelayElapsed 0 None; OnProcess 0 PoolScenario.answer]
                    (new (mkConfig 1 20 30000)))) = [0%nat]) as H2
      by (vm_compute; reflexivity).
  assert (available_at 0
            (fst (run [Initialize (fun _ => PoolScenario.spawn_ok);
                       DelayElapsed 0 None; OnProcess 0 PoolScenario.answer]
                    (new (mkConfig 1 20 30000)))) = true) as H3
      by (vm_compute; reflexivity).
  exact (proj1 (proj2 (proj2 (proj2 (proj2 (proj2
           (acquire_then_release_rotates (mkConfig 1 20 30000)
              [Initialize (fun _ => PoolScenario.spawn_ok);
               DelayElapsed 0 None; OnProcess 0 PoolScenario.answer]
              PoolScenario.spawn_ok PoolScenario.spawn_ok 0 [] H1 H2 H3))))))).
Defined.

End PoolCalls.

(** ** The normal path of [initialize()] *)

Section InitializeNormal.
Import BCProcessPool.

Ltac psetters :=
  cbv [set_heap set_processes set_availableProcesses set_isInitialized
       set_creating set_initializing set_waiting set_calls];
  cbn [heap processes availableProcesses config isInitialized creating
       initializing waiting calls].

Lemma outcomes_app es1 es2 : outcomes (es1 ++ es2) = outcomes es1 ++ outcomes es2.
Proof. apply List.filter_app. Qed.

Lemma outcomes_map p (es : list BCProcess.Effect) : outcomes (map (OfProcess p) es) = [].
Proof. induction es as [|e es IH]; [reflexivity | exact IH]. Qed.

Lemma task_of_unique q ph (s : t) tk :
  List.NoDup (map proc (creating s)) -> In tk (creating s) ->
  proc tk = q -> phase tk = ph -> task_of q ph s = Some tk.
Proof.
  unfold task_of. intros Hn Hin Hq Hph.
  induction (creating s) as [|x l IH]; [destruct Hin|].
  cbn [map] in Hn. apply List.NoDup_cons_iff in Hn as [Hx Hn].
  cbn [List.find]. destruct Hin as [->|Hin].
  - rewrite Hq, Nat.eqb_refl, Hph. destruct ph; reflexivity.
  - destruct (Nat.eqb_spec (proc x) q) as [E|_]; [|apply IH; assumption].
    destruct Hx. rewrite E, <- Hq. apply in_map, Hin.
Qed.

Lemma createProcess_ok idx by_ child (s : t) :
  createProcess idx by_ (inl child) s
  = ((set_creating (creating s ++ [mkTask (length (heap s)) idx by_ Delay])
        (set_heap (heap s ++ [spawned_with (options_of (config s)) child]) s),
      [OfProcess (length (heap s)) (BCProcess.Spawned child)]), None).
Proof. reflexivity. Qed.


Section Stages.
Variables (c n : nat) (o : BCProcessOptions) (child : BCProcess.ChildProcess).
Variable line : jsstring.
Hypothesis child_stdin : BCProcess.stdin child = true.
Hypothesis precision_ok : in_range (precision o) = true.
Hypothesis line_text : trim line <> [].
Hypothesis line_single : ~ In 10%N line.




End Stages.






End InitializeNormal.

(** ** Replacing an unhealthy process *)

Section Replacement.
Import BCProcessPool.

Ltac psetters :=
  cbv [set_heap set_processes set_availableProcesses set_isInitialized
       set_creating set_initializing set_waiting set_calls];
  cbn [heap processes availableProcesses config isInitialized creating
       initializing waiting calls].

Lemma without_length p (l : list nat) :
  List.NoDup l -> In p l -> S (length (without p l)) = length l.
Proof.
  intros Hn Hin. induction l as [|x l IH]; [destruct Hin|].
  apply List.NoDup_cons_iff in Hn as [Hx Hn]. unfold without in *. cbn [List.filter].
  destruct (Nat.eqb_spec x p) as [->|Hne]; cbn [negb length].
  - f_equal. f_equal. clear IH Hin Hn. induction l as [|y l IH]; [reflexivity|].
    cbn [List.filter]. destruct (Nat.eqb_spec y p) as [->|_].
    + destruct Hx. left. reflexivity.
    + cbn [negb]. f_equal. apply IH. intros H. apply Hx. right. exact H.
  - f_equal. apply IH; [exact Hn|]. destruct Hin as [E|Hin]; [congruence | exact Hin].
Qed.

Lemma outcomes_kill_at p (s : t) : outcomes (snd (kill_at p s)) = [].
Proof.
  unfold kill_at. destruct (heap s !! p) as [w|]; [|reflexivity].
  destruct (BCProcess.kill w) as [w1 es]. apply outcomes_map.
Qed.

(** X22: [releaseProcess(p)] of a member that is not available removes
    it from [processes] and from [availableProcesses], so the total
    count drops by one, spawns a replacement, and has no outcome of its
    own.  If the child of the replacement has an input stream and the
    configured precision passes the range check of [setPrecision] (as
    every integer between 0 and 100 does), then once the delay of
    the replacement has elapsed and its engine has answered the
    precision statement with a non-blank line, the replacement is at the
    end of both lists and available, and the total count is what it was
    before the release. *)
Theorem release_replaces_unhealthy_member
    (cfg : ProcessPoolConfig) (acts : list Action) (p : nat)
    (child : BCProcess.ChildProcess) (line : jsstring) :
  let s := fst (run acts (new cfg)) in
  In p (processes s) -> available_at p s = false ->
  BCProcess.stdin child = true -> in_range (defaultPrecision (config s)) = true ->
  trim line <> [] -> ~ In 10%N line ->
  let q := length (heap s) in
  let r1 := releaseProcess p (inl child) s in
  let r2 := run [DelayElapsed q None;
                 OnProcess q (BCProcess.StdoutData (line ++ newline))] (fst r1) in
  processes (fst r1) = without p (processes s)
  /\ availableProcesses (fst r1) = without p (availableProcesses s)
  /\ ~ In p (processes (fst r1))
  /\ getTotalCount (fst r1) = getTotalCount s - 1
  /\ In (OfProcess q (BCProcess.Spawned child)) (snd r1)
  /\ outcomes (snd r1) = []
  /\ processes (fst r2) = without p (processes s) ++ [q]
  /\ availableProcesses (fst r2) = without p (availableProcesses s) ++ [q]
  /\ available_at q (fst r2) = true
  /\ getTotalCount (fst r2) = getTotalCount s
  /\ outcomes (snd r2) = [].
Proof.
  intros s Hin Hav Hs Hr Ht Hn q r1 r2.
  pose proof (run_consistent acts (new cfg) (new_consistent cfg)) as Hc. fold s in Hc.
  pose proof (releaseProcess_consistent p (inl child) s Hc) as Hc3. fold r1 in Hc3.
  assert (Hlenp : S (length (without p (processes s))) = length (processes s)).
  { apply without_length; [apply Hc | exact Hin]. }
  (* the release *)
  assert (exists s2 e2,
            r1 = (set_creating (creating s2 ++ [mkTask q None ByRelease Delay])
                    (set_heap (heap s2 ++ [spawned_with (options_of (config s)) child]) s2),
                  e2 ++ [OfProcess q (BCProcess.Spawned child)])
            /\ processes s2 = without p (processes s)
            /\ availableProcesses s2 = without p (availableProcesses s)
            /\ length (heap s2) = q /\ outcomes e2 = [])
    as (s2 & e2 & E1 & Hp2 & Ha2 & Hl2 & Ho2).
  { subst r1. unfold releaseProcess.
    apply includes_In in Hin. rewrite Hin, Hav. cbn [negb].
    pose proof (kill_at_frame p
                  (set_availableProcesses (without p (availableProcesses s))
                     (set_processes (without p (processes s)) s))) as Hf.
    pose proof (outcomes_kill_at p
                  (set_availableProcesses (without p (availableProcesses s))
                     (set_processes (without p (processes s)) s))) as Ho.
    destruct (kill_at p _) as [s2 e2]. cbn [fst snd] in Hf, Ho.
    destruct Hf as (Hp2 & Ha2 & Hl2 & _ & _ & _ & _ & _ & Hcfg).
    rewrite createProcess_ok. exists s2, e2.
    rewrite Hl2, Hcfg. split; [reflexivity|]. auto. }
  assert (fst r1 = set_creating (creating s2 ++ [mkTask q None ByRelease Delay])
                     (set_heap (heap s2 ++ [spawned_with (options_of (config s)) child]) s2))
    as Ef by (rewrite E1; reflexivity).
  assert (snd r1 = e2 ++ [OfProcess q (BCProcess.Spawned child)]) as Es
    by (rewrite E1; reflexivity).
  split; [rewrite Ef; exact Hp2|]. split; [rewrite Ef; exact Ha2|].
  split; [rewrite Ef; psetters; rewrite Hp2, without_In; tauto|].
  split; [unfold getTotalCount; rewrite Ef; psetters; rewrite Hp2; lia|].
  split; [rewrite Es, in_app_iff; right; left; reflexivity|].
  split; [rewrite Es, outcomes_app, Ho2; reflexivity|].
  (* the delay of the replacement *)
  assert (step (DelayElapsed q None) (fst r1)
          = (set_creating
               (mkTask q None ByRelease Precision
                :: creating (drop_task q
                     (set_heap (<[q := starting_with (options_of (config s)) child]>
                                  (heap (fst r1))) (fst r1))))
               (set_heap (<[q := starting_with (options_of (config s)) child]>
                            (heap (fst r1))) (fst r1)),
             map (OfProcess q) (precision_request (options_of (config s))))) as E3.
  { cbn [step]. unfold delay_elapsed.
    assert (task_of q Delay (fst r1) = Some (mkTask q None ByRelease Delay)) as ->.
    { apply task_of_unique; [apply Hc3| |reflexivity|reflexivity].
      rewrite Ef. psetters. apply in_app_iff. right. left. reflexivity. }
    assert (heap (fst r1) !! q = Some (spawned_with (options_of (config s)) child)) as ->.
    { rewrite Ef. psetters. apply list_lookup_middle. congruence. }
    rewrite (start_ready_fresh (options_of (config s)) child Hs Hr). reflexivity. }
  assert (length (heap (fst r1)) = S q) as Hl3.
  { rewrite Ef. psetters. rewrite length_app. cbn. lia. }
  assert (exists s4 e4,
            step (DelayElapsed q None) (fst r1) = (s4, e4)
            /\ heap s4 !! q = Some (starting_with (options_of (config s)) child)
            /\ task_of q Precision s4 = Some (mkTask q None ByRelease Precision)
            /\ processes s4 = without p (processes s)
            /\ availableProcesses s4 = without p (availableProcesses s)
            /\ outcomes e4 = [])
    as (s4 & e4 & E4 & Hh4 & Ht4 & Hp4 & Ha4 & Ho4).
  { rewrite E3. eexists _, _. split; [reflexivity|].
    split; [psetters; apply list_lookup_insert_eq; lia|].
    split; [unfold task_of; psetters; cbn [List.find proc phase];
            rewrite Nat.eqb_refl; reflexivity|].
    unfold drop_task. psetters. rewrite Ef. psetters.
    split; [exact Hp2|]. split; [exact Ha2|]. apply outcomes_map. }
  assert (exists s5 e5,
            step (OnProcess q (BCProcess.StdoutData (line ++ newline))) s4 = (s5, e5)
            /\ heap s5 !! q = Some (ready_with (options_of (config s)) child)
            /\ processes s5 = without p (processes s) ++ [q]
            /\ availableProcesses s5 = without p (availableProcesses s) ++ [q]
            /\ outcomes e5 = [])
    as (s5 & e5 & E5 & Hh5 & Hp5 & Ha5 & Ho5).
  { cbn [step]. unfold on_process. rewrite Hh4, Ht4.
    rewrite (answer_fresh _ child line Ht Hn). cbn [BCProcess.settled].
    unfold created, drop_task. psetters. cbn [caller proc].
    eexists _, _. split; [reflexivity|]. psetters.
    split; [apply list_lookup_insert_eq; eapply lookup_lt_Some, Hh4|].
    rewrite Hp4, Ha4. split; [reflexivity|]. split; [reflexivity|].
    rewrite app_nil_r. apply outcomes_map. }
  subst r2. rewrite !snd_run_cons, !fst_run_cons. cbn [run fst snd].
  rewrite E4. cbn [fst snd]. rewrite E5. cbn [fst snd].
  rewrite app_nil_r, outcomes_app, Ho4, Ho5.
  split; [exact Hp5|]. split; [exact Ha5|].
  split; [unfold available_at; rewrite Hh5; reflexivity|].
  split; [|reflexivity].
  unfold getTotalCount. rewrite Hp5, length_app. cbn [length]. lia.
Qed.

Lemma release_replaces_unhealthy_member_witness :
  processes
    (fst (run [DelayElapsed 1 None;
               OnProcess 1 (BCProcess.StdoutData (lit "20" ++ newline))]
            (fst (releaseProcess 0 (inl Scenario.child)
                    (fst (run [Initialize (fun _ => PoolScenario.spawn_ok);
                               DelayElapsed 0 None;
                               OnProcess 0 PoolScenario.answer;
                               AcquireProcess PoolScenario.spawn_ok;
                               OnProcess 0 (BCProcess.ExitEvent (Some 1) None)]
                            (new (mkConfig 1 20 30000))))))))
  = without 0 [0%nat] ++ [1%nat].
Proof.
  assert (In 0%nat
            (processes
               (fst (run [Initialize (fun _ => PoolScenario.spawn_ok);
                          DelayElapsed 0 None;
                          OnProcess 0 PoolScenario.answer;
                          AcquireProcess PoolScenario.spawn_ok;
                          OnProcess 0 (BCProcess.ExitEvent (Some 1) None)]
                       (new (mkConfig 1 20 30000)))))) as H1
      by (vm_compute; auto).
  assert (available_at 0
            (fst (run [Initialize (fun _ => PoolScenario.spawn_ok);
                       DelayElapsed 0 None;
                       OnProcess 0 PoolScenario.answer;
                       AcquireProcess PoolScenario.spawn_ok;
                       OnProcess 0 (BCProcess.ExitEvent (Some 1) None)]
                    (new (mkConfig 1 20 30000)))) = false) as H2
      by (vm_compute; reflexivity).
  assert (BCProcess.stdin Scenario.child = true) as H3 by reflexivity.
  assert (in_range
            (defaultPrecision
               (config
                  (fst (run [Initialize (fun _ => PoolScenario.spawn_ok);
                             DelayElapsed 0 None;
                             OnProcess 0 PoolScenario.answer;
                             AcquireProcess PoolScenario.spawn_ok;
                             OnProcess 0 (BCProcess.ExitEvent (Some 1) None)]
                          (new (mkConfig 1 20 30000)))))) = true) as H4
      by (vm_compute; reflexivity).
  assert (trim (lit "20") <> []) as H5 by (vm_compute; discriminate).
  assert (~ In 10%N (lit "20")) as H6 by (vm_compute; intuition discriminate).
  pose proof (release_replaces_unhealthy_member (mkConfig 1 20 30000)
                [Initialize (fun _ => PoolScenario.spawn_ok);
                 DelayElapsed 0 None;
                 OnProcess 0 PoolScenario.answer;
                 AcquireProcess PoolScenario.spawn_ok;
                 OnProcess 0 (BCProcess.ExitEvent (Some 1) None)]
                0%nat Scenario.child (lit "20") H1 H2 H3 H4 H5 H6) as H.
  cbv zeta in H. destruct H as (_ & _ & _ & _ & _ & _ & H & _).
  vm_compute. vm_compute in H. exact H.
Defined.

End Replacement.
